(** * Ranking and retrieval core of the lab4 search engine

    A shallow embedding of [pagerank_mapreduce.py], [pagerank_pregel.py],
    [search_engine.py] and the parts of [storage.py] they call.  After the
    vocabulary of the statements come the other programs of the repository:
    the document store of [storage.py], the matrix product of [lab2_1.py],
    the rating aggregation of [lab1.py], the link filter of [parsing.py] and
    the loader of [load_dataset.py].

    Conventions of the embedding:
    - Python [int] is [Z]; a Python [str] is its list of Unicode code points.
    - Python [float] is read in exact arithmetic: a rank or a score is a
      canonical rational [Qc].  Every statement below that speaks about a
      rank or a score is a statement about this exact reading.
    - A [dict] that is only indexed is a [gmap]; a [dict] whose iteration
      order is observable ([vertices], [results], [scores], [Counter]) is an
      insertion-ordered association list ([odict]).
    - A raised exception is an explicit error result. *)

From Stdlib Require Import ZArith QArith Qcanon Lia.
From stdpp Require Import base option list numbers gmap sorting.

Local Open Scope Z_scope.

(** Closed goals over decidable propositions are settled by evaluation. *)
Ltac by_compute :=
  match goal with
  | |- ?P => apply (bool_decide_unpack P); vm_compute; exact I
  end.

(** ** Basic data *)

(** A Python string, as the sequence of its code points. *)
Definition str := list Z.

(** A row of the [documents] table: [(id, url, title, content)].  The
    [content] column is nullable, hence the [option]. *)
Record document := Document {
  doc_id : Z;
  doc_url : str;
  doc_title : str;
  doc_content : option str
}.

(** A row of the [links] table: [(from_id, to_id)]. *)
Definition link := (Z * Z)%type.

(** Python's builtin [sum] over floats: a left fold starting at [0]. *)
Definition py_sum (l : list Qc) : Qc := foldl Qcplus 0%Qc l.

(** ** Insertion-ordered dictionaries *)

Module OD.
Section odict.
Context {K V : Type} `{EqDecision K}.

Definition odict := list (K * V).

(** [d.get(k)] *)
Fixpoint get (k : K) (d : odict) : option V :=
  match d with
  | [] => None
  | (k', v) :: d' => if decide (k' = k) then Some v else get k d'
  end.

(** [d[k] = v]: overwrite in place when the key exists, append otherwise. *)
Fixpoint set (k : K) (v : V) (d : odict) : odict :=
  match d with
  | [] => [(k, v)]
  | (k', v') :: d' =>
      if decide (k' = k) then (k', v) :: d' else (k', v') :: set k v d'
  end.

Definition keys (d : odict) : list K := d.*1.
Definition values (d : odict) : list V := d.*2.
End odict.
Global Arguments odict : clear implicits.
End OD.

(** * PageRank, MapReduce style ([pagerank_mapreduce.py]) *)

Module MapReduce.
Local Open Scope Qc_scope.

(** [build_graph]: the node list in table order and, per node, the list of
    link targets in table order (with multiplicity).  Links whose source is
    not a document are dropped. *)
Definition build_graph (docs : list document) (links : list link)
    : list Z * gmap Z (list Z) :=
  let nodes := doc_id <$> docs in
  let outgoing0 : gmap Z (list Z) := foldl (λ o n, <[n := []]> o) ∅ nodes in
  let outgoing :=
    foldl (λ (o : gmap Z (list Z)) '(from_id, to_id),
             match o !! from_id with
             | Some l => <[from_id := l ++ [to_id]]> o
             | None => o
             end) outgoing0 links in
  (nodes, outgoing).

(** [contributions[nb] += share] on a [defaultdict(float)]. *)
Definition add_share (share : Qc) (contributions : gmap Z Qc) (nb : Z)
    : gmap Z Qc :=
  <[nb := default 0 (contributions !! nb) + share]> contributions.

(** The body of the loop of [map_phase] for one [node].  [ranks[node]]
    raises [KeyError] when the key is missing: [None]. *)
Definition map_node (ranks : gmap Z Qc) (nodes : list Z)
    (outgoing : gmap Z (list Z)) (N : Z)
    (contributions : gmap Z Qc) (node : Z) : option (gmap Z Qc) :=
  rank ← ranks !! node;
  let neighbors := default [] (outgoing !! node) in
  match neighbors with
  | _ :: _ =>
      let share := rank / Qc_of_Z (Z.of_nat (length neighbors)) in
      Some (foldl (add_share share) contributions neighbors)
  | [] =>
      let share := rank / Qc_of_Z N in
      Some (foldl (add_share share) contributions nodes)
  end.

Fixpoint map_loop (ranks : gmap Z Qc) (nodes : list Z)
    (outgoing : gmap Z (list Z)) (N : Z)
    (contributions : gmap Z Qc) (todo : list Z) : option (gmap Z Qc) :=
  match todo with
  | [] => Some contributions
  | node :: todo' =>
      c ← map_node ranks nodes outgoing N contributions node;
      map_loop ranks nodes outgoing N c todo'
  end.

Definition map_phase (ranks : gmap Z Qc) (nodes : list Z)
    (outgoing : gmap Z (list Z)) (N : Z) : option (gmap Z Qc) :=
  map_loop ranks nodes outgoing N ∅ nodes.

Definition reduce_phase (contributions : gmap Z Qc) (nodes : list Z)
    (N : Z) (damping : Qc) : gmap Z Qc :=
  foldl (λ (new_ranks : gmap Z Qc) node,
           <[node := (1 - damping) / Qc_of_Z N
                     + damping * default 0 (contributions !! node)]> new_ranks)
        ∅ nodes.

(** [for _ in range(iterations)] *)
Fixpoint iterate (k : nat) (nodes : list Z) (outgoing : gmap Z (list Z))
    (N : Z) (damping : Qc) (ranks : gmap Z Qc) : option (gmap Z Qc) :=
  match k with
  | O => Some ranks
  | S k' =>
      contributions ← map_phase ranks nodes outgoing N;
      iterate k' nodes outgoing N damping
              (reduce_phase contributions nodes N damping)
  end.

Definition initial_ranks (nodes : list Z) (N : Z) : gmap Z Qc :=
  foldl (λ (r : gmap Z Qc) n, <[n := 1 / Qc_of_Z N]> r) ∅ nodes.

(** [pagerank_mapreduce(iterations, damping)] over the database contents
    [docs], [links].  [None] stands for an uncaught [KeyError]. *)
Definition pagerank_mapreduce (docs : list document) (links : list link)
    (iterations : Z) (damping : Qc) : option (gmap Z Qc) :=
  let '(nodes, outgoing) := build_graph docs links in
  match nodes with
  | [] => Some ∅
  | _ :: _ =>
      let N := Z.of_nat (length nodes) in
      iterate (Z.to_nat iterations) nodes outgoing N damping
              (initial_ranks nodes N)
  end.

(** The sum of the rank values over the nodes. *)
Definition rank_sum (nodes : list Z) (ranks : gmap Z Qc) : Qc :=
  py_sum ((λ n, default 0 (ranks !! n)) <$> nodes).

End MapReduce.

(** * PageRank, Pregel style ([pagerank_pregel.py]) *)

Module Pregel.
Local Open Scope Qc_scope.

Record Vertex := mkVertex {
  id : Z;
  out_links : list Z;
  rank : Qc
}.

(** [Vertex.__init__] *)
Definition new_vertex (vid : Z) (out : list Z) (num_vertices : Z) : Vertex :=
  {| id := vid; out_links := out; rank := 1 / Qc_of_Z num_vertices |}.

(** [Vertex.calculate] *)
Definition calculate (v : Vertex) (messages : list Qc) (num_vertices : Z)
    (damping : Qc) : Vertex :=
  let incoming_sum := py_sum messages in
  {| id := id v; out_links := out_links v;
     rank := (1 - damping) / Qc_of_Z num_vertices + damping * incoming_sum |}.

(** [Vertex.send_messages] *)
Definition send_messages (v : Vertex) : list (Z * Qc) :=
  match out_links v with
  | [] => []
  | _ :: _ =>
      let share := rank v / Qc_of_Z (Z.of_nat (length (out_links v))) in
      (λ dst, (dst, share)) <$> out_links v
  end.

(** [messages[dst].append(value)] on a [defaultdict(list)]. *)
Definition deliver (messages : gmap Z (list Qc)) (m : Z * Qc)
    : gmap Z (list Qc) :=
  <[m.1 := default [] (messages !! m.1) ++ [m.2]]> messages.

(** One superstep: send, the dangling mass, compute. *)
Definition superstep (num_vertices : Z) (damping : Qc)
    (vertices : OD.odict Z Vertex) : OD.odict Z Vertex :=
  let messages :=
    foldl (λ msgs v, foldl deliver msgs (send_messages v))
          (∅ : gmap Z (list Qc)) (OD.values vertices) in
  let dangling_rank :=
    py_sum (rank <$> filter (λ v, out_links v = []) (OD.values vertices)) in
  let dangling_share := damping * dangling_rank / Qc_of_Z num_vertices in
  (λ kv : Z * Vertex,
     let v := kv.2 in
     let msgs := default [] (messages !! id v) in
     let v' := calculate v msgs num_vertices damping in
     (kv.1, {| id := id v'; out_links := out_links v';
               rank := rank v' + dangling_share |})) <$> vertices.

(** [{v.id: v.rank for v in vertices.values()}] *)
Definition rank_dict (vertices : OD.odict Z Vertex) : gmap Z Qc :=
  foldl (λ (r : gmap Z Qc) v, <[id v := rank v]> r) ∅ (OD.values vertices).

(** [pagerank_pregel(iterations, damping)] over the database contents
    [docs], [links].  The [build_graph] of [pagerank_pregel.py] is, line by
    line, the one of [pagerank_mapreduce.py]. *)
Definition pagerank_pregel (docs : list document) (links : list link)
    (iterations : Z) (damping : Qc) : gmap Z Qc :=
  let '(nodes, outgoing) := MapReduce.build_graph docs links in
  match nodes with
  | [] => ∅
  | _ :: _ =>
      let num_vertices := Z.of_nat (length nodes) in
      let vertices : OD.odict Z Vertex :=
        foldl (λ vs node,
                 OD.set node
                   (new_vertex node (default [] (outgoing !! node))
                               num_vertices) vs)
              [] nodes in
      let vertices :=
        Nat.iter (Z.to_nat iterations) (superstep num_vertices damping)
                 vertices in
      rank_dict vertices
  end.

End Pregel.

(** * Sorting *)

(** A stable sort by insertion: [x], which comes first in the input, is put
    in front of the first element [y] with [le x y], so elements that
    compare equal keep their input order.  It stands for SQL's [ORDER BY]
    and for Python's [sorted], which is stable, also with [reverse=True]. *)
Section stable_sort.
Context {A : Type} (le : A → A → bool).

Fixpoint insert_by (x : A) (l : list A) : list A :=
  match l with
  | [] => [x]
  | y :: l' => if le x y then x :: l else y :: insert_by x l'
  end.

Definition stable_sort (l : list A) : list A := foldr insert_by [] l.
End stable_sort.

(** [sorted(d.items(), key=lambda x: x[1], reverse=True)] *)
Definition sorted_by_score_desc (items : list (Z * Qc)) : list (Z * Qc) :=
  stable_sort (λ a b, bool_decide (b.2 ≤ a.2)%Qc) items.

(** * The term index ([storage.py]) *)

Module Storage.

(** The [terms] table, rows [(id, term)]; the [postings] table, rows
    [(term_id, doc_id, tf)]; and the last id that [AUTOINCREMENT] gave to a
    term. *)
Record index := Index {
  terms : list (Z * str);
  postings : list (Z * Z * Z);
  term_seq : Z
}.

Definition empty_index : index := Index [] [] 0.

(** [DELETE FROM postings; DELETE FROM terms]; the counter of
    [AUTOINCREMENT] stays. *)
Definition clear_index (db : index) : index :=
  {| terms := []; postings := []; term_seq := term_seq db |}.

(** [SELECT id FROM terms WHERE term = ?] and [fetchone] *)
Definition find_term_id (db : index) (term : str) : option Z :=
  fst <$> head (filter (λ r : Z * str, r.2 = term) (terms db)).

(** The id of [term], which gets the next id when it is new. *)
Definition get_or_create_term_id (db : index) (term : str) : index * Z :=
  match find_term_id db term with
  | Some term_id => (db, term_id)
  | None =>
      let term_id := term_seq db + 1 in
      ({| terms := terms db ++ [(term_id, term)];
          postings := postings db;
          term_seq := term_id |}, term_id)
  end.

(** One row [(term_id, doc, tf)] per pair of [term_freqs], in order. *)
Definition insert_postings (db : index) (doc : Z)
    (term_freqs : list (str * Z)) : index :=
  foldl (λ db '(term, tf),
           let '(db', term_id) := get_or_create_term_id db term in
           {| terms := terms db';
              postings := postings db' ++ [(term_id, doc, tf)];
              term_seq := term_seq db' |})
        db term_freqs.

(** [SELECT doc_id, tf FROM postings WHERE term_id = ? ORDER BY doc_id] *)
Definition get_term_postings (db : index) (term : str) : list (Z * Z) :=
  match find_term_id db term with
  | None => []
  | Some term_id =>
      stable_sort (λ a b : Z * Z, bool_decide (a.1 ≤ b.1))
        ((λ r : Z * Z * Z, (r.1.2, r.2))
           <$> filter (λ r : Z * Z * Z, r.1.1 = term_id) (postings db))
  end.

End Storage.

(** * Tokenizer and index build ([search_engine.py]) *)

Module Tokenizer.

(** The character class of [TOKEN_RE]: [A-Z], [a-z], U+0410..U+042F,
    U+0430..U+044F and [0-9]. *)
Definition is_word_char (c : Z) : bool :=
  bool_decide (65 ≤ c ≤ 90) || bool_decide (97 ≤ c ≤ 122)
  || bool_decide (1040 ≤ c ≤ 1071) || bool_decide (1072 ≤ c ≤ 1103)
  || bool_decide (48 ≤ c ≤ 57).

(** [TOKEN_RE.findall]: the maximal runs of word characters, left to
    right.  [cur] is the run being read. *)
Fixpoint findall_from (cur : str) (text : str) : list str :=
  match text with
  | [] => match cur with [] => [] | _ :: _ => [cur] end
  | c :: rest =>
      if is_word_char c then findall_from (cur ++ [c]) rest
      else match cur with
           | [] => findall_from [] rest
           | _ :: _ => cur :: findall_from [] rest
           end
  end.

Definition findall (text : str) : list str := findall_from [] text.

(** [str.lower] on a character of the class: the capital letters of the two
    alphabets move up by 32, everything else stays. *)
Definition lower_char (c : Z) : Z :=
  if bool_decide (65 ≤ c ≤ 90) || bool_decide (1040 ≤ c ≤ 1071)
  then c + 32 else c.

(** [t.lower()] for a token [t], which holds characters of the class only. *)
Definition lower_token (t : str) : str := lower_char <$> t.

Definition tokenize (text : str) : list str := lower_token <$> findall text.

End Tokenizer.

Module IndexBuilder.
Import Storage Tokenizer.

(** The exception that [TOKEN_RE.findall(None)] raises. *)
Inductive exn := TypeError.

Inductive outcome := Returned | Raised (e : exn).

(** [Counter(tokens).items()]: the distinct tokens in order of first
    occurrence, each with its number of occurrences. *)
Definition counter (tokens : list str) : OD.odict str Z :=
  foldl (λ freqs t, OD.set t (default 0 (OD.get t freqs) + 1) freqs) [] tokens.

(** The loop over [docs] in [build_inverted_index].  A document without
    content makes [tokenize] raise; the exception is not caught, so the loop
    ends there, with the index as the documents before it left it. *)
Fixpoint build_loop (db : index) (docs : list document) : index * outcome :=
  match docs with
  | [] => (db, Returned)
  | d :: docs' =>
      match doc_content d with
      | None => (db, Raised TypeError)
      | Some content =>
          let tokens := tokenize content in
          let freqs := counter tokens in
          build_loop (insert_postings db (doc_id d) freqs) docs'
      end
  end.

(** [build_inverted_index] on an index [db] and the rows [docs] of the
    [documents] table.  [init_db] creates the tables that are missing and
    changes no row. *)
Definition build_inverted_index (db : index) (docs : list document)
    : index * outcome :=
  build_loop (clear_index db) docs.

End IndexBuilder.

(** * Retrieval ([search_engine.py]) *)

Module Search.
Import Storage.
Local Open Scope Qc_scope.

Section search.
(** Python's [str.lower] on arbitrary strings.  Nothing is assumed of it. *)
Context (lower : str → str).

(** The posting list that a query term is looked up with. *)
Definition term_postings (db : index) (t : str) : list (Z * Z) :=
  get_term_postings db (lower t).

(** [results[doc_id] += alpha * pagerank.get(doc_id, 0.0)] for every key, when
    [pagerank] is neither [None] nor empty. *)
Definition blend (pagerank : option (gmap Z Qc)) (alpha : Qc)
    (results : OD.odict Z Qc) : OD.odict Z Qc :=
  match pagerank with
  | None => results
  | Some pr =>
      if decide (pr = ∅) then results
      else (λ kv : Z * Qc, (kv.1, kv.2 + alpha * default 0 (pr !! kv.1)))
             <$> results
  end.

(** The postings under the cursors, or [None] when a cursor has left its
    list. *)
Definition heads (pls : list (list (Z * Z))) (indices : list nat)
    : option (list (Z * Z)) :=
  mapM (λ pi : list (Z * Z) * nat, pi.1 !! pi.2) (zip pls indices).

(** [while indices[i] < len(pl) and pl[indices[i]][0] < max_id: indices[i] += 1],
    reading the list from position [i] on. *)
Fixpoint skip_from (rest : list (Z * Z)) (i : nat) (max_id : Z) : nat :=
  match rest with
  | [] => i
  | p :: rest' =>
      if bool_decide (p.1 < max_id)%Z then skip_from rest' (S i) max_id else i
  end.

Definition advance (max_id : Z) (pl : list (Z * Z)) (i : nat) : nat :=
  skip_from (drop i pl) i max_id.

Inductive step_result :=
  | Return
  | Continue (indices : list nat) (results : OD.odict Z Qc)
  | Raise.

(** One pass through the body of [while True]. *)
Definition merge_step (pls : list (list (Z * Z))) (indices : list nat)
    (results : OD.odict Z Qc) : step_result :=
  match heads pls indices with
  | None => Return
  | Some hs =>
      match hs.*1 with
      | [] => Raise
      | c :: cs =>
          let max_id := foldl Z.max c cs in
          let min_id := foldl Z.min c cs in
          if decide (max_id = min_id) then
            let score := foldl (λ s tf, s + Qc_of_Z tf) 0 (hs.*2) in
            Continue (S <$> indices) (OD.set max_id score results)
          else
            Continue (zip_with (advance max_id) pls indices) results
      end
  end.

(** The loop, with a bound on the number of passes; [None] when the bound is
    reached or [max] is called on an empty list. *)
Fixpoint merge_loop (fuel : nat) (pls : list (list (Z * Z)))
    (indices : list nat) (results : OD.odict Z Qc)
    : option (OD.odict Z Qc) :=
  match fuel with
  | O => None
  | S fuel' =>
      match merge_step pls indices results with
      | Return => Some results
      | Raise => None
      | Continue indices' results' => merge_loop fuel' pls indices' results'
      end
  end.

(** The [results] dict of [search_by_documents] when the function leaves
    the loop, after the blend and before [sorted]. *)
Definition intersect_results (fuel : nat) (db : index)
    (query_terms : list str) (pagerank : option (gmap Z Qc)) (alpha : Qc)
    : option (OD.odict Z Qc) :=
  let postings_lists := term_postings db <$> query_terms in
  if bool_decide (postings_lists = [])
     || existsb (λ pl, bool_decide (pl = [])) postings_lists
  then Some []
  else
    results ← merge_loop fuel postings_lists ((λ _, O) <$> postings_lists) [];
    Some (blend pagerank alpha results).

Definition search_by_documents_within (fuel : nat) (db : index)
    (query_terms : list str) (pagerank : option (gmap Z Qc)) (alpha : Qc)
    : option (list (Z * Qc)) :=
  sorted_by_score_desc <$> intersect_results fuel db query_terms pagerank alpha.

(** Every pass but the last moves a cursor, so the loop makes at most as
    many passes as there are postings, plus one. *)
Definition enough_fuel (db : index) (query_terms : list str) : nat :=
  S (sum_list (length <$> (term_postings db <$> query_terms))).

Definition search_by_documents (db : index) (query_terms : list str)
    (pagerank : option (gmap Z Qc)) (alpha : Qc) : option (list (Z * Qc)) :=
  search_by_documents_within (enough_fuel db query_terms) db query_terms
                             pagerank alpha.

(** The [scores] dict of [search_by_terms], after the blend. *)
Definition union_scores (db : index) (query_terms : list str)
    (pagerank : option (gmap Z Qc)) (alpha : Qc) : OD.odict Z Qc :=
  let scores :=
    foldl (λ scores term,
             foldl (λ sc p,
                      OD.set p.1 (default 0 (OD.get p.1 sc) + Qc_of_Z p.2) sc)
                   scores (term_postings db term))
          [] query_terms in
  blend pagerank alpha scores.

Definition search_by_terms (db : index) (query_terms : list str)
    (pagerank : option (gmap Z Qc)) (alpha : Qc) : list (Z * Qc) :=
  sorted_by_score_desc (union_scores db query_terms pagerank alpha).

End search.
End Search.

(** * Example data *)

(** A three-page graph: 1 -> 2, 1 -> 3, 2 -> 3; page 3 is dangling. *)
Definition ex_docs : list document :=
  [Document 1 [] [] (Some []); Document 2 [] [] (Some []);
   Document 3 [] [] (Some [])].
Definition ex_links : list link := [(1, 2); (1, 3); (2, 3)].
Definition ex_damping : Qc := Q2Qc (85 # 100).

(** A corpus in which the term ["a"] occurs in documents 1, 2, 3 and the
    term ["b"] in documents 2, 3, 4: ["A"], ["a b"], ["a b b"], ["b"]. *)
Definition ex_corpus : list document :=
  [Document 1 [] [] (Some [65]); Document 2 [] [] (Some [97; 32; 98]);
   Document 3 [] [] (Some [97; 32; 98; 32; 98]);
   Document 4 [] [] (Some [98])].
Definition ex_index : Storage.index :=
  (IndexBuilder.build_inverted_index Storage.empty_index ex_corpus).1.
Definition ex_query : list str := [[97]; [98]].

(** A corpus whose first record has no content. *)
Definition ex_broken_corpus : list document :=
  [Document 1 [] [] None; Document 2 [] [] (Some [97])].

(** * Vocabulary of the statements

    The definitions below are not part of the program: they name what the
    lemmas and theorems speak about. *)

Section sum_def.
Local Open Scope Qc_scope.

(** A right-fold sum, used to reason about [py_sum]. *)
Fixpoint sumf {A} (f : A → Qc) (l : list A) : Qc :=
  match l with
  | [] => 0
  | x :: l' => f x + sumf f l'
  end.

End sum_def.

Module RankSpec.
Import MapReduce Pregel.
Local Open Scope Qc_scope.

(** [d.get(k, 0.0)] *)
Abbreviation getd m k := (default 0%Qc (m !! k)).

(** What [node] scatters: the share and the destinations it goes to. *)
Definition scatter (ranks : gmap Z Qc) (nodes : list Z)
    (outgoing : gmap Z (list Z)) (N : Z) (node : Z) : Qc * list Z :=
  match default [] (outgoing !! node) with
  | [] => (getd ranks node / Qc_of_Z N, nodes)
  | nbs => (getd ranks node / Qc_of_Z (Z.of_nat (length nbs)), nbs)
  end.

(** The mass that [node] sends to [n] in one scatter. *)
Definition flow (ranks : gmap Z Qc) (nodes : list Z)
    (outgoing : gmap Z (list Z)) (N : Z) (node n : Z) : Qc :=
  sumf (λ nb, if decide (nb = n) then (scatter ranks nodes outgoing N node).1
              else 0)
       (scatter ranks nodes outgoing N node).2.

(** The vertex objects that correspond to a rank vector. *)
Definition verts (nodes : list Z) (outgoing : gmap Z (list Z))
    (ranks : gmap Z Qc) : OD.odict Z Vertex :=
  (λ n, (n, mkVertex n (default [] (outgoing !! n)) (getd ranks n))) <$> nodes.

End RankSpec.

Module MergeSpec.
Import Storage Search.
Local Open Scope Qc_scope.

(** The three ways through the body of the loop: a cursor has left its
    list; all cursors are on one document; or some cursor is behind the
    largest document under the cursors. *)
Inductive step_case (pls : list (list (Z * Z))) (indices : list nat)
    (results : OD.odict Z Qc) : step_result → Prop :=
  | case_return pl i :
      (pl, i) ∈ zip pls indices → (length pl ≤ i)%nat →
      step_case pls indices results Return
  | case_match hs m :
      Forall2 (λ pi h, pi.1 !! pi.2 = Some h) (zip pls indices) hs →
      Forall (λ h, h.1 = m) hs →
      step_case pls indices results
        (Continue (S <$> indices)
                  (OD.set m (sumf (λ h, Qc_of_Z h.2) hs) results))
  | case_advance hs m :
      Forall2 (λ pi h, pi.1 !! pi.2 = Some h) (zip pls indices) hs →
      m ∈ hs.*1 → Exists (λ h, (h.1 < m)%Z) hs →
      step_case pls indices results
        (Continue (zip_with (advance m) pls indices) results).

(** The number of postings at or after the cursors. *)
Definition remaining (pls : list (list (Z * Z))) (indices : list nat) : nat :=
  sum_list ((λ pi : list (Z * Z) * nat, length pi.1 - pi.2)%nat
              <$> zip pls indices).

(** A document that every posting list holds. *)
Definition common (pls : list (list (Z * Z))) (d : Z) : Prop :=
  ∀ pl, pl ∈ pls → d ∈ pl.*1.

(** The frequency that a posting list records for a document, [0] when it
    records none. *)
Definition tf_of (pl : list (Z * Z)) (d : Z) : Z := default 0%Z (OD.get d pl).

(** The sum of the frequencies of [d] over the posting lists. *)
Definition tf_sum (pls : list (list (Z * Z))) (d : Z) : Qc :=
  sumf (λ pl, Qc_of_Z (tf_of pl d)) pls.

(** Every result so far is a document of every list. *)
Definition results_sound (pls : list (list (Z * Z))) (indices : list nat)
    (results : OD.odict Z Qc) : Prop :=
  ∀ d, d ∈ results.*1 → common pls d.

(** Every common document has been put in the results or is still at or
    after every cursor. *)
Definition results_complete (pls : list (list (Z * Z))) (indices : list nat)
    (results : OD.odict Z Qc) : Prop :=
  ∀ d, common pls d →
       d ∈ results.*1
       ∨ Forall (λ pi : list (Z * Z) * nat, d ∈ (drop pi.2 pi.1).*1)
                (zip pls indices).

(** Every result carries the sum of the frequencies of its document. *)
Definition results_scored (pls : list (list (Z * Z))) (indices : list nat)
    (results : OD.odict Z Qc) : Prop :=
  ∀ d s, OD.get d results = Some s → s = tf_sum pls d.

(** The distinct elements of a list, in the order of their first
    occurrence. *)
Definition first_seen (l : list Z) : list Z :=
  foldl (λ acc d, if decide (d ∈ acc) then acc else acc ++ [d]) [] l.

End MergeSpec.

Module IndexSpec.
Import Storage.

(** The index that a build keeps: a term has one id and an id one term, no
    id is beyond the last one given out, and there is one posting per term
    and document. *)
Record index_wf (db : index) : Prop := {
  wf_terms : NoDup (terms db).*2;
  wf_ids : NoDup (terms db).*1;
  wf_seq : ∀ r, r ∈ terms db → r.1 ≤ term_seq db;
  wf_pairs : NoDup ((λ p : Z * Z * Z, p.1) <$> postings db)
}.

End IndexSpec.

Module TokenizerSpec.

(** The extended Latin range of the specification: the letters of Latin-1
    Supplement, Latin Extended-A and Latin Extended-B, U+00C0..U+024F. *)
Definition spec_extended_latin (c : Z) : Prop := 192 ≤ c ≤ 591.

(** The lower-case part of the class: [a-z], U+0430..U+044F, [0-9]. *)
Definition is_lower_word_char (c : Z) : Prop :=
  97 ≤ c ≤ 122 ∨ 1072 ≤ c ≤ 1103 ∨ 48 ≤ c ≤ 57.

End TokenizerSpec.

(** * Vocabulary of the further properties *)

Module BuildSpec.
Import Storage Tokenizer IndexBuilder.

(** The number of times [t] occurs among [tokens]. *)
Definition occurrences (t : str) (tokens : list str) : Z :=
  Z.of_nat (length (filter (λ t', t' = t) tokens)).

(** The posting that a document gives to [term]: its id and the number of
    occurrences of [term] among its tokens, when [term] occurs. *)
Definition doc_posting (term : str) (d : document) : option (Z * Z) :=
  content ← doc_content d;
  let c := occurrences term (tokenize content) in
  if decide (0 < c) then Some (doc_id d, c) else None.

(** The documents that a build gets to index: those before the first
    document without content. *)
Fixpoint indexed_prefix (docs : list document) : list document :=
  match docs with
  | [] => []
  | d :: docs' =>
      match doc_content d with
      | Some _ => d :: indexed_prefix docs'
      | None => []
      end
  end.

(** The rows of the [postings] table that belong to [term], in table
    order. *)
Definition raw_postings (db : index) (term : str) : list (Z * Z) :=
  match find_term_id db term with
  | None => []
  | Some term_id =>
      (λ r : Z * Z * Z, (r.1.2, r.2))
        <$> filter (λ r : Z * Z * Z, r.1.1 = term_id) (postings db)
  end.

(** Term ids are distinct, none is beyond the last id given out, and every
    posting speaks of a known term id. *)
Definition terms_ok (db : index) : Prop :=
  NoDup (terms db).*1
  ∧ (∀ r, r ∈ terms db → r.1 ≤ term_seq db)
  ∧ (∀ p, p ∈ postings db → p.1.1 ∈ (terms db).*1).

End BuildSpec.

Module ScoreSpec.
Local Open Scope Qc_scope.

(** The sum of the frequencies of all postings of [d] in a list. *)
Definition tf_total (pl : list (Z * Z)) (d : Z) : Qc :=
  sumf (λ p : Z * Z, if decide (p.1 = d) then Qc_of_Z p.2 else 0) pl.

(** What the authority vector adds to the score of [d]. *)
Definition authority_boost (pagerank : option (gmap Z Qc)) (alpha : Qc)
    (d : Z) : Qc :=
  match pagerank with
  | Some pr => alpha * default 0 (pr !! d)
  | None => 0
  end.

End ScoreSpec.

(** * The document store ([storage.py]) *)

Module DocStore.

(** The [documents] table in rowid order, the [links] table in insertion
    order, and the last id that [AUTOINCREMENT] gave out for a document.
    The functions below are read on tables that no id is beyond this
    counter of, which is what [AUTOINCREMENT] keeps. *)
Record store := Store {
  documents : list document;
  links : list link;
  doc_seq : Z
}.

(** What [init_db] creates in a new database file. *)
Definition empty_store : store := Store [] [] 0.

(** [DELETE FROM links; DELETE FROM documents], as [load_to_db] does before
    a reload; the counter of [AUTOINCREMENT] stays. *)
Definition delete_all (s : store) : store :=
  {| documents := []; links := []; doc_seq := doc_seq s |}.

(** [SELECT id FROM documents WHERE url = ?] and [fetchone] *)
Definition find_doc_id (s : store) (url : str) : option Z :=
  doc_id <$> head (filter (λ d, doc_url d = url) (documents s)).

(** [get_document]: [None] when no row has the id. *)
Definition get_document (s : store) (id : Z) : option document :=
  head (filter (λ d, doc_id d = id) (documents s)).

Definition get_all_documents (s : store) : list document := documents s.

Definition get_links (s : store) : list link := links s.

(** [INSERT INTO documents(url, title, content) ... ON CONFLICT(url) DO
    UPDATE SET title, content]: the row of [url] gets the new title and
    content when there is one, a new row with the next id is appended
    otherwise.  SQLite takes the next id before it sees the conflict, so the
    counter moves on in both cases. *)
Definition upsert_row (s : store) (url title : str) (content : option str)
    : store :=
  let id := doc_seq s + 1 in
  match find_doc_id s url with
  | Some _ =>
      {| documents :=
           (λ d, if decide (doc_url d = url)
                 then {| doc_id := doc_id d; doc_url := doc_url d;
                         doc_title := title; doc_content := content |}
                 else d) <$> documents s;
         links := links s;
         doc_seq := id |}
  | None =>
      {| documents := documents s ++ [Document id url title content];
         links := links s;
         doc_seq := id |}
  end.

(** [upsert_document]: the store after the commit and [int(row[0])] for the
    row that the [SELECT] finds; [None] stands for the [TypeError] of
    [row[0]] on a missing row. *)
Definition upsert_document (s : store) (url title : str)
    (content : option str) : store * option Z :=
  let s' := upsert_row s url title content in
  (s', find_doc_id s' url).

(** The outcome of [insert_links]: the store after the commit, or the
    [sqlite3.IntegrityError] of a violated foreign key, with the tables as
    the connection sees them when the exception leaves the function (the
    statements before the failing one are not rolled back). *)
Inductive result := Committed (s : store) | IntegrityError (s : store).

Definition view (r : result) : store :=
  match r with Committed s | IntegrityError s => s end.

(** [INSERT INTO links(from_id, to_id)]: with [PRAGMA foreign_keys = ON]
    both ends have to be ids of documents. *)
Definition insert_link_row (s : store) (from_id to_id : Z) : option store :=
  if decide (from_id ∈ doc_id <$> documents s
             ∧ to_id ∈ doc_id <$> documents s)
  then Some {| documents := documents s;
               links := links s ++ [(from_id, to_id)];
               doc_seq := doc_seq s |}
  else None.

(** The id of the document of [url], which is created with an empty title
    and an empty content when it does not exist. *)
Definition target_id (s : store) (url : str) : store * Z :=
  match find_doc_id s url with
  | Some to_id => (s, to_id)
  | None =>
      let to_id := doc_seq s + 1 in
      ({| documents := documents s ++ [Document to_id url [] (Some [])];
          links := links s;
          doc_seq := to_id |}, to_id)
  end.

Section insert_links.
(** Python's [str.strip].  Nothing is assumed of it. *)
Context (strip : str → str).

Fixpoint insert_links (s : store) (from_id : Z) (to_urls : list str)
    : result :=
  match to_urls with
  | [] => Committed s
  | url :: to_urls' =>
      let url := strip url in
      if decide (url = []) then insert_links s from_id to_urls'
      else
        let '(s1, to_id) := target_id s url in
        match insert_link_row s1 from_id to_id with
        | Some s2 => insert_links s2 from_id to_urls'
        | None => IntegrityError s1
        end
  end.

End insert_links.

End DocStore.

Module StoreSpec.
Import DocStore.

Definition ids (s : store) : list Z := doc_id <$> documents s.

Definition urls (s : store) : list str := doc_url <$> documents s.

(** The constraints of the schema: the primary key, the unique url, the
    counter of [AUTOINCREMENT] and the two foreign keys of [links]. *)
Definition store_wf (s : store) : Prop :=
  NoDup (ids s)
  ∧ NoDup (urls s)
  ∧ Forall (λ d, doc_id d ≤ doc_seq s) (documents s)
  ∧ Forall (λ l : link, l.1 ∈ ids s ∧ l.2 ∈ ids s) (links s).

(** The stores that the functions of [storage.py] and the reset of
    [load_to_db] lead to from a new database, whether [insert_links] ends
    with a commit or with an exception. *)
Inductive reachable (strip : str → str) : store → Prop :=
  | reach_empty : reachable strip empty_store
  | reach_delete s : reachable strip s → reachable strip (delete_all s)
  | reach_upsert s url title content :
      reachable strip s →
      reachable strip (upsert_document s url title content).1
  | reach_links s from_id to_urls :
      reachable strip s →
      reachable strip (view (insert_links strip s from_id to_urls)).

(** The stores that are reached when every call of [upsert_document] is
    given a content. *)
Inductive filled (strip : str → str) : store → Prop :=
  | filled_empty : filled strip empty_store
  | filled_delete s : filled strip s → filled strip (delete_all s)
  | filled_upsert s url title content :
      filled strip s →
      filled strip (upsert_document s url title (Some content)).1
  | filled_links s from_id to_urls :
      filled strip s →
      filled strip (view (insert_links strip s from_id to_urls)).

(** The urls that [insert_links] makes links to: the stripped ones that are
    not empty. *)
Definition link_targets (strip : str → str) (to_urls : list str)
    : list str :=
  filter (λ u, u ≠ []) (strip <$> to_urls).

(** A row that [insert_links] creates for a url it does not know. *)
Definition placeholder (d : document) : Prop :=
  doc_title d = [] ∧ doc_content d = Some [].

End StoreSpec.

(** ** Example store *)

(** [str.isspace] on ASCII characters. *)
Definition is_ascii_space (c : Z) : bool :=
  bool_decide (9 ≤ c ≤ 13) || bool_decide (28 ≤ c ≤ 32).

Fixpoint lstrip (u : str) : str :=
  match u with
  | c :: u' => if is_ascii_space c then lstrip u' else u
  | [] => []
  end.

(** [str.strip] on ASCII text. *)
Definition ex_strip (u : str) : str := reverse (lstrip (reverse (lstrip u))).

(** One document with the url [a]. *)
Definition ex_store : DocStore.store :=
  (DocStore.upsert_document DocStore.empty_store [97] [65] (Some [120])).1.

(** The urls [" b "], ["  "] and ["a"]. *)
Definition ex_urls : list str := [[32; 98; 32]; [32; 32]; [97]].

(** * Matrix product, MapReduce style ([lab2_1.py])

    The entries are Python ints; the indices, which come from [range], are
    natural numbers. *)

Module Lab2.

(** A matrix as the code has it: a list of rows, of any lengths. *)
Abbreviation matrix := (list (list Z)).

(** [M[i][j]]; [None] is the [IndexError] of an index out of range. *)
Definition entry (M : matrix) (i j : nat) : option Z :=
  row ← M !! i; row !! j.

(** The loop over [k] in [mapper_matrix]. *)
Definition partials (A B : matrix) (i j : nat) : option (list Z) :=
  mapM (λ k, a ← entry A i k; b ← entry B k j; Some (a * b))
       (seq 0 (length B)).

(** [mapper_matrix]: one pair [((i, j), partials)] per cell, row by row.
    [B[0]] is evaluated once per row of [A]. *)
Definition mapper_matrix (A B : matrix)
    : option (list (nat * nat * list Z)) :=
  rows ← mapM (λ i,
                 b0 ← B !! 0%nat;
                 mapM (λ j, p ← partials A B i j; Some ((i, j), p))
                      (seq 0 (length b0)))
              (seq 0 (length A));
  Some (concat rows).

(** [grouped[key].extend(values)] on a [defaultdict(list)]. *)
Definition shuffle_matrix (mapped : list (nat * nat * list Z))
    : OD.odict (nat * nat) (list Z) :=
  foldl (λ grouped '(key, values),
           OD.set key (default [] (OD.get key grouped) ++ values) grouped)
        [] mapped.

(** Python's builtin [sum] over ints. *)
Definition sum (values : list Z) : Z := foldl Z.add 0 values.

Definition reducer_matrix (grouped : OD.odict (nat * nat) (list Z))
    : OD.odict (nat * nat) Z :=
  foldl (λ result '(key, values), OD.set key (sum values) result) [] grouped.

(** [C[i][j] = val]; [None] is the [IndexError] of an index out of range. *)
Definition store_entry (C : matrix) (i j : nat) (val : Z) : option matrix :=
  row ← C !! i;
  if decide (j < length row)%nat then Some (<[i := <[j := val]> row]> C)
  else None.

(** The loop [for (i, j), val in reduced.items(): C[i][j] = val]. *)
Fixpoint fill (C : matrix) (items : list (nat * nat * Z)) : option matrix :=
  match items with
  | [] => Some C
  | (i, j, val) :: items' => C' ← store_entry C i j val; fill C' items'
  end.

(** [matrix_multiply_mr].  The rows of [C] are built one by one by the
    comprehension, so no two of them are the same list. *)
Definition matrix_multiply_mr (A B : matrix) : option matrix :=
  mapped ← mapper_matrix A B;
  let shuffled := shuffle_matrix mapped in
  let reduced := reducer_matrix shuffled in
  b0 ← B !! 0%nat;
  let n := length A in
  let k := length b0 in
  let C := replicate n (replicate k 0) in
  fill C reduced.

End Lab2.

Module MatrixSpec.
Import Lab2.

(** The number of columns that the code takes [B] to have: [len(B[0])]. *)
Definition width (B : matrix) : nat := length (default [] (head B)).

(** Column [j] of [B], for rows that reach it. *)
Definition column (B : matrix) (j : nat) : list Z :=
  (λ row, default 0 (row !! j)) <$> B.

(** The scalar product of a row and a column, over their common length. *)
Definition dot (row col : list Z) : Z :=
  foldr Z.add 0 (zip_with Z.mul row col).

(** The product: row [i], column [j] holds the scalar product of row [i]
    of [A] and column [j] of [B]. *)
Definition product (A B : matrix) : matrix :=
  (λ row, (λ j, dot row (column B j)) <$> seq 0 (width B)) <$> A.

(** The inputs that the code multiplies: [B] has a row, and either there
    is no cell to compute, or every row of [A] reaches the number of rows
    of [B] and every row of [B] reaches the length of its first row. *)
Definition multiplicable (A B : matrix) : Prop :=
  B ≠ []
  ∧ (A = [] ∨ width B = 0%nat
     ∨ (Forall (λ row, (length B ≤ length row)%nat) A
        ∧ Forall (λ row, (width B ≤ length row)%nat) B)).

(** The cells that the mapper emits, row by row. *)
Definition cells (A B : matrix) : list (nat * nat * list Z) :=
  concat ((λ i, (λ j, ((i, j),
                       zip_with Z.mul (default [] (A !! i)) (column B j)))
                  <$> seq 0 (width B))
            <$> seq 0 (length A)).

(** A matrix of [n] rows of length [p]. *)
Definition has_shape (n p : nat) (C : matrix) : Prop :=
  length C = n ∧ Forall (λ row, length row = p) C.

(** The identity matrix with [m] rows. *)
Definition identity (m : nat) : matrix :=
  (λ i, (λ j, if decide (i = j) then 1 else 0) <$> seq 0 m) <$> seq 0 m.

End MatrixSpec.

(** The matrices of the script's own run. *)
Definition ex_A : list (list Z) := [[1; 2]; [3; 4]].
Definition ex_B : list (list Z) := [[5; 6]; [7; 8]].

(** * Mean rating per product, MapReduce style ([lab1.py])

    Ratings, their sums and their means are read in exact arithmetic, as
    the ranks and scores are. *)

Module Lab1.
Local Open Scope Qc_scope.

Definition MIN_REVIEWS : Z := 50.

(** A tuple [(pid, rating, title, category, parent)] that [map_chunk] makes
    of a row of the input. *)
Record review := Review {
  r_pid : str;
  r_rating : Qc;
  r_title : str;
  r_category : str;
  r_parent : str
}.

(** [shuffled[pid].append((rating, title, category, parent))] on a
    [defaultdict(list)]. *)
Definition shuffle (mapped_data : list review)
    : OD.odict str (list (Qc * str * str * str)) :=
  foldl (λ shuffled r,
           OD.set (r_pid r)
                  (default [] (OD.get (r_pid r) shuffled)
                   ++ [(r_rating r, r_title r, r_category r, r_parent r)])
                  shuffled)
        [] mapped_data.

(** An entry [[sum, count, title, category, parent]] of [agg]. *)
Record totals := Totals {
  t_sum : Qc;
  t_count : Z;
  t_title : str;
  t_category : str;
  t_parent : str
}.

(** The entry that the [defaultdict] makes for a new key. *)
Definition no_totals : totals := Totals 0 0 [] [] [].

(** The body of the loop of [reduce_pairs] on the entry of [pid]. *)
Definition add_review (t : totals) (r : review) : totals :=
  {| t_sum := t_sum t + r_rating r;
     t_count := (t_count t + 1)%Z;
     t_title := if decide (t_title t = []) then r_title r else t_title t;
     t_category :=
       if decide (t_category t = []) then r_category r else t_category t;
     t_parent := if decide (t_parent t = []) then r_parent r else t_parent t |}.

Definition aggregate (agg : OD.odict str totals) (r : review)
    : OD.odict str totals :=
  OD.set (r_pid r) (add_review (default no_totals (OD.get (r_pid r) agg)) r)
         agg.

(** A tuple [(pid, avg, count, title, category, parent)] of the result. *)
Record summary := Summary {
  s_pid : str;
  s_avg : Qc;
  s_count : Z;
  s_title : str;
  s_category : str;
  s_parent : str
}.

(** The comprehension over [agg.items()] with its filter. *)
Definition summarize (item : str * totals) : option summary :=
  let '(pid, t) := item in
  if decide (MIN_REVIEWS ≤ t_count t)%Z
  then Some (Summary pid (t_sum t / Qc_of_Z (t_count t)) (t_count t)
                     (t_title t) (t_category t) (t_parent t))
  else None.

(** [reduce_pairs]; [result.sort(key=lambda x: x[1], reverse=True)] is
    stable. *)
Definition reduce_pairs (pairs : list review) : list summary :=
  let agg := foldl aggregate [] pairs in
  let result := omap summarize agg in
  stable_sort (λ a b, bool_decide (s_avg b ≤ s_avg a)) result.

End Lab1.

(** The script of [lab1.py]: the split of the input lines among the
    workers. *)
Module Lab1Main.
Local Open Scope nat_scope.

(** [l[start:stop]] for indices that are not negative. *)
Definition slice {A} (l : list A) (start stop : nat) : list A :=
  take (stop - start) (drop start l).

Definition num_processes : nat := 4.

(** The arguments [(0, len(chunk_with_header), chunk_with_header)] that the
    script makes for the workers; [None] is the [IndexError] of
    [all_lines[0]] on an empty file. *)
Definition chunks (all_lines : list str)
    : option (list (nat * nat * list str)) :=
  headers ← all_lines !! 0;
  let chunk_size := (length all_lines - 1) `div` num_processes in
  Some ((λ i,
           let start := 1 + i * chunk_size in
           let stop := if decide (i < num_processes - 1)
                       then 1 + (i + 1) * chunk_size
                       else length all_lines in
           let chunk_with_header := headers :: slice all_lines start stop in
           (0, length chunk_with_header, chunk_with_header))
          <$> seq 0 num_processes).

Section process_chunk.
(** [map_chunk], which reads the lines with [csv.DictReader].  Nothing is
    assumed of it. *)
Context {row : Type} (map_chunk : list str → list row).

Definition process_chunk (start stop : nat) (lines : list str) : list row :=
  map_chunk (slice lines start stop).

End process_chunk.

End Lab1Main.

Module Lab1Spec.
Import Lab1.
Local Open Scope Qc_scope.

(** The reviews of a product, in input order. *)
Definition reviews_of (pid : str) (pairs : list review) : list review :=
  filter (λ r, r_pid r = pid) pairs.

(** The tuple that [shuffle] keeps of a review. *)
Definition shuffled_row (r : review) : Qc * str * str * str :=
  (r_rating r, r_title r, r_category r, r_parent r).

(** The first string of a list that is not empty, the empty string when
    there is none. *)
Definition first_nonempty (l : list str) : str :=
  default [] (head (filter (λ t, t ≠ []) l)).

(** The summary of a product with the reviews [rows]. *)
Definition summary_of (pid : str) (rows : list review) : summary :=
  {| s_pid := pid;
     s_avg := py_sum (r_rating <$> rows) / Qc_of_Z (Z.of_nat (length rows));
     s_count := Z.of_nat (length rows);
     s_title := first_nonempty (r_title <$> rows);
     s_category := first_nonempty (r_category <$> rows);
     s_parent := first_nonempty (r_parent <$> rows) |}.

End Lab1Spec.

(** Fifty reviews of the product [p] with the rating 4 and the title [t]
    from the second review on, and one review of the product [q]. *)
Definition ex_reviews : list Lab1.review :=
  Lab1.Review [112] (Q2Qc (4 # 1)) [] [] []
  :: replicate 49 (Lab1.Review [112] (Q2Qc (4 # 1)) [116] [] [])
  ++ [Lab1.Review [113] (Q2Qc (5 # 1)) [117] [] []].

(** * The link filter of the crawler ([parsing.py]) *)

Module Parsing.

(** [s.startswith(p)] *)
Fixpoint startswith (s p : str) {struct p} : bool :=
  match p, s with
  | [], _ => true
  | c :: p', d :: s' => bool_decide (c = d) && startswith s' p'
  | _ :: _, [] => false
  end.

(** [sub in s] for strings: [sub] occurs in [s]. *)
Fixpoint contains (s sub : str) : bool :=
  startswith s sub
  || match s with
     | [] => false
     | _ :: s' => contains s' sub
     end.

(** The string ["/wiki/"]. *)
Definition wiki : str := [47; 119; 105; 107; 105; 47].

(** The string ["Main_Page"]. *)
Definition main_page : str := [77; 97; 105; 110; 95; 80; 97; 103; 101].

(** The list of [is_valid_wiki_link]: [":"], ["#"], ["Main_Page"],
    ["/wiki/File:"], ["/wiki/Category:"], ["/wiki/Template:"],
    ["/wiki/Help:"], ["/wiki/Wikipedia:"], ["/wiki/Special:"],
    ["/wiki/Talk:"] and ["/wiki/User:"]. *)
Definition excluded : list str :=
  [ [58];
    [35];
    main_page;
    wiki ++ [70; 105; 108; 101; 58];
    wiki ++ [67; 97; 116; 101; 103; 111; 114; 121; 58];
    wiki ++ [84; 101; 109; 112; 108; 97; 116; 101; 58];
    wiki ++ [72; 101; 108; 112; 58];
    wiki ++ [87; 105; 107; 105; 112; 101; 100; 105; 97; 58];
    wiki ++ [83; 112; 101; 99; 105; 97; 108; 58];
    wiki ++ [84; 97; 108; 107; 58];
    wiki ++ [85; 115; 101; 114; 58] ].

Definition is_valid_wiki_link (href : str) : bool :=
  if decide (href = []) then false
  else if negb (startswith href wiki) then false
  else if existsb (contains href) excluded then false
  else true.

End Parsing.

(** The hrefs ["/wiki/PageRank"] and ["/wiki/Help:Contents"]. *)
Definition ex_href_article : str :=
  Parsing.wiki ++ [80; 97; 103; 101; 82; 97; 110; 107].
Definition ex_href_help : str :=
  Parsing.wiki ++ [72; 101; 108; 112; 58; 67; 111; 110; 116; 101; 110; 116; 115].

(** * Loading the dataset ([load_dataset.py]) *)

Module LoadDataset.
Import DocStore.

(** The value of an article in the JSON file: what is under ["url"],
    ["title"], ["content"] and ["links"].  The content may be [null]; the
    key ["links"] may be missing. *)
Record article := Article {
  a_url : str;
  a_title : str;
  a_content : option str;
  a_links : option (list str)
}.

Section load.
(** Python's [str.strip], which [insert_links] calls. *)
Context (strip : str → str).

(** The first loop: one [upsert_document] per article, with its id put
    into [doc_id_map].  [None] is an exception that leaves the function. *)
Fixpoint create_documents (s : store) (doc_id_map : OD.odict str Z)
    (items : list (str * article)) : option (store * OD.odict str Z) :=
  match items with
  | [] => Some (s, doc_id_map)
  | (title, doc_data) :: items' =>
      let '(s', row) := upsert_document s (a_url doc_data) (a_title doc_data)
                                        (a_content doc_data) in
      doc_id ← row;
      create_documents s' (OD.set title doc_id doc_id_map) items'
  end.

(** The inner loops: for each link title that is a key of [doc_id_map],
    the url of the article that [documents] has under the title. *)
Definition link_urls (documents : OD.odict str article)
    (doc_id_map : OD.odict str Z) (links : list str) : list str :=
  omap (λ link_title,
          if decide (is_Some (OD.get link_title doc_id_map))
          then a_url <$> OD.get link_title documents
          else None)
       links.

(** The second loop: [insert_links] for each article that has link urls. *)
Fixpoint add_links (s : store) (documents : OD.odict str article)
    (doc_id_map : OD.odict str Z) (items : list (str * article))
    : option store :=
  match items with
  | [] => Some s
  | (title, doc_data) :: items' =>
      from_id ← OD.get title doc_id_map;
      match link_urls documents doc_id_map (default [] (a_links doc_data)) with
      | [] => add_links s documents doc_id_map items'
      | url :: urls =>
          match insert_links strip s from_id (url :: urls) with
          | Committed s' => add_links s' documents doc_id_map items'
          | IntegrityError _ => None
          end
      end
  end.

(** [load_dataset_to_db] on the articles of the JSON file, in the order
    of the file. *)
Definition load_dataset_to_db (s : store) (documents : OD.odict str article)
    : option store :=
  '(s1, doc_id_map) ← create_documents s [] documents;
  add_links s1 documents doc_id_map documents.

End load.
End LoadDataset.

Module LoadSpec.
Import DocStore LoadDataset.

(** The link that the store holds for the link title [link_title] of the
    article [a], when the title is the one of an article of the dataset. *)
Definition stored_link (s : store) (documents : OD.odict str article)
    (a : article) (link_title : str) : option link :=
  a' ← OD.get link_title documents;
  from_id ← find_doc_id s (a_url a);
  to_id ← find_doc_id s (a_url a');
  Some (from_id, to_id).

(** The links of the dataset, article by article. *)
Definition dataset_links (s : store) (documents : OD.odict str article)
    : list link :=
  concat ((λ item : str * article,
             omap (stored_link s documents item.2)
                  (default [] (a_links item.2)))
            <$> documents).

(** What [doc_id_map] holds when the articles [seen] have been stored:
    their titles and no others, each with the id of the document of its
    url. *)
Definition ids_known (s : store) (doc_id_map : OD.odict str Z)
    (seen : list (str * article)) : Prop :=
  (∀ t, is_Some (OD.get t doc_id_map) → t ∈ seen.*1)
  ∧ (∀ t a, (t, a) ∈ seen →
            is_Some (OD.get t doc_id_map)
            ∧ OD.get t doc_id_map = find_doc_id s (a_url a)).

(** Every url of the dataset is not blank and has no blank around it. *)
Definition clean_urls (strip : str → str) (documents : OD.odict str article)
    : Prop :=
  Forall (λ item : str * article,
            strip (a_url item.2) = a_url item.2 ∧ a_url item.2 ≠ [])
         documents.

End LoadSpec.

(** Two articles that link to each other; the first one also names an
    article that the dataset does not have. *)
Definition ex_dataset : OD.odict str LoadDataset.article :=
  [([65], LoadDataset.Article [97] [65] (Some [120]) (Some [[66]; [67]]));
   ([66], LoadDataset.Article [98] [66] (Some [121]) (Some [[65]]))].

(** * Sums of rationals over lists *)

Section sums.
Local Open Scope Qc_scope.

Lemma foldl_Qcplus (a : Qc) (l : list Qc) :
  foldl Qcplus a l = a + sumf id l.
Proof.
  revert a. induction l as [|x l IH]; intros a; simpl.
  - ring.
  - rewrite IH. unfold id. ring.
Qed.

Lemma sumf_fmap {A B} (g : A → B) (f : B → Qc) (l : list A) :
  sumf f (g <$> l) = sumf (f ∘ g) l.
Proof. induction l as [|x l IH]; csimpl; [done|]. by rewrite IH. Qed.

Lemma py_sum_sumf (l : list Qc) : py_sum l = sumf id l.
Proof. unfold py_sum. rewrite foldl_Qcplus. ring. Qed.

Lemma py_sum_fmap {A} (f : A → Qc) (l : list A) :
  py_sum (f <$> l) = sumf f l.
Proof. rewrite py_sum_sumf, sumf_fmap. done. Qed.

Lemma sumf_app {A} (f : A → Qc) (l1 l2 : list A) :
  sumf f (l1 ++ l2) = sumf f l1 + sumf f l2.
Proof.
  induction l1 as [|x l1 IH]; simpl; [ring|]. rewrite IH. ring.
Qed.

Lemma sumf_ext {A} (f g : A → Qc) (l : list A) :
  (∀ x, x ∈ l → f x = g x) → sumf f l = sumf g l.
Proof.
  induction l as [|x l IH]; intros Hfg; simpl; [done|].
  rewrite Hfg by left. rewrite IH; [done|].
  intros y Hy. apply Hfg. by right.
Qed.

Lemma sumf_plus {A} (f g : A → Qc) (l : list A) :
  sumf (λ x, f x + g x) l = sumf f l + sumf g l.
Proof.
  induction l as [|x l IH]; simpl; [ring|]. rewrite IH. ring.
Qed.

Lemma sumf_scale {A} (c : Qc) (f : A → Qc) (l : list A) :
  sumf (λ x, c * f x) l = c * sumf f l.
Proof.
  induction l as [|x l IH]; simpl; [ring|]. rewrite IH. ring.
Qed.

Lemma sumf_zero {A} (l : list A) : sumf (λ _, 0) l = 0.
Proof. induction l as [|x l IH]; simpl; [done|]. rewrite IH. ring. Qed.

Lemma sumf_const {A} (c : Qc) (l : list A) :
  sumf (λ _, c) l = Qc_of_Z (Z.of_nat (length l)) * c.
Proof.
  induction l as [|x l IH]; simpl length; simpl sumf.
  - change (Qc_of_Z (Z.of_nat 0)) with (Qc_of_Z 0).
    rewrite Z2Qc_inj_0. ring.
  - rewrite IH, Nat2Z.inj_succ, <- Z.add_1_r, Z2Qc_inj_add, Z2Qc_inj_1. ring.
Qed.

Lemma sumf_swap {A B} (f : A → B → Qc) (l1 : list A) (l2 : list B) :
  sumf (λ x, sumf (λ y, f x y) l2) l1 = sumf (λ y, sumf (λ x, f x y) l1) l2.
Proof.
  induction l1 as [|x l1 IH]; simpl.
  - by rewrite sumf_zero.
  - rewrite IH, <- sumf_plus. done.
Qed.

(** Summing an indicator of [x] over a duplicate-free list that holds [x]. *)
Lemma sumf_indicator `{EqDecision A} (x : A) (s : Qc) (l : list A) :
  NoDup l → x ∈ l → sumf (λ n, if decide (n = x) then s else 0) l = s.
Proof.
  induction 1 as [|y l Hy Hnd IH]; intros Hx; [by apply elem_of_nil in Hx|].
  simpl. destruct (decide (y = x)) as [->|Hne].
  - rewrite (sumf_ext _ (λ _, 0)), sumf_zero; [ring|].
    intros z Hz. case_decide; [congruence|done].
  - apply elem_of_cons in Hx as [?|Hx]; [done|]. rewrite IH by done. ring.
Qed.

Lemma sumf_indicator_notin `{EqDecision A} (x : A) (s : Qc) (l : list A) :
  x ∉ l → sumf (λ n, if decide (n = x) then s else 0) l = 0.
Proof.
  intros Hx. rewrite (sumf_ext _ (λ _, 0)), sumf_zero; [done|].
  intros z Hz. case_decide; [congruence|done].
Qed.

Lemma Qc_mul_div_cancel (x y : Qc) : y ≠ 0 → y * (x / y) = x.
Proof. intros Hy. field. done. Qed.

Lemma sumf_nonneg {A} (f : A → Qc) (l : list A) :
  (∀ x, x ∈ l → 0 ≤ f x) → 0 ≤ sumf f l.
Proof.
  induction l as [|x l IH]; intros Hf; simpl; [done|].
  apply Qcplus_nonneg_nonneg; [apply Hf; by left|].
  apply IH. intros y Hy. apply Hf. by right.
Qed.

End sums.

(** * Facts about the MapReduce iteration *)

Module MapReduceFacts.
Import MapReduce RankSpec.
Local Open Scope Qc_scope.


Lemma foldl_insert_lookup {V} (f : Z → V) (l : list Z) (m0 : gmap Z V) n :
  foldl (λ (m : gmap Z V) x, <[x := f x]> m) m0 l !! n
  = if decide (n ∈ l) then Some (f n) else m0 !! n.
Proof.
  revert m0. induction l as [|y l IH]; intros m0; simpl.
  - done.
  - rewrite IH. destruct (decide (n ∈ l)) as [Hin|Hnin].
    + rewrite decide_True; [done|by right].
    + rewrite lookup_insert. destruct (decide (y = n)) as [->|Hne].
      * rewrite decide_True; [done|by left].
      * rewrite decide_False; [done|].
        intros [?|?]%elem_of_cons; congruence.
Qed.

Lemma foldl_add_share s c l n :
  getd (foldl (add_share s) c l) n
  = getd c n + sumf (λ nb, if decide (nb = n) then s else 0) l.
Proof.
  revert c. induction l as [|y l IH]; intros c; simpl; [ring|].
  rewrite IH. unfold add_share. rewrite lookup_insert.
  destruct (decide (y = n)) as [->|Hne]; simpl; ring.
Qed.


Lemma map_node_spec ranks nodes outgoing N c node :
  is_Some (ranks !! node) →
  ∃ c', map_node ranks nodes outgoing N c node = Some c'
        ∧ ∀ n, getd c' n = getd c n + flow ranks nodes outgoing N node n.
Proof.
  intros [r Hr]. unfold map_node, flow, scatter. rewrite Hr. simpl.
  destruct (default [] (outgoing !! node)) as [|nb nbs];
    eexists; (split; [reflexivity|]); intros n; apply foldl_add_share.
Qed.

Lemma map_loop_spec ranks nodes outgoing N c todo :
  (∀ n, n ∈ todo → is_Some (ranks !! n)) →
  ∃ c', map_loop ranks nodes outgoing N c todo = Some c'
        ∧ ∀ n, getd c' n
               = getd c n + sumf (λ node, flow ranks nodes outgoing N node n) todo.
Proof.
  revert c. induction todo as [|node todo IH]; intros c Hdom; simpl.
  - exists c. split; [done|]. intros n. ring.
  - destruct (map_node_spec ranks nodes outgoing N c node) as (c1 & -> & Hc1).
    { apply Hdom. by left. }
    simpl. destruct (IH c1) as (c2 & -> & Hc2).
    { intros n Hn. apply Hdom. by right. }
    exists c2. split; [done|]. intros n. rewrite Hc2, Hc1. ring.
Qed.

Lemma map_phase_spec ranks nodes outgoing N :
  (∀ n, n ∈ nodes → is_Some (ranks !! n)) →
  ∃ c, map_phase ranks nodes outgoing N = Some c
       ∧ ∀ n, getd c n = sumf (λ node, flow ranks nodes outgoing N node n) nodes.
Proof.
  intros Hdom. destruct (map_loop_spec ranks nodes outgoing N ∅ nodes Hdom)
    as (c & Hc & Hget).
  exists c. split; [done|]. intros n. rewrite Hget, lookup_empty. simpl. ring.
Qed.

Lemma reduce_phase_lookup c nodes N damping n :
  reduce_phase c nodes N damping !! n
  = if decide (n ∈ nodes)
    then Some ((1 - damping) / Qc_of_Z N + damping * getd c n)
    else None.
Proof.
  unfold reduce_phase.
  rewrite (foldl_insert_lookup
             (λ node, (1 - damping) / Qc_of_Z N + damping * getd c node)).
  by rewrite lookup_empty.
Qed.

Lemma initial_ranks_lookup nodes N n :
  initial_ranks nodes N !! n
  = if decide (n ∈ nodes) then Some (1 / Qc_of_Z N) else None.
Proof.
  unfold initial_ranks.
  rewrite (foldl_insert_lookup (λ _, 1 / Qc_of_Z N)). by rewrite lookup_empty.
Qed.

(** Every node gives away exactly its rank, provided every edge ends at a
    node and no node is listed twice. *)
Lemma flow_total ranks nodes outgoing node :
  NoDup nodes → nodes ≠ [] →
  (∀ nb, nb ∈ default [] (outgoing !! node) → nb ∈ nodes) →
  sumf (flow ranks nodes outgoing (Z.of_nat (length nodes)) node) nodes
  = getd ranks node.
Proof.
  intros Hnd Hne Hclosed. unfold flow.
  set (sc := scatter ranks nodes outgoing (Z.of_nat (length nodes)) node).
  assert (Hsub : ∀ nb, nb ∈ sc.2 → nb ∈ nodes).
  { unfold sc, scatter. destruct (default [] (outgoing !! node)); simpl; auto. }
  assert (Hval : Qc_of_Z (Z.of_nat (length sc.2)) * sc.1 = getd ranks node).
  { assert (Hpos : ∀ l : list Z, l ≠ [] → Qc_of_Z (Z.of_nat (length l)) ≠ 0).
    { intros l Hl H0. apply Hl, length_zero_iff_nil, (inj Z.of_nat).
      apply Z2Qc_inj. rewrite H0. symmetry. exact Z2Qc_inj_0. }
    unfold sc, scatter.
    destruct (default [] (outgoing !! node)) as [|nb nbs]; simpl fst; simpl snd.
    - by apply Qc_mul_div_cancel, Hpos.
    - by apply Qc_mul_div_cancel, (Hpos (nb :: nbs)). }
  rewrite sumf_swap, (sumf_ext _ (λ _, sc.1)); [by rewrite sumf_const|].
  intros nb Hnb. cbv beta.
  etrans; [|apply (sumf_indicator nb sc.1 nodes); auto].
  apply sumf_ext. intros n _.
  destruct (decide (nb = n)), (decide (n = nb)); congruence.
Qed.

(** The graph that [build_graph] returns: the targets of the links leaving
    [n], in table order, for every document id [n]. *)
Lemma build_graph_outgoing docs links n :
  (build_graph docs links).2 !! n
  = if decide (n ∈ doc_id <$> docs)
    then Some ((filter (λ l : link, l.1 = n) links).*2)
    else None.
Proof.
  unfold build_graph. cbv zeta. simpl snd.
  set (o0 := foldl _ ∅ (doc_id <$> docs)).
  assert (Ho0 : o0 !! n = if decide (n ∈ doc_id <$> docs) then Some [] else None).
  { unfold o0. rewrite (foldl_insert_lookup (λ _, [])). by rewrite lookup_empty. }
  transitivity ((λ l, l ++ (filter (λ l : link, l.1 = n) links).*2) <$> o0 !! n).
  2:{ rewrite Ho0. by case_decide. }
  clear Ho0. generalize o0. clear o0.
  induction links as [|[f t] links IH]; intros o; simpl.
  - destruct (o !! n); simpl; [|done]. by rewrite app_nil_r.
  - rewrite IH. clear IH. rewrite filter_cons. simpl.
    destruct (decide (f = n)) as [->|Hne].
    + destruct (o !! n) as [l|] eqn:Hl.
      * rewrite lookup_insert_eq. simpl. by rewrite <- app_assoc.
      * by rewrite Hl.
    + destruct (o !! f); [|done]. by rewrite lookup_insert_ne.
Qed.

(** Every edge of the built graph ends at a document when every link row
    does (the foreign key of the [links] table). *)
Lemma build_graph_closed docs links node nb :
  (∀ l : link, l ∈ links → l.2 ∈ doc_id <$> docs) →
  nb ∈ default [] ((build_graph docs links).2 !! node) →
  nb ∈ doc_id <$> docs.
Proof.
  intros Hfk. rewrite build_graph_outgoing. case_decide; simpl.
  - intros ([f t] & -> & Hin)%list_elem_of_fmap.
    apply list_elem_of_filter in Hin as [_ Hin]. by apply (Hfk (f, t)).
  - by intros ?%elem_of_nil.
Qed.

(** One iteration maps a total rank [s] to [(1 - damping) + damping * s]. *)
Lemma step_rank_sum ranks nodes outgoing damping c :
  NoDup nodes → nodes ≠ [] →
  (∀ node nb, nb ∈ default [] (outgoing !! node) → nb ∈ nodes) →
  (∀ n, n ∈ nodes → is_Some (ranks !! n)) →
  map_phase ranks nodes outgoing (Z.of_nat (length nodes)) = Some c →
  rank_sum nodes (reduce_phase c nodes (Z.of_nat (length nodes)) damping)
  = (1 - damping) + damping * rank_sum nodes ranks.
Proof.
  intros Hnd Hne Hclosed Hdom Hc.
  destruct (map_phase_spec ranks nodes outgoing (Z.of_nat (length nodes)) Hdom)
    as (c' & Hc' & Hget).
  rewrite Hc in Hc'. injection Hc' as <-.
  unfold rank_sum. rewrite !py_sum_fmap.
  set (N := Qc_of_Z (Z.of_nat (length nodes))).
  rewrite (sumf_ext _ (λ n, (1 - damping) / N + damping * getd c n)).
  2:{ intros n Hn. rewrite reduce_phase_lookup, decide_True by done. done. }
  rewrite sumf_plus, sumf_const, sumf_scale. fold N.
  rewrite Qc_mul_div_cancel.
  2:{ intros H0. apply Hne, length_zero_iff_nil, (inj Z.of_nat).
      apply Z2Qc_inj. unfold N in H0. rewrite H0. symmetry. exact Z2Qc_inj_0. }
  do 2 f_equal.
  rewrite (sumf_ext _ _ nodes (λ n _, Hget n)), sumf_swap.
  apply sumf_ext. intros node Hnode.
  apply (flow_total ranks nodes outgoing node); eauto.
Qed.

(** The loop of [pagerank_mapreduce] never raises, and keeps every property
    of the rank vector that one map/reduce round keeps. *)
Lemma iterate_invariant (P : gmap Z Qc → Prop) k nodes outgoing N damping ranks :
  (∀ r c, (∀ n, n ∈ nodes → is_Some (r !! n)) → P r →
          map_phase r nodes outgoing N = Some c →
          P (reduce_phase c nodes N damping)) →
  (∀ n, n ∈ nodes → is_Some (ranks !! n)) → P ranks →
  ∃ r, iterate k nodes outgoing N damping ranks = Some r
       ∧ (∀ n, n ∈ nodes → is_Some (r !! n)) ∧ P r.
Proof.
  intros Hstep. revert ranks.
  induction k as [|k IH]; intros ranks Hdom HP; simpl.
  - by exists ranks.
  - destruct (map_phase_spec ranks nodes outgoing N Hdom) as (c & Hc & _).
    rewrite Hc. simpl. apply IH.
    + intros n Hn. rewrite reduce_phase_lookup, decide_True by done. eauto.
    + by apply (Hstep ranks c).
Qed.

Lemma initial_rank_sum nodes :
  nodes ≠ [] → rank_sum nodes (initial_ranks nodes (Z.of_nat (length nodes))) = 1.
Proof.
  intros Hne. unfold rank_sum. rewrite py_sum_fmap.
  rewrite (sumf_ext _ (λ _, 1 / Qc_of_Z (Z.of_nat (length nodes)))).
  2:{ intros n Hn. by rewrite initial_ranks_lookup, decide_True. }
  rewrite sumf_const. apply Qc_mul_div_cancel.
  intros H0. apply Hne, length_zero_iff_nil, (inj Z.of_nat).
  apply Z2Qc_inj. rewrite H0. symmetry. exact Z2Qc_inj_0.
Qed.

End MapReduceFacts.

(** * Facts about the Pregel supersteps *)

Module PregelFacts.
Import MapReduce Pregel RankSpec MapReduceFacts.
Local Open Scope Qc_scope.

Lemma od_set_fresh {V} (k : Z) (v : V) (d : OD.odict Z V) :
  k ∉ d.*1 → OD.set k v d = d ++ [(k, v)].
Proof.
  induction d as [|[k' v'] d IH]; csimpl; intros Hk; [done|].
  apply not_elem_of_cons in Hk as [Hne Hk].
  rewrite decide_False by done. by rewrite IH.
Qed.

(** A dict comprehension over duplicate-free keys lists them in order. *)
Lemma od_comprehension {V} (f : Z → V) (l : list Z) (d : OD.odict Z V) :
  NoDup l → (∀ k, k ∈ l → k ∉ d.*1) →
  foldl (λ vs k, OD.set k (f k) vs) d l = d ++ ((λ k, (k, f k)) <$> l).
Proof.
  intros Hnd. revert d.
  induction Hnd as [|k l Hk Hnd IH]; intros d Hfresh; csimpl.
  - by rewrite app_nil_r.
  - rewrite od_set_fresh by (apply Hfresh; by left).
    rewrite IH, <- app_assoc; [done|].
    intros k' Hk'. rewrite fmap_app. csimpl.
    intros [?|Hin]%elem_of_app.
    + apply (Hfresh k'); [by right|done].
    + apply list_elem_of_singleton in Hin. congruence.
Qed.


Lemma py_sum_snoc l x : py_sum (l ++ [x]) = py_sum l + x.
Proof. unfold py_sum. by rewrite foldl_app. Qed.

Lemma foldl_deliver (m : gmap Z (list Qc)) (msgs : list (Z * Qc)) n :
  py_sum (default [] (foldl deliver m msgs !! n))
  = py_sum (default [] (m !! n))
    + sumf (λ p : Z * Qc, if decide (p.1 = n) then p.2 else 0) msgs.
Proof.
  revert m. induction msgs as [|[dst s] msgs IH]; intros m; simpl; [ring|].
  rewrite IH. unfold deliver. simpl. rewrite lookup_insert.
  destruct (decide (dst = n)) as [->|Hne]; simpl.
  - rewrite py_sum_snoc. ring.
  - ring.
Qed.

Lemma foldl_send (m : gmap Z (list Qc)) (vs : list Vertex) n :
  py_sum (default [] (foldl (λ msgs v, foldl deliver msgs (send_messages v))
                            m vs !! n))
  = py_sum (default [] (m !! n))
    + sumf (λ v, sumf (λ p : Z * Qc, if decide (p.1 = n) then p.2 else 0)
                      (send_messages v)) vs.
Proof.
  revert m. induction vs as [|v vs IH]; intros m; simpl; [ring|].
  rewrite IH, foldl_deliver. ring.
Qed.

Lemma sumf_filter {A} (P : A → Prop) `{∀ x, Decision (P x)} (f : A → Qc) l :
  sumf f (filter P l) = sumf (λ x, if decide (P x) then f x else 0) l.
Proof.
  induction l as [|x l IH]; [done|]. rewrite filter_cons. simpl.
  destruct (decide (P x)); simpl; rewrite IH; ring.
Qed.

(** What a vertex sends to [n], plus its part of the dangling mass, is what
    the map phase lets it scatter to [n]. *)
Lemma flow_split ranks nodes outgoing N node n :
  NoDup nodes → n ∈ nodes →
  flow ranks nodes outgoing N node n
  = sumf (λ p : Z * Qc, if decide (p.1 = n) then p.2 else 0)
         (send_messages (mkVertex node (default [] (outgoing !! node))
                                  (getd ranks node)))
    + (if decide (default [] (outgoing !! node) = [])
       then getd ranks node else 0) / Qc_of_Z N.
Proof.
  intros Hnd Hn. unfold flow, scatter, send_messages. simpl.
  destruct (default [] (outgoing !! node)) as [|nb nbs]; simpl fst; simpl snd.
  - rewrite decide_True by done. rewrite sumf_indicator by done. simpl. ring.
  - rewrite decide_False by done. rewrite sumf_fmap. unfold compose. simpl.
    unfold Qcdiv. ring.
Qed.

(** One superstep on the vertex objects is one map/reduce round on the rank
    vector. *)
Lemma superstep_verts nodes outgoing N damping ranks c :
  NoDup nodes →
  (∀ n, n ∈ nodes → is_Some (ranks !! n)) →
  map_phase ranks nodes outgoing N = Some c →
  superstep N damping (verts nodes outgoing ranks)
  = verts nodes outgoing (reduce_phase c nodes N damping).
Proof.
  intros Hnd Hdom Hc.
  destruct (map_phase_spec ranks nodes outgoing N Hdom) as (c' & Hc' & Hget).
  rewrite Hc in Hc'. injection Hc' as <-.
  unfold superstep, verts. rewrite <- list_fmap_compose.
  apply list_fmap_ext. intros i n Hi%list_elem_of_lookup_2.
  unfold compose. simpl. f_equal.
  unfold calculate. simpl. f_equal.
  rewrite reduce_phase_lookup, decide_True by done. simpl.
  rewrite Hget, foldl_send, lookup_empty. simpl.
  unfold OD.values. rewrite <- !list_fmap_compose, !sumf_fmap.
  rewrite py_sum_fmap, sumf_filter, sumf_fmap.
  rewrite (sumf_ext _ _ nodes
             (λ node _, flow_split ranks nodes outgoing N node n Hnd Hi)).
  rewrite sumf_plus. unfold compose. simpl.
  change (py_sum []) with 0.
  set (a := sumf _ nodes). set (b := sumf _ nodes). set (b' := sumf _ nodes).
  assert (b' = b / Qc_of_Z N) as ->.
  { unfold b', b, Qcdiv. rewrite Qcmult_comm, <- sumf_scale.
    apply sumf_ext. intros node _. ring. }
  unfold Qcdiv. ring.
Qed.

Lemma rank_dict_verts nodes outgoing ranks :
  (∀ n, is_Some (ranks !! n) ↔ n ∈ nodes) →
  rank_dict (verts nodes outgoing ranks) = ranks.
Proof.
  intros Hdom. apply map_eq. intros n.
  unfold rank_dict, verts, OD.values.
  rewrite <- list_fmap_compose, foldl_fmap. simpl.
  rewrite (foldl_insert_lookup (λ n, getd ranks n)), lookup_empty.
  case_decide as Hn.
  - apply Hdom in Hn as [r Hr]. by rewrite Hr.
  - symmetry. apply eq_None_not_Some. by rewrite Hdom.
Qed.

Lemma is_Some_if_elem {V} (n : Z) (l : list Z) (v : V) :
  is_Some (if decide (n ∈ l) then Some v else None) ↔ n ∈ l.
Proof.
  case_decide; split; [done|eauto|by intros ?%is_Some_None|done].
Qed.

(** The two loops compute the same rank vector from the same start. *)
Lemma iterate_superstep k nodes outgoing N damping ranks :
  NoDup nodes →
  (∀ n, is_Some (ranks !! n) ↔ n ∈ nodes) →
  iterate k nodes outgoing N damping ranks
  = Some (rank_dict (Nat.iter k (superstep N damping)
                              (verts nodes outgoing ranks))).
Proof.
  intros Hnd. revert ranks.
  induction k as [|k IH]; intros ranks Hdom.
  - simpl. by rewrite rank_dict_verts.
  - rewrite Nat.iter_succ_r. simpl.
    destruct (map_phase_spec ranks nodes outgoing N) as (c & Hc & _).
    { intros n Hn. by apply Hdom. }
    rewrite Hc. simpl.
    rewrite (superstep_verts nodes outgoing N damping ranks c); auto.
    + apply IH. intros n. rewrite reduce_phase_lookup. apply is_Some_if_elem.
    + intros n Hn. by apply Hdom.
Qed.

(** [pagerank_pregel] returns what [pagerank_mapreduce] returns, for
    document ids without repetition. *)
Lemma pregel_eq_mapreduce docs links iterations damping :
  NoDup (doc_id <$> docs) →
  pagerank_mapreduce docs links iterations damping
  = Some (pagerank_pregel docs links iterations damping).
Proof.
  intros Hnd. unfold pagerank_mapreduce, pagerank_pregel.
  destruct (build_graph docs links) as [nodes outgoing] eqn:Hg.
  assert (nodes = doc_id <$> docs) as Hnodes.
  { unfold build_graph in Hg. by injection Hg as <- _. }
  rewrite <- Hnodes in Hnd.
  destruct nodes as [|n0 nodes'] eqn:Hn; [done|]. rewrite <- Hn in *.
  set (N := Z.of_nat (length nodes)).
  rewrite (iterate_superstep _ _ _ _ _ _ Hnd).
  2:{ intros n. rewrite initial_ranks_lookup. apply is_Some_if_elem. }
  rewrite (od_comprehension
             (λ node, new_vertex node (default [] (outgoing !! node)) N));
    [|done|intros ? _ ?%elem_of_nil; done].
  simpl app. do 3 f_equal. unfold verts. apply list_fmap_ext.
  intros i n Hi%list_elem_of_lookup_2. unfold new_vertex. do 2 f_equal.
  by rewrite initial_ranks_lookup, decide_True.
Qed.

End PregelFacts.

(** * Lower bound on the ranks *)

Module RankBounds.
Import MapReduce RankSpec MapReduceFacts.
Local Open Scope Qc_scope.

Lemma Qc_of_length_pos {A} (l : list A) :
  l ≠ [] → 0 < Qc_of_Z (Z.of_nat (length l)).
Proof.
  intros Hl. change 0 with (Q2Qc 0). rewrite <- Z2Qc_inj_0.
  apply (proj1 (Z2Qc_inj_lt 0 _)). destruct l; [done|]. rewrite length_cons. lia.
Qed.

Lemma Qcdiv_nonneg (a b : Qc) : 0 ≤ a → 0 < b → 0 ≤ a / b.
Proof.
  intros Ha Hb. apply Qcmult_nonneg_nonneg; [done|].
  by apply Qclt_le_weak, Qcinv_pos.
Qed.

Lemma Qcdiv_pos (a b : Qc) : 0 < a → 0 < b → 0 < a / b.
Proof. intros Ha Hb. apply Qcmult_pos_pos; [done|]. by apply Qcinv_pos. Qed.

Lemma flow_nonneg ranks nodes outgoing node n :
  nodes ≠ [] → 0 ≤ getd ranks node →
  0 ≤ flow ranks nodes outgoing (Z.of_nat (length nodes)) node n.
Proof.
  intros Hne Hr. unfold flow, scatter. apply sumf_nonneg. intros nb _.
  case_decide; [|done].
  destruct (default [] (outgoing !! node)) as [|x l]; simpl fst.
  - apply Qcdiv_nonneg; [done|]. exact (Qc_of_length_pos nodes Hne).
  - apply Qcdiv_nonneg; [done|]. by apply (Qc_of_length_pos (x :: l)).
Qed.

(** One round keeps every rank at or above [(1 - damping) / N]. *)
Lemma step_lower_bound ranks nodes outgoing damping c :
  nodes ≠ [] → 0 ≤ damping →
  (∀ n, n ∈ nodes → 0 ≤ getd ranks n) →
  (∀ n, n ∈ nodes → is_Some (ranks !! n)) →
  map_phase ranks nodes outgoing (Z.of_nat (length nodes)) = Some c →
  ∀ n, n ∈ nodes →
    (1 - damping) / Qc_of_Z (Z.of_nat (length nodes))
    ≤ getd (reduce_phase c nodes (Z.of_nat (length nodes)) damping) n.
Proof.
  intros Hne Hd Hpos Hdom Hc n Hn.
  destruct (map_phase_spec ranks nodes outgoing (Z.of_nat (length nodes)) Hdom)
    as (c' & Hc' & Hget).
  rewrite Hc in Hc'. injection Hc' as <-.
  rewrite reduce_phase_lookup, decide_True by done. simpl.
  rewrite <- (Qcplus_0_r (_ / _)) at 1. apply Qcplus_le_mono_l.
  apply Qcmult_nonneg_nonneg; [done|]. rewrite Hget.
  apply sumf_nonneg. intros node Hnode. apply flow_nonneg; auto.
Qed.

Lemma base_positive (nodes : list Z) damping :
  nodes ≠ [] → damping < 1 →
  0 < (1 - damping) / Qc_of_Z (Z.of_nat (length nodes)).
Proof.
  intros Hne Hd. apply Qcdiv_pos; [|exact (Qc_of_length_pos nodes Hne)].
  by apply Qclt_minus_iff in Hd.
Qed.

Lemma initial_lower_bound (nodes : list Z) damping n :
  nodes ≠ [] → 0 ≤ damping → n ∈ nodes →
  (1 - damping) / Qc_of_Z (Z.of_nat (length nodes))
  ≤ getd (initial_ranks nodes (Z.of_nat (length nodes))) n.
Proof.
  intros Hne Hd Hn. rewrite initial_ranks_lookup, decide_True by done. simpl.
  unfold Qcdiv. apply Qcmult_le_mono_nonneg_r.
  - apply Qclt_le_weak, Qcinv_pos. exact (Qc_of_length_pos nodes Hne).
  - rewrite <- (Qcplus_0_r 1) at 2. unfold Qcminus. apply Qcplus_le_mono_l.
    apply Qcopp_le_compat in Hd. exact Hd.
Qed.

(** After any number of rounds every rank is at least
    [(1 - damping) / N], for [0 ≤ damping < 1]. *)
Lemma iterate_lower_bound k nodes outgoing damping :
  nodes ≠ [] → 0 ≤ damping → damping < 1 →
  ∃ r, iterate k nodes outgoing (Z.of_nat (length nodes)) damping
               (initial_ranks nodes (Z.of_nat (length nodes))) = Some r
       ∧ ∀ n, n ∈ nodes →
           ∃ x, r !! n = Some x
                ∧ (1 - damping) / Qc_of_Z (Z.of_nat (length nodes)) ≤ x
                ∧ 0 < x.
Proof.
  intros Hne Hd0 Hd1.
  pose proof (base_positive nodes damping Hne Hd1) as Hbase.
  destruct (iterate_invariant
    (λ r, ∀ n, n ∈ nodes →
            (1 - damping) / Qc_of_Z (Z.of_nat (length nodes)) ≤ getd r n)
    k nodes outgoing (Z.of_nat (length nodes)) damping
    (initial_ranks nodes (Z.of_nat (length nodes)))) as (r & Hr & Hdom & Hlow).
  - intros r c Hdom HP Hc. apply (step_lower_bound r nodes outgoing); auto.
    intros n Hn. apply Qclt_le_weak. eapply Qclt_le_trans; [exact Hbase|auto].
  - intros n Hn. rewrite initial_ranks_lookup, decide_True by done. eauto.
  - intros n Hn. by apply initial_lower_bound.
  - exists r. split; [done|]. intros n Hn.
    destruct (Hdom n Hn) as [x Hx]. exists x. split; [done|].
    specialize (Hlow n Hn). rewrite Hx in Hlow. simpl in Hlow.
    split; [done|]. by eapply Qclt_le_trans.
Qed.

End RankBounds.

(** * Facts about the stable sort *)

Section stable_sort_facts.
Context {A : Type} (le : A → A → bool).

Lemma insert_by_perm x l : insert_by le x l ≡ₚ x :: l.
Proof.
  induction l as [|y l IH]; simpl; [done|].
  destruct (le x y); [done|]. rewrite IH. apply Permutation_swap.
Qed.

Lemma stable_sort_perm l : stable_sort le l ≡ₚ l.
Proof.
  induction l as [|x l IH]; simpl; [done|].
  rewrite insert_by_perm. by rewrite IH.
Qed.

Context (le_total : ∀ x y, le x y = false → le y x = true).

Lemma insert_by_sorted x l :
  Sorted (λ a b, le a b = true) l →
  Sorted (λ a b, le a b = true) (insert_by le x l).
Proof.
  induction 1 as [|y l Hs IH Hhd]; simpl.
  - repeat constructor.
  - destruct (le x y) eqn:Hxy.
    + constructor; [by constructor|]. by constructor.
    + constructor; [done|].
      destruct Hhd as [|z l Hyz]; simpl.
      * constructor. by apply le_total.
      * destruct (le x z); constructor; [by apply le_total|done].
Qed.

Lemma stable_sort_sorted l :
  Sorted (λ a b, le a b = true) (stable_sort le l).
Proof.
  induction l as [|x l IH]; simpl; [constructor|].
  by apply insert_by_sorted.
Qed.

(** Elements of one class of the order keep their input order. *)
Lemma insert_by_filter (P : A → Prop) `{∀ x, Decision (P x)} x l :
  (∀ y, P x → P y → le x y = true) →
  filter P (insert_by le x l) = filter P (x :: l).
Proof.
  intros Hcls. induction l as [|y l IH]; simpl; [done|].
  destruct (le x y) eqn:Hxy; [done|].
  rewrite filter_cons, IH, !filter_cons.
  destruct (decide (P x)) as [Hx|Hx]; [|done].
  destruct (decide (P y)) as [Hy|Hy]; [|done].
  rewrite Hcls in Hxy by done. done.
Qed.

Lemma stable_sort_stable (P : A → Prop) `{∀ x, Decision (P x)} l :
  (∀ x y, P x → P y → le x y = true) →
  filter P (stable_sort le l) = filter P l.
Proof.
  intros Hcls. induction l as [|x l IH]; simpl; [done|].
  rewrite insert_by_filter by auto. rewrite !filter_cons, IH. done.
Qed.
End stable_sort_facts.

(** * Facts about insertion-ordered dictionaries *)

Section odict_facts.
Context {K V : Type} `{EqDecision K}.
Implicit Types (d : OD.odict K V).

Lemma od_get_set k k' v d :
  OD.get k' (OD.set k v d) = if decide (k = k') then Some v else OD.get k' d.
Proof.
  induction d as [|[k0 v0] d IH]; simpl.
  - done.
  - destruct (decide (k0 = k)) as [->|Hne]; simpl.
    + by destruct (decide (k = k')).
    + rewrite IH. destruct (decide (k0 = k')) as [->|]; [|done].
      by rewrite decide_False.
Qed.

Lemma od_get_Some_elem k v d : OD.get k d = Some v → (k, v) ∈ d.
Proof.
  induction d as [|[k0 v0] d IH]; simpl; [done|].
  destruct (decide (k0 = k)) as [->|Hne].
  - intros [= ->]. by left.
  - intros Hg. right. auto.
Qed.

Lemma od_get_None k d : OD.get k d = None ↔ k ∉ d.*1.
Proof.
  induction d as [|[k0 v0] d IH]; csimpl.
  - split; [intros _; apply not_elem_of_nil|done].
  - rewrite not_elem_of_cons. destruct (decide (k0 = k)) as [->|Hne].
    + split; [done|]. by intros [? _].
    + rewrite IH. intuition congruence.
Qed.

Lemma od_get_is_Some k d : is_Some (OD.get k d) ↔ k ∈ d.*1.
Proof.
  rewrite <- not_eq_None_Some, od_get_None.
  split; [apply dec_stable|auto].
Qed.

Lemma od_elem_get k v d : NoDup d.*1 → (k, v) ∈ d → OD.get k d = Some v.
Proof.
  induction d as [|[k0 v0] d IH]; csimpl; intros Hnd Hin.
  - by apply elem_of_nil in Hin.
  - apply NoDup_cons in Hnd as [Hk0 Hnd].
    apply elem_of_cons in Hin as [[= -> ->]|Hin].
    + by rewrite decide_True.
    + rewrite decide_False; [auto|].
      intros ->. apply Hk0. apply list_elem_of_fmap. by exists (k, v).
Qed.

Lemma od_set_keys k v d :
  (OD.set k v d).*1 = if decide (k ∈ d.*1) then d.*1 else d.*1 ++ [k].
Proof.
  induction d as [|[k0 v0] d IH]; csimpl; [done|].
  destruct (decide (k0 = k)) as [->|Hne]; csimpl.
  - rewrite decide_True; [done|by left].
  - rewrite IH. destruct (decide (k ∈ d.*1)).
    + rewrite decide_True; [done|by right].
    + rewrite decide_False; [done|].
      intros [?|?]%elem_of_cons; congruence.
Qed.

Lemma od_set_NoDup k v d : NoDup d.*1 → NoDup (OD.set k v d).*1.
Proof.
  intros Hnd. rewrite od_set_keys. case_decide; [done|].
  apply NoDup_app. split_and!; [done| |apply NoDup_singleton].
  intros x Hx ->%list_elem_of_singleton. done.
Qed.

Lemma od_set_elem_keys k k' v d :
  k' ∈ (OD.set k v d).*1 ↔ k' = k ∨ k' ∈ d.*1.
Proof.
  rewrite od_set_keys. case_decide.
  - intuition congruence.
  - rewrite elem_of_app, list_elem_of_singleton. tauto.
Qed.
End odict_facts.

(** * Facts about the merge loop of [search_by_documents] *)

Module MergeFacts.
Import Storage Search MergeSpec.
Local Open Scope Qc_scope.

Lemma foldl_max_spec c cs :
  foldl Z.max c cs ∈ c :: cs ∧ ∀ x, x ∈ c :: cs → (x ≤ foldl Z.max c cs)%Z.
Proof.
  revert c. induction cs as [|y cs IH]; intros c; simpl.
  - split; [by left|]. intros x ->%list_elem_of_singleton. lia.
  - destruct (IH (Z.max c y)) as [Hin Hle]. split.
    + apply elem_of_cons in Hin as [->|Hin]; [|by do 2 right].
      destruct (Z.max_spec c y) as [[_ ->]|[_ ->]]; [right|]; by left.
    + pose proof (Hle (Z.max c y) ltac:(by left)).
      intros x [->|[->|Hx]%elem_of_cons]%elem_of_cons; [lia|lia|].
      apply Hle. by right.
Qed.

Lemma foldl_min_spec c cs :
  foldl Z.min c cs ∈ c :: cs ∧ ∀ x, x ∈ c :: cs → (foldl Z.min c cs ≤ x)%Z.
Proof.
  revert c. induction cs as [|y cs IH]; intros c; simpl.
  - split; [by left|]. intros x ->%list_elem_of_singleton. lia.
  - destruct (IH (Z.min c y)) as [Hin Hle]. split.
    + apply elem_of_cons in Hin as [->|Hin]; [|by do 2 right].
      destruct (Z.min_spec c y) as [[_ ->]|[_ ->]]; [|right]; by left.
    + pose proof (Hle (Z.min c y) ltac:(by left)).
      intros x [->|[->|Hx]%elem_of_cons]%elem_of_cons; [lia|lia|].
      apply Hle. by right.
Qed.

Lemma foldl_score (a : Qc) (hs : list (Z * Z)) :
  foldl (λ s tf, s + Qc_of_Z tf) a (hs.*2) = a + sumf (λ h, Qc_of_Z h.2) hs.
Proof.
  revert a. induction hs as [|h hs IH]; intros a; csimpl; [ring|].
  rewrite IH. ring.
Qed.

(** ** Cursors *)

Lemma zip_fmap_S {A} (pls : list A) (indices : list nat) :
  zip pls (S <$> indices) = (λ pi, (pi.1, S pi.2)) <$> zip pls indices.
Proof.
  revert indices. induction pls as [|pl pls IH]; intros [|i indices]; csimpl;
    try done. by rewrite IH.
Qed.

Lemma zip_advance m (pls : list (list (Z * Z))) (indices : list nat) :
  zip pls (zip_with (advance m) pls indices)
  = (λ pi, (pi.1, advance m pi.1 pi.2)) <$> zip pls indices.
Proof.
  revert indices. induction pls as [|pl pls IH]; intros [|i indices]; csimpl;
    try done. by rewrite IH.
Qed.

Lemma skip_from_spec rest i m :
  ∃ k, skip_from rest i m = (i + k)%nat
       ∧ Forall (λ p : Z * Z, (p.1 < m)%Z) (take k rest)
       ∧ (∀ h, head rest = Some h → (h.1 < m)%Z → (1 ≤ k)%nat).
Proof.
  revert i. induction rest as [|p rest IH]; intros i; simpl.
  - exists O. split; [lia|]. split; [constructor|]. by intros h [=].
  - case_bool_decide as Hp.
    + destruct (IH (S i)) as (k & -> & Hall & _). exists (S k).
      split; [lia|]. split; [by constructor|]. intros; lia.
    + exists O. split; [lia|]. split; [constructor|]. by intros h [= <-] ?.
Qed.

Lemma advance_ge m pl i : (i ≤ advance m pl i)%nat.
Proof.
  unfold advance. destruct (skip_from_spec (drop i pl) i m) as (k & -> & _).
  lia.
Qed.

Lemma advance_gt m pl i h :
  pl !! i = Some h → (h.1 < m)%Z → (S i ≤ advance m pl i)%nat.
Proof.
  intros Hh Hlt. unfold advance.
  destruct (skip_from_spec (drop i pl) i m) as (k & -> & _ & Hk).
  specialize (Hk h). rewrite head_lookup, lookup_drop, Nat.add_0_r in Hk.
  specialize (Hk Hh Hlt). lia.
Qed.

Lemma advance_keeps m pl i d :
  d ∈ (drop i pl).*1 → ¬ (d < m)%Z → d ∈ (drop (advance m pl i) pl).*1.
Proof.
  intros Hd Hnlt. unfold advance.
  destruct (skip_from_spec (drop i pl) i m) as (k & -> & Hall & _).
  rewrite <- drop_drop. rewrite <- (take_drop k (drop i pl)), fmap_app in Hd.
  apply elem_of_app in Hd as [Hd|Hd]; [|done].
  apply list_elem_of_fmap in Hd as (p & -> & Hp).
  rewrite Forall_forall in Hall. by apply Hall in Hp.
Qed.

(** ** The three ways through the loop body *)


Lemma merge_step_cases pls indices results :
  pls ≠ [] → length indices = length pls →
  step_case pls indices results (merge_step pls indices results).
Proof.
  intros Hne Hlen. unfold merge_step.
  destruct (heads pls indices) as [hs|] eqn:Hh; unfold heads in Hh.
  - apply mapM_Some in Hh.
    destruct (hs.*1) as [|c cs] eqn:Hcs.
    { apply fmap_nil_inv in Hcs as ->. apply Forall2_nil_inv_r in Hh.
      destruct pls, indices; simplify_eq/=. }
    destruct (foldl_max_spec c cs) as [Hmax_in Hmax].
    destruct (foldl_min_spec c cs) as [Hmin_in Hmin].
    case_decide as Heq.
    + rewrite foldl_score, Qcplus_0_l. apply case_match; [done|].
      apply Forall_forall. intros h Hin.
      assert (h.1 ∈ c :: cs) as Hh1.
      { rewrite <- Hcs. by apply list_elem_of_fmap_2. }
      apply Z.le_antisymm; [by apply Hmax|]. rewrite Heq. by apply Hmin.
    + apply (case_advance _ _ _ hs); [done|by rewrite Hcs|].
      pose proof (Hmax _ Hmin_in) as Hle.
      rewrite <- Hcs in Hmin_in.
      apply list_elem_of_fmap in Hmin_in as (h & Hh1 & Hin).
      apply Exists_exists. exists h. split; [done|]. rewrite <- Hh1. lia.
  - apply mapM_None_1 in Hh. apply Exists_exists in Hh as ([pl i] & Hin & Hl).
    apply (case_return _ _ _ pl i); [done|]. by apply lookup_ge_None.
Qed.

(** ** Termination *)


Lemma sum_list_lt {A} (f g : A → nat) (l : list A) :
  Forall (λ x, f x ≤ g x)%nat l → Exists (λ x, f x < g x)%nat l →
  (sum_list (f <$> l) < sum_list (g <$> l))%nat.
Proof.
  assert (Hle : ∀ l', Forall (λ x, f x ≤ g x)%nat l' →
                      (sum_list (f <$> l') ≤ sum_list (g <$> l'))%nat).
  { induction 1; csimpl; lia. }
  induction 1 as [|x l Hx Hall IH]; intros Hex; [by apply Exists_nil in Hex|].
  csimpl. apply Exists_cons in Hex as [Hlt|Hex].
  - apply Hle in Hall. lia.
  - apply IH in Hex. lia.
Qed.

Lemma Forall2_Exists_r {A B} (P : A → B → Prop) (Q : B → Prop) l k :
  Forall2 P l k → Exists Q k → Exists (λ x, ∃ y, P x y ∧ Q y) l.
Proof.
  induction 1 as [|x y l k Hxy _ IH]; intros Hex; [by apply Exists_nil in Hex|].
  apply Exists_cons in Hex as [HQ|Hex]; [left; eauto|right; auto].
Qed.

Lemma remaining_match pls indices hs :
  pls ≠ [] → length indices = length pls →
  Forall2 (λ pi h, pi.1 !! pi.2 = Some h) (zip pls indices) hs →
  (remaining pls (S <$> indices) < remaining pls indices)%nat.
Proof.
  intros Hne Hlen Hhs. unfold remaining.
  rewrite zip_fmap_S, <- list_fmap_compose.
  assert (Hlt : Forall (λ pi : list (Z * Z) * nat, pi.2 < length pi.1)%nat
                       (zip pls indices)).
  { eapply Forall2_Forall_l; [exact Hhs|]. apply Forall_true.
    intros pi h Hl. by apply lookup_lt_Some in Hl. }
  apply sum_list_lt.
  - eapply Forall_impl; [exact Hlt|]. intros pi ?. simpl. lia.
  - destruct pls as [|pl pls], indices as [|i indices]; simplify_eq/=.
    apply Forall_cons in Hlt as [Hi _]. left. simpl in *. lia.
Qed.

Lemma remaining_advance pls indices hs m :
  Forall2 (λ pi h, pi.1 !! pi.2 = Some h) (zip pls indices) hs →
  Exists (λ h, (h.1 < m)%Z) hs →
  (remaining pls (zip_with (advance m) pls indices) < remaining pls indices)%nat.
Proof.
  intros Hhs Hex. unfold remaining.
  rewrite zip_advance, <- list_fmap_compose.
  apply sum_list_lt.
  - apply Forall_forall. intros [pl i] _. simpl.
    pose proof (advance_ge m pl i). lia.
  - eapply Exists_impl; [exact (Forall2_Exists_r _ _ _ _ Hhs Hex)|].
    intros [pl i] (h & Hl & Hlt). simpl in *.
    pose proof (advance_gt m pl i h Hl Hlt).
    apply lookup_lt_Some in Hl. lia.
Qed.

(** With more fuel than postings remain, the loop returns, and every
    property of cursors and results that one pass keeps holds on return. *)
Lemma merge_loop_invariant (Inv : list nat → OD.odict Z Qc → Prop) pls :
  pls ≠ [] →
  (∀ indices results indices' results',
     length indices = length pls → Inv indices results →
     merge_step pls indices results = Continue indices' results' →
     Inv indices' results') →
  ∀ fuel indices results,
    length indices = length pls → Inv indices results →
    (remaining pls indices < fuel)%nat →
    ∃ indices' results',
      merge_loop fuel pls indices results = Some results'
      ∧ length indices' = length pls ∧ Inv indices' results'
      ∧ merge_step pls indices' results' = Return.
Proof.
  intros Hne Hstep.
  induction fuel as [|fuel IH]; intros indices results Hlen HInv Hfuel; [lia|].
  simpl. pose proof (merge_step_cases pls indices results Hne Hlen) as Hcase.
  destruct (merge_step pls indices results) as [|indices' results'|] eqn:Hs.
  - by exists indices, results.
  - assert (length indices' = length pls
            ∧ (remaining pls indices' < remaining pls indices)%nat) as [Hl Hr].
    { inversion Hcase; subst.
      - split; [by rewrite length_fmap|]. eapply remaining_match; eassumption.
      - split.
        + rewrite length_zip_with. lia.
        + eapply remaining_advance; eassumption. }
    apply IH; [done| |lia]. exact (Hstep _ _ _ _ Hlen HInv Hs).
  - inversion Hcase.
Qed.

End MergeFacts.

(** * Facts about the two retrieval strategies *)

Module SearchFacts.
Import Storage Search MergeSpec MergeFacts.
Local Open Scope Qc_scope.


Lemma Sorted_weaken {A} (R R' : relation A) l :
  (∀ x y, R x y → R' x y) → Sorted R l → Sorted R' l.
Proof.
  intros HR. induction 1 as [|x l _ IH Hhd]; constructor; [done|].
  destruct Hhd; constructor; auto.
Qed.

Global Instance doc_le_trans : Transitive (λ a b : Z * Z, (a.1 ≤ b.1)%Z).
Proof. intros a b c. simpl. lia. Qed.

(** [ORDER BY doc_id] *)
Lemma get_term_postings_sorted db term :
  StronglySorted (λ a b : Z * Z, (a.1 ≤ b.1)%Z) (get_term_postings db term).
Proof.
  unfold get_term_postings. destruct (find_term_id db term); [|constructor].
  apply Sorted_StronglySorted; [apply _|].
  eapply Sorted_weaken; [|apply stable_sort_sorted].
  - intros x y Hle. by apply bool_decide_eq_true in Hle.
  - intros x y Hle. apply bool_decide_eq_false in Hle.
    apply bool_decide_eq_true. lia.
Qed.

Lemma sorted_suffix_ge (pl : list (Z * Z)) i h d :
  StronglySorted (λ a b : Z * Z, (a.1 ≤ b.1)%Z) pl →
  pl !! i = Some h → d ∈ (drop i pl).*1 → (h.1 ≤ d)%Z.
Proof.
  intros Hs Hh Hd. rewrite <- (take_drop i pl) in Hs.
  apply StronglySorted_app_1_r in Hs.
  rewrite (drop_S _ _ _ Hh) in Hs, Hd.
  apply StronglySorted_cons in Hs as [Hall _].
  csimpl in Hd. apply elem_of_cons in Hd as [->|Hd]; [lia|].
  apply list_elem_of_fmap in Hd as (p & -> & Hp).
  rewrite Forall_forall in Hall. by apply Hall.
Qed.

Lemma lookup_tf_of (pl : list (Z * Z)) i h :
  NoDup pl.*1 → pl !! i = Some h → tf_of pl h.1 = h.2.
Proof.
  intros Hnd Hh. unfold tf_of. destruct h as [d tf].
  rewrite (od_elem_get d tf pl Hnd); [done|].
  by apply list_elem_of_lookup_2 in Hh.
Qed.

Lemma sumf_Forall2 {A B} (f : A → Qc) (g : B → Qc) l k :
  Forall2 (λ x y, f x = g y) l k → sumf f l = sumf g k.
Proof. induction 1 as [|x y l k Hxy _ IH]; simpl; [done|]. by rewrite Hxy, IH. Qed.

Lemma elem_of_zip_same_length {A B} (l : list A) (k : list B) x :
  length k = length l → x ∈ l → ∃ y, (x, y) ∈ zip l k.
Proof.
  intros Hlen [i Hi]%list_elem_of_lookup_1.
  destruct (lookup_lt_is_Some_2 k i) as [y Hy].
  { rewrite Hlen. by eapply lookup_lt_Some. }
  exists y. apply list_elem_of_lookup_2 with i.
  rewrite lookup_zip_with, Hi. simpl. by rewrite Hy.
Qed.

Section invariants.
Context (pls : list (list (Z * Z))).

Lemma match_common indices hs m :
  length indices = length pls →
  Forall2 (λ pi h, pi.1 !! pi.2 = Some h) (zip pls indices) hs →
  Forall (λ h : Z * Z, h.1 = m) hs →
  common pls m.
Proof.
  intros Hlen Hhs Hm pl Hpl.
  destruct (elem_of_zip_same_length pls indices pl Hlen Hpl) as [i Hin].
  apply list_elem_of_lookup_1 in Hin as [j Hj].
  destruct (Forall2_lookup_l _ _ _ _ _ Hhs Hj) as (h & Hh & Hl). simpl in Hl.
  rewrite Forall_forall in Hm.
  rewrite <- (Hm h) by (by eapply list_elem_of_lookup_2).
  apply list_elem_of_fmap_2. by eapply list_elem_of_lookup_2.
Qed.

Lemma sound_step indices results indices' results' :
  pls ≠ [] → length indices = length pls → results_sound pls indices results →
  merge_step pls indices results = Continue indices' results' →
  results_sound pls indices' results'.
Proof.
  intros Hne Hlen Hinv Hs.
  pose proof (merge_step_cases pls indices results Hne Hlen) as Hcase.
  rewrite Hs in Hcase. inversion Hcase as [|hs m Hhs Hm|hs m Hhs Hm Hex]; subst.
  - intros d [->|Hd]%od_set_elem_keys; [|by apply Hinv].
    by eapply match_common.
  - done.
Qed.

Lemma keys_step indices results indices' results' :
  pls ≠ [] → length indices = length pls → NoDup results.*1 →
  merge_step pls indices results = Continue indices' results' →
  NoDup results'.*1.
Proof.
  intros Hne Hlen Hnd Hs.
  pose proof (merge_step_cases pls indices results Hne Hlen) as Hcase.
  rewrite Hs in Hcase. inversion Hcase; subst; [|done].
  by apply od_set_NoDup.
Qed.

(** The merge loses no common document; this rests on the order of the
    posting lists. *)
Lemma complete_step indices results indices' results' :
  pls ≠ [] →
  Forall (StronglySorted (λ a b : Z * Z, (a.1 ≤ b.1)%Z)) pls →
  length indices = length pls → results_complete pls indices results →
  merge_step pls indices results = Continue indices' results' →
  results_complete pls indices' results'.
Proof.
  intros Hne Hpls Hlen Hpassed Hs.
  pose proof (merge_step_cases pls indices results Hne Hlen) as Hcase.
  rewrite Hs in Hcase.
  assert (Hzip : ∀ pi, pi ∈ zip pls indices →
            StronglySorted (λ a b : Z * Z, (a.1 ≤ b.1)%Z) pi.1).
  { intros [pl i] Hin%elem_of_zip_l. rewrite Forall_forall in Hpls. auto. }
  inversion Hcase as [|hs m Hhs Hm|hs m Hhs Hm Hex]; subst.
  - intros d Hd. destruct (decide (d = m)) as [->|Hdm].
    { left. apply od_set_elem_keys. by left. }
    destruct (Hpassed d Hd) as [Hin|Hall].
    { left. apply od_set_elem_keys. by right. }
    right. rewrite zip_fmap_S, Forall_fmap.
    apply Forall_forall. intros [pl i] Hin. simpl.
    rewrite Forall_forall in Hall. specialize (Hall _ Hin). simpl in Hall.
    apply list_elem_of_lookup_1 in Hin as [j Hj].
    destruct (Forall2_lookup_l _ _ _ _ _ Hhs Hj) as (h & Hh & Hl).
    simpl in Hl. rewrite (drop_S _ _ _ Hl) in Hall. csimpl in Hall.
    apply elem_of_cons in Hall as [->|?]; [|done].
    rewrite Forall_forall in Hm. destruct Hdm. apply Hm.
    by eapply list_elem_of_lookup_2.
  - intros d Hd. destruct (Hpassed d Hd) as [Hin|Hall]; [by left|]. right.
    assert (¬ (d < m)%Z) as Hge.
    { apply list_elem_of_fmap in Hm as (h & -> & Hh).
      apply list_elem_of_lookup_1 in Hh as [j Hj].
      destruct (Forall2_lookup_r _ _ _ _ _ Hhs Hj) as ([pl i] & Hpi & Hl).
      simpl in Hl. apply Z.le_ngt. apply (sorted_suffix_ge pl i); [|done|].
      - apply (Hzip (pl, i)). by eapply list_elem_of_lookup_2.
      - rewrite Forall_forall in Hall.
        apply (Hall (pl, i)). by eapply list_elem_of_lookup_2. }
    rewrite zip_advance, Forall_fmap. eapply Forall_impl; [exact Hall|].
    intros [pl i] Hin. simpl in *. by apply advance_keeps.
Qed.

(** The score of a match is the sum of the frequencies of the document;
    this rests on each list holding a document once. *)
Lemma scored_step indices results indices' results' :
  pls ≠ [] →
  Forall (λ pl : list (Z * Z), NoDup pl.*1) pls →
  length indices = length pls → results_scored pls indices results →
  merge_step pls indices results = Continue indices' results' →
  results_scored pls indices' results'.
Proof.
  intros Hne Hpls Hlen Hscore Hs.
  pose proof (merge_step_cases pls indices results Hne Hlen) as Hcase.
  rewrite Hs in Hcase.
  assert (Hzip : ∀ pi, pi ∈ zip pls indices → NoDup pi.1.*1).
  { intros [pl i] Hin%elem_of_zip_l. rewrite Forall_forall in Hpls. auto. }
  inversion Hcase as [|hs m Hhs Hm|hs m Hhs Hm Hex]; subst; [|done].
  intros d s. rewrite od_get_set. case_decide as Hmd; [|by apply Hscore].
  intros [= <-]. subst d.
  unfold tf_sum. rewrite <- (fst_zip pls indices) at 1 by lia.
  rewrite sumf_fmap. symmetry. apply sumf_Forall2.
  apply Forall2_same_length_lookup. split; [by eapply Forall2_length|].
  intros j [pl i] h Hj Hh. simpl.
  destruct (Forall2_lookup_l _ _ _ _ _ Hhs Hj) as (h' & Hh' & Hl).
  simpl in Hl. assert (h' = h) as -> by congruence.
  rewrite Forall_forall in Hm.
  rewrite <- (Hm h) by (by eapply list_elem_of_lookup_2).
  f_equal. apply (lookup_tf_of pl i); [|done].
  apply (Hzip (pl, i)). by eapply list_elem_of_lookup_2.
Qed.

End invariants.

(** ** Leaving the loop *)

Lemma remaining_init (pls : list (list (Z * Z))) :
  remaining pls ((λ _, O) <$> pls) = sum_list (length <$> pls).
Proof.
  unfold remaining. induction pls as [|pl pls IH]; csimpl; [done|].
  rewrite IH. lia.
Qed.

Lemma complete_init (pls : list (list (Z * Z))) :
  results_complete pls ((λ _, O) <$> pls) [].
Proof.
  intros d Hd. right. apply Forall_forall. intros [pl i] Hin.
  pose proof (elem_of_zip_l _ _ _ _ Hin) as Hpl.
  apply elem_of_zip_r, list_elem_of_fmap in Hin as (? & -> & _).
  simpl. by apply Hd.
Qed.

(** When a cursor has left its list, the results are all the common
    documents. *)
Lemma complete_return pls indices results d :
  pls ≠ [] → length indices = length pls →
  results_sound pls indices results →
  results_complete pls indices results →
  merge_step pls indices results = Return →
  d ∈ results.*1 ↔ common pls d.
Proof.
  intros Hne Hlen Hsound Hpassed Hs.
  pose proof (merge_step_cases pls indices results Hne Hlen) as Hcase.
  rewrite Hs in Hcase. inversion Hcase as [pl i Hin Hi| |]; subst.
  split; [apply Hsound|].
  intros Hd. destruct (Hpassed d Hd) as [Hk|Hall]; [done|].
  rewrite Forall_forall in Hall. specialize (Hall _ Hin). simpl in Hall.
  rewrite drop_ge in Hall by done. by apply elem_of_nil in Hall.
Qed.

Section strategies.
Context (lower : str → str).

Lemma existsb_false {A} (f : A → bool) l :
  existsb f l = false → Forall (λ x, f x = false) l.
Proof.
  induction l as [|x l IH]; simpl; [constructor|].
  intros [? ?]%orb_false_iff. constructor; auto.
Qed.

Lemma blend_keys pagerank alpha (results : OD.odict Z Qc) :
  (blend pagerank alpha results).*1 = results.*1.
Proof.
  unfold blend. destruct pagerank as [pr|]; [|done].
  case_decide; [done|]. rewrite <- list_fmap_compose. done.
Qed.

Lemma blend_zero pr (results : OD.odict Z Qc) alpha :
  blend (Some pr) 0 results = blend None alpha results.
Proof.
  unfold blend. case_decide; [done|].
  rewrite <- (list_fmap_id results) at 2. apply list_fmap_ext.
  intros i [d s] _. simpl. f_equal. ring.
Qed.

Lemma intersect_results_zero fuel db q pr alpha :
  intersect_results lower fuel db q (Some pr) 0
  = intersect_results lower fuel db q None alpha.
Proof.
  unfold intersect_results. cbv zeta.
  destruct (bool_decide _ || existsb _ _); [done|].
  destruct (merge_loop _ _ _ _) as [results|]; [|done].
  cbv [mbind option_bind]. by rewrite (blend_zero pr results alpha).
Qed.

(** The guard in front of the loop. *)
Lemma intersect_results_guard fuel db q pagerank alpha :
  q = [] ∨ (∃ t, t ∈ q ∧ term_postings lower db t = []) →
  intersect_results lower fuel db q pagerank alpha = Some [].
Proof.
  intros Hq. unfold intersect_results. cbv zeta.
  destruct (bool_decide _ || existsb _ _) eqn:Hguard; [done|].
  apply orb_false_iff in Hguard as [Hne Hall].
  apply bool_decide_eq_false in Hne. apply existsb_false in Hall.
  destruct Hq as [->|(t & Ht & Hpl)]; [done|].
  rewrite Forall_fmap, Forall_forall in Hall. specialize (Hall t Ht).
  simpl in Hall. apply bool_decide_eq_false in Hall. done.
Qed.

(** Past the guard, the loop returns and keeps its invariants. *)
Lemma intersect_results_loop (Inv : list nat → OD.odict Z Qc → Prop)
    db q pagerank alpha :
  let pls := term_postings lower db <$> q in
  q ≠ [] → (∀ t, t ∈ q → term_postings lower db t ≠ []) →
  (∀ indices results indices' results',
     length indices = length pls → Inv indices results →
     merge_step pls indices results = Continue indices' results' →
     Inv indices' results') →
  Inv ((λ _, O) <$> pls) [] →
  ∃ indices results,
    intersect_results lower (enough_fuel lower db q) db q pagerank alpha
    = Some (blend pagerank alpha results)
    ∧ length indices = length pls ∧ Inv indices results
    ∧ merge_step pls indices results = Return.
Proof.
  intros pls Hq Hpl Hstep Hinit. unfold intersect_results. cbv zeta. fold pls.
  assert (pls ≠ []) as Hne by (by intros ?%fmap_nil_inv).
  destruct (bool_decide _ || existsb _ _) eqn:Hguard.
  { apply orb_true_iff in Hguard as [Hg|Hg].
    - by apply bool_decide_eq_true in Hg.
    - apply existsb_exists in Hg as (pl & Hin & Hg).
      apply bool_decide_eq_true in Hg. subst pl.
      apply list_elem_of_In, list_elem_of_fmap in Hin as (t & Ht & Hin).
      symmetry in Ht. by apply Hpl in Ht. }
  destruct (merge_loop_invariant Inv pls Hne Hstep (enough_fuel lower db q)
              ((λ _, O) <$> pls) []) as (indices & results & Hloop & Hrest).
  - by rewrite length_fmap.
  - done.
  - rewrite remaining_init. unfold enough_fuel. fold pls. lia.
  - exists indices, results. by rewrite Hloop.
Qed.

(** [search_by_documents] returns on every index and query, and each
    document it returns is in the posting list of every query term. *)
Lemma intersect_results_sound db q pagerank alpha :
  ∃ raw,
    intersect_results lower (enough_fuel lower db q) db q pagerank alpha
    = Some raw
    ∧ ∀ d t, d ∈ raw.*1 → t ∈ q → d ∈ (term_postings lower db t).*1.
Proof.
  destruct (decide (q = [] ∨ Exists (λ t, term_postings lower db t = []) q))
    as [Hg|Hg].
  - exists []. split; [|by intros ?? ?%elem_of_nil].
    apply intersect_results_guard. rewrite Exists_exists in Hg. tauto.
  - assert (q ≠ [] ∧ ¬ Exists (λ t, term_postings lower db t = []) q)
      as [Hq Hpl] by (split; intros ?; apply Hg; auto).
    rewrite <- Forall_Exists_neg, Forall_forall in Hpl.
    assert (term_postings lower db <$> q ≠ []) as Hne
      by (by intros ?%fmap_nil_inv).
    destruct (intersect_results_loop (results_sound (term_postings lower db <$> q))
                db q pagerank alpha Hq Hpl)
      as (indices & results & Hres & Hlen & Hsound & _).
    + intros ????. by apply sound_step.
    + by intros d ?%elem_of_nil.
    + exists (blend pagerank alpha results). split; [done|].
      intros d t Hd Ht. rewrite blend_keys in Hd.
      apply (Hsound d Hd). by apply list_elem_of_fmap_2.
Qed.

(** The keys of the [scores] dict of [search_by_terms]. *)
Lemma union_scores_keys db q pagerank alpha d :
  d ∈ (union_scores lower db q pagerank alpha).*1
  ↔ ∃ t, t ∈ q ∧ d ∈ (term_postings lower db t).*1.
Proof.
  unfold union_scores. rewrite blend_keys.
  assert (Hinner : ∀ (pl : list (Z * Z)) (sc : OD.odict Z Qc),
    d ∈ (foldl (λ sc p, OD.set p.1 (default 0 (OD.get p.1 sc) + Qc_of_Z p.2) sc)
               sc pl).*1 ↔ d ∈ sc.*1 ∨ d ∈ pl.*1).
  { induction pl as [|p pl IH]; intros sc; csimpl.
    - rewrite elem_of_nil. tauto.
    - rewrite IH, od_set_elem_keys, elem_of_cons. tauto. }
  assert (Houter : ∀ (sc : OD.odict Z Qc),
    d ∈ (foldl (λ scores term,
                  foldl (λ sc p, OD.set p.1 (default 0 (OD.get p.1 sc)
                                             + Qc_of_Z p.2) sc)
                        scores (term_postings lower db term)) sc q).*1
    ↔ d ∈ sc.*1 ∨ ∃ t, t ∈ q ∧ d ∈ (term_postings lower db t).*1).
  { induction q as [|t q IH]; intros sc; simpl.
    - split; [by left|]. intros [?|(t & ?%elem_of_nil & _)]; done.
    - rewrite IH, Hinner. split.
      + intros [[?|?]|(t' & ? & ?)]; [by left|right..].
        * exists t. split; [by left|done].
        * exists t'. split; [by right|done].
      + intros [?|(t' & [->|?]%elem_of_cons & ?)].
        * by do 2 left.
        * left. by right.
        * right. by exists t'. }
  rewrite Houter. csimpl. rewrite elem_of_nil. tauto.
Qed.

(** The [scores] dict lists the documents in the order in which the
    accumulation first meets them. *)
Lemma union_scores_key_order db q pagerank alpha :
  (union_scores lower db q pagerank alpha).*1
  = first_seen (q ≫= λ t, (term_postings lower db t).*1).
Proof.
  unfold union_scores, first_seen. rewrite blend_keys.
  set (see := λ (acc : list Z) d, if decide (d ∈ acc) then acc else acc ++ [d]).
  assert (Hinner : ∀ (pl : list (Z * Z)) (sc : OD.odict Z Qc),
    (foldl (λ sc p, OD.set p.1 (default 0 (OD.get p.1 sc) + Qc_of_Z p.2) sc)
           sc pl).*1 = foldl see (sc.*1) (pl.*1)).
  { induction pl as [|p pl IH]; intros sc; csimpl; [done|].
    rewrite IH, od_set_keys. done. }
  change (@nil Z) with ((@nil (Z * Qc)).*1). generalize (@nil (Z * Qc)).
  induction q as [|t q IH]; intros sc; csimpl; [done|].
  rewrite IH, Hinner, foldl_app. done.
Qed.

(** A term without postings adds nothing to the [scores] dict. *)
Lemma union_scores_skip db q1 t q2 pagerank alpha :
  term_postings lower db t = [] →
  union_scores lower db (q1 ++ t :: q2) pagerank alpha
  = union_scores lower db (q1 ++ q2) pagerank alpha.
Proof.
  intros Ht. unfold union_scores. rewrite !foldl_app. simpl. by rewrite Ht.
Qed.

End strategies.
End SearchFacts.

(** * Facts about the tokenizer and the index build *)

Module TokenizerFacts.
Import Tokenizer TokenizerSpec.


Lemma is_word_char_spec c :
  is_word_char c = true
  ↔ 65 ≤ c ≤ 90 ∨ 97 ≤ c ≤ 122 ∨ 1040 ≤ c ≤ 1103 ∨ 48 ≤ c ≤ 57.
Proof.
  unfold is_word_char. rewrite !orb_true_iff, !bool_decide_eq_true. lia.
Qed.

Lemma lower_char_word c :
  is_word_char c = true → is_lower_word_char (lower_char c).
Proof.
  rewrite is_word_char_spec. unfold lower_char, is_lower_word_char.
  destruct (bool_decide (65 ≤ c ≤ 90) || bool_decide (1040 ≤ c ≤ 1071)) eqn:Hup.
  - apply orb_true_iff in Hup. rewrite !bool_decide_eq_true in Hup. lia.
  - apply orb_false_iff in Hup. rewrite !bool_decide_eq_false in Hup. lia.
Qed.

(** A run of word characters extends the token being read. *)
Lemma findall_from_run cur w rest :
  Forall (λ c, is_word_char c = true) w →
  findall_from cur (w ++ rest) = findall_from (cur ++ w) rest.
Proof.
  intros Hw. revert cur. induction Hw as [|c w Hc _ IH]; intros cur; simpl.
  - by rewrite app_nil_r.
  - rewrite Hc, IH, <- app_assoc. done.
Qed.

(** Any other character ends the token being read. *)
Lemma findall_from_sep cur t1 c t2 :
  is_word_char c = false →
  findall_from cur (t1 ++ c :: t2) = findall_from cur t1 ++ findall_from [] t2.
Proof.
  intros Hc. revert cur. induction t1 as [|x t1 IH]; intros cur; simpl.
  - rewrite Hc. by destruct cur.
  - destruct (is_word_char x); [apply IH|].
    destruct cur; [apply IH|]. simpl. by rewrite IH.
Qed.

Lemma findall_from_tokens cur text :
  Forall (λ c, is_word_char c = true) cur →
  Forall (λ t, t ≠ [] ∧ Forall (λ c, is_word_char c = true) t)
         (findall_from cur text).
Proof.
  revert cur. induction text as [|c text IH]; intros cur Hcur; simpl.
  - destruct cur; [constructor|]. constructor; [done|constructor].
  - destruct (is_word_char c) eqn:Hc.
    + apply IH. apply Forall_app. split; [done|]. by constructor.
    + destruct cur; [by apply IH|].
      constructor; [done|]. by apply IH.
Qed.

End TokenizerFacts.

Module IndexBuilderFacts.
Import Storage Tokenizer IndexBuilder IndexSpec.

Lemma find_term_id_None db term :
  find_term_id db term = None ↔ term ∉ (terms db).*2.
Proof.
  unfold find_term_id. rewrite fmap_None.
  induction (terms db) as [|[i t] l IH]; csimpl.
  - split; [intros _; apply not_elem_of_nil|done].
  - rewrite filter_cons, not_elem_of_cons. simpl.
    destruct (decide (t = term)) as [->|Hne]; simpl.
    + split; [done|]. by intros [? _].
    + rewrite IH. intuition congruence.
Qed.

Lemma find_term_id_Some db term i :
  find_term_id db term = Some i → (i, term) ∈ terms db.
Proof.
  unfold find_term_id. intros ([i' t] & Hhd & ->)%fmap_Some.
  apply head_Some_elem_of, list_elem_of_filter in Hhd as [Ht Hin].
  simpl in *. by subst.
Qed.

Lemma NoDup_fmap_eq {A B} (f : A → B) (l : list A) x y :
  NoDup (f <$> l) → x ∈ l → y ∈ l → f x = f y → x = y.
Proof.
  induction l as [|z l IH]; csimpl; intros Hnd Hx Hy Hf.
  - by apply elem_of_nil in Hx.
  - apply NoDup_cons in Hnd as [Hz Hnd].
    apply elem_of_cons in Hx as [->|Hx], Hy as [->|Hy]; [done| | |by apply IH].
    + destruct Hz. rewrite Hf. by apply list_elem_of_fmap_2.
    + destruct Hz. rewrite <- Hf. by apply list_elem_of_fmap_2.
Qed.

(** [get_or_create_term_id] keeps the tables well formed, forgets no term,
    and returns the id of the term. *)
Lemma get_or_create_term_id_wf db term :
  index_wf db →
  let r := get_or_create_term_id db term in
  index_wf r.1
  ∧ (r.2, term) ∈ terms r.1
  ∧ terms db ⊆ terms r.1
  ∧ postings r.1 = postings db.
Proof.
  intros [Ht Hi Hs Hp]. unfold get_or_create_term_id.
  destruct (find_term_id db term) as [i|] eqn:Hfind; simpl.
  - split_and!; [done|by apply find_term_id_Some|done..].
  - apply find_term_id_None in Hfind. split_and!; [split; simpl| | |done].
    + rewrite fmap_app. apply NoDup_app. split_and!; [done| |apply NoDup_singleton].
      intros t Hin ->%list_elem_of_singleton. done.
    + rewrite fmap_app. apply NoDup_app. split_and!; [done| |apply NoDup_singleton].
      intros i (r & -> & Hr)%list_elem_of_fmap Heq%list_elem_of_singleton.
      apply Hs in Hr. simpl in *. lia.
    + intros r [Hr|Hr%list_elem_of_singleton]%elem_of_app;
        [|subst r; simpl; lia].
      apply Hs in Hr. lia.
    + done.
    + apply elem_of_app. right. by left.
    + intros r Hr. apply elem_of_app. by left.
Qed.

(** Inserting the postings of a document that the index does not know yet,
    one per distinct term, keeps the index well formed. *)
Lemma insert_postings_wf db doc (term_freqs : list (str * Z)) :
  index_wf db → NoDup term_freqs.*1 →
  (∀ p, p ∈ postings db → p.1.2 ≠ doc) →
  index_wf (insert_postings db doc term_freqs)
  ∧ ∀ p, p ∈ postings (insert_postings db doc term_freqs) →
         p ∈ postings db ∨ p.1.2 = doc.
Proof.
  intros Hwf Hnd Hfresh. unfold insert_postings.
  assert (Hgen : ∀ (todo : list (str * Z)) (seen : list str) db0,
    index_wf db0 → NoDup (seen ++ todo.*1) →
    (∀ p, p ∈ postings db0 → p ∈ postings db ∨ p.1.2 = doc) →
    (∀ p, p ∈ postings db0 → p.1.2 = doc →
          ∃ t, t ∈ seen ∧ (p.1.1, t) ∈ terms db0) →
    let db' := foldl (λ db '(term, tf),
                        let '(db', term_id) := get_or_create_term_id db term in
                        {| terms := terms db';
                           postings := postings db' ++ [(term_id, doc, tf)];
                           term_seq := term_seq db' |}) db0 todo in
    index_wf db'
    ∧ ∀ p, p ∈ postings db' → p ∈ postings db ∨ p.1.2 = doc).
  { induction todo as [|[term tf] todo IH]; intros seen db0 Hwf0 Hnd0 Hold Hdoc;
      simpl; [done|].
    pose proof (get_or_create_term_id_wf db0 term Hwf0) as Hgc.
    destruct (get_or_create_term_id db0 term) as [db1 i]. simpl in Hgc.
    destruct Hgc as ([Ht Hi Hs Hp] & Hin & Hsub & Hpost).
    csimpl in Hnd0.
    apply (IH (seen ++ [term])).
    - split; simpl; [done..|].
      rewrite fmap_app. apply NoDup_app. split_and!; [done| |apply NoDup_singleton].
      intros pr (p & -> & Hp')%list_elem_of_fmap Heq%list_elem_of_singleton.
      rewrite Hpost in Hp'. destruct (Hdoc p Hp') as (t & Htd & Hterm).
      { by rewrite Heq. }
      apply Hsub in Hterm. rewrite Heq in Hterm. simpl in Hterm.
      assert ((i, t) = (i, term)) as [= ->].
      { by apply (NoDup_fmap_eq fst (terms db1)). }
      apply NoDup_app in Hnd0 as (_ & Hdisj & _).
      apply (Hdisj term Htd). by left.
    - by rewrite <- app_assoc.
    - simpl. intros p [Hp'|Hp'%list_elem_of_singleton]%elem_of_app;
        [|subst p; by right]. rewrite Hpost in Hp'. auto.
    - simpl. intros p [Hp'|Hp'%list_elem_of_singleton]%elem_of_app Hd.
      + rewrite Hpost in Hp'. destruct (Hdoc p Hp' Hd) as (t & Htd & Hterm).
        exists t. split; [apply elem_of_app; by left|by apply Hsub].
      + subst p. exists term. split; [|done]. apply elem_of_app. right. by left. }
  apply (Hgen term_freqs [] db); [done|done|by left|].
  intros p Hp Hd. by apply Hfresh in Hp.
Qed.

Lemma counter_keys_NoDup tokens : NoDup (counter tokens).*1.
Proof.
  unfold counter.
  assert (Hgen : ∀ d : OD.odict str Z, NoDup d.*1 →
    NoDup (foldl (λ freqs t, OD.set t (default 0 (OD.get t freqs) + 1) freqs)
                 d tokens).*1).
  { induction tokens as [|t tokens IH]; intros d Hd; simpl; [done|].
    apply IH. by apply od_set_NoDup. }
  apply Hgen. constructor.
Qed.

(** The build keeps one posting per term and document when the document
    ids are distinct. *)
Lemma build_loop_wf db docs :
  index_wf db → NoDup (doc_id <$> docs) →
  (∀ p, p ∈ postings db → p.1.2 ∉ doc_id <$> docs) →
  index_wf (build_loop db docs).1.
Proof.
  intros Hwf Hnd. revert db Hwf.
  induction docs as [|d docs IH]; intros db Hwf Hfresh; csimpl; [done|].
  apply NoDup_cons in Hnd as [Hd Hnd].
  destruct (doc_content d) as [content|]; [|done].
  destruct (insert_postings_wf db (doc_id d) (counter (tokenize content)))
    as [Hwf' Hposts]; [done|apply counter_keys_NoDup| |].
  { intros p Hp Heq. apply (Hfresh p Hp). csimpl. rewrite Heq. by left. }
  apply IH; [done|done|].
  intros p [Hp| ->]%Hposts; [|done].
  intros Hin. apply (Hfresh p Hp). csimpl. by right.
Qed.

Lemma build_inverted_index_wf db docs :
  NoDup (doc_id <$> docs) → index_wf (build_inverted_index db docs).1.
Proof.
  intros Hnd. unfold build_inverted_index. apply build_loop_wf; [|done|].
  - split; simpl; [constructor..| |constructor]. by intros r ?%elem_of_nil.
  - by intros p ?%elem_of_nil.
Qed.

(** In a well-formed index a posting list holds a document once. *)
Lemma get_term_postings_NoDup db term :
  index_wf db → NoDup (get_term_postings db term).*1.
Proof.
  intros [_ _ _ Hp]. unfold get_term_postings.
  destruct (find_term_id db term) as [i|]; [|constructor].
  rewrite stable_sort_perm, <- list_fmap_compose.
  set (rows := filter (λ r : Z * Z * Z, r.1.1 = i) (postings db)).
  assert (NoDup ((λ p : Z * Z * Z, p.1) <$> rows)) as Hrows.
  { eapply sublist_NoDup; [exact Hp|apply fmap_sublist, sublist_filter]. }
  apply NoDup_fmap_2_strong; [|by eapply NoDup_fmap_1].
  intros p p' Hin Hin' Heq. simpl in Heq.
  apply (NoDup_fmap_eq (λ p : Z * Z * Z, p.1) rows); [done..|].
  apply list_elem_of_filter in Hin as [Hi _], Hin' as [Hi' _].
  destruct p as [[??]?], p' as [[??]?]. simpl in *. congruence.
Qed.


Lemma build_loop_returns db docs :
  Forall (λ d, is_Some (doc_content d)) docs →
  (build_loop db docs).2 = Returned.
Proof.
  intros Hdocs. revert db.
  induction Hdocs as [|d docs [content Hc] _ IH]; intros db; simpl; [done|].
  rewrite Hc. apply IH.
Qed.

(** The loop stops at the first document without content and leaves the
    index as the documents before it made it. *)
Lemma build_loop_abort db good bad rest :
  Forall (λ d, is_Some (doc_content d)) good →
  doc_content bad = None →
  build_loop db (good ++ bad :: rest)
  = ((build_loop db good).1, Raised TypeError).
Proof.
  intros Hgood Hbad. revert db.
  induction Hgood as [|d docs [content Hc] _ IH]; intros db; simpl.
  - by rewrite Hbad.
  - rewrite Hc. apply IH.
Qed.

End IndexBuilderFacts.

(** * The claims *)

Section claims.
Import MapReduce Pregel Storage Tokenizer IndexBuilder Search.
Import RankSpec MergeSpec TokenizerSpec.
Import MapReduceFacts PregelFacts RankBounds MergeFacts SearchFacts.
Import TokenizerFacts IndexBuilderFacts.
Local Open Scope Qc_scope.

Example ex_ranks_agree :
  pagerank_mapreduce ex_docs ex_links 2 ex_damping
  = Some (pagerank_pregel ex_docs ex_links 2 ex_damping).
Proof. by_compute. Qed.

Example ex_index_postings :
  get_term_postings ex_index [97] = [(1, 1); (2, 1); (3, 1)]%Z
  ∧ get_term_postings ex_index [98] = [(2, 1); (3, 2); (4, 1)]%Z.
Proof. by vm_compute. Qed.

Example ex_intersect :
  (λ r, r.*1) <$> search_by_documents lower_token ex_index ex_query None 0
  = Some [3; 2]%Z.
Proof. by vm_compute. Qed.

Example ex_union :
  (search_by_terms lower_token ex_index ex_query None 0).*1 = [3; 2; 1; 4]%Z.
Proof. by vm_compute. Qed.

(** C1.  For a non-empty graph whose document ids are distinct and whose
    links end at documents, the vector that [pagerank_mapreduce] returns
    after any number of iterations sums to exactly 1 over the nodes, for
    every damping factor (dangling nodes included). *)
Theorem C1_rank_sum_one docs links iterations damping :
  docs ≠ [] →
  NoDup (doc_id <$> docs) →
  Forall (λ l : link, l.2 ∈ doc_id <$> docs) links →
  ∃ ranks, pagerank_mapreduce docs links iterations damping = Some ranks
           ∧ rank_sum (doc_id <$> docs) ranks = 1.
Proof.
  intros Hne Hnd Hfk. unfold pagerank_mapreduce.
  pose proof (build_graph_closed docs links) as Hclosed.
  destruct (build_graph docs links) as [nodes outgoing] eqn:Hg.
  assert (nodes = doc_id <$> docs) as Hnodes.
  { unfold build_graph in Hg. by injection Hg as <- _. }
  rewrite <- Hnodes in *. simpl in Hclosed.
  assert (nodes ≠ []) as Hne'.
  { rewrite Hnodes. by intros ?%fmap_nil_inv. }
  destruct nodes as [|n0 nodes'] eqn:Hn; [done|]. rewrite <- Hn in *.
  destruct (iterate_invariant (λ r, rank_sum nodes r = 1)
              (Z.to_nat iterations) nodes outgoing
              (Z.of_nat (length nodes)) damping
              (initial_ranks nodes (Z.of_nat (length nodes))))
    as (r & Hr & _ & Hsum).
  - intros r c Hdom Hsum Hc.
    rewrite (step_rank_sum r nodes outgoing damping c); auto.
    + rewrite Hsum. ring.
    + intros node nb. apply Hclosed. rewrite Forall_forall in Hfk. auto.
  - intros n Hn'. rewrite initial_ranks_lookup, decide_True by done. eauto.
  - by apply initial_rank_sum.
  - eauto.
Qed.

Lemma C1_witness :
  ex_docs ≠ []
  ∧ NoDup (doc_id <$> ex_docs)
  ∧ Forall (λ l : link, l.2 ∈ doc_id <$> ex_docs) ex_links
  ∧ ∃ ranks, pagerank_mapreduce ex_docs ex_links 2 ex_damping = Some ranks
             ∧ rank_sum (doc_id <$> ex_docs) ranks = 1.
Proof.
  assert (H1 : ex_docs ≠ []) by done.
  assert (H2 : NoDup (doc_id <$> ex_docs)) by by_compute.
  assert (H3 : Forall (λ l : link, l.2 ∈ doc_id <$> ex_docs) ex_links)
    by by_compute.
  split_and!; [done..|]. exact (C1_rank_sum_one _ _ 2 ex_damping H1 H2 H3).
Defined.

(** C2.  For every graph with distinct document ids, every iteration count
    and every damping factor, [pagerank_mapreduce] returns, and returns the
    very rank vector that [pagerank_pregel] returns: the two agree on every
    document. *)
Theorem C2_batch_equals_step docs links iterations damping :
  NoDup (doc_id <$> docs) →
  ∃ ranks, pagerank_mapreduce docs links iterations damping = Some ranks
           ∧ ∀ d, ranks !! d
                  = pagerank_pregel docs links iterations damping !! d.
Proof.
  intros Hnd. eexists. split; [by apply pregel_eq_mapreduce|done].
Qed.

Lemma C2_witness :
  NoDup (doc_id <$> ex_docs)
  ∧ ∃ ranks, pagerank_mapreduce ex_docs ex_links 2 ex_damping = Some ranks
             ∧ ∀ d, ranks !! d
                    = pagerank_pregel ex_docs ex_links 2 ex_damping !! d.
Proof.
  assert (H1 : NoDup (doc_id <$> ex_docs)) by by_compute.
  split; [done|]. exact (C2_batch_equals_step _ ex_links 2 ex_damping H1).
Defined.

(** C10.  For a non-empty graph with distinct document ids and a damping
    factor in [0, 1), after any number of iterations of either strategy
    every document has a rank, and it is at least [(1 - damping) / N],
    hence strictly positive. *)
Theorem C10_rank_lower_bound docs links iterations damping :
  docs ≠ [] →
  NoDup (doc_id <$> docs) →
  0 ≤ damping → damping < 1 →
  ∃ ranks,
    pagerank_mapreduce docs links iterations damping = Some ranks
    ∧ pagerank_pregel docs links iterations damping = ranks
    ∧ ∀ d, d ∈ doc_id <$> docs →
        ∃ x, ranks !! d = Some x
             ∧ (1 - damping) / Qc_of_Z (Z.of_nat (length docs)) ≤ x
             ∧ 0 < x.
Proof.
  intros Hne Hnd Hd0 Hd1.
  pose proof (pregel_eq_mapreduce docs links iterations damping Hnd) as Heq.
  exists (pagerank_pregel docs links iterations damping).
  split; [done|]. split; [done|].
  unfold pagerank_mapreduce in Heq.
  destruct (build_graph docs links) as [nodes outgoing] eqn:Hg.
  assert (nodes = doc_id <$> docs) as Hnodes.
  { unfold build_graph in Hg. by injection Hg as <- _. }
  rewrite <- Hnodes. rewrite <- (length_fmap doc_id docs), <- Hnodes.
  assert (nodes ≠ []) as Hne'.
  { rewrite Hnodes. by intros ?%fmap_nil_inv. }
  destruct nodes as [|n0 nodes'] eqn:Hn; [done|]. rewrite <- Hn in *.
  destruct (iterate_lower_bound (Z.to_nat iterations) nodes outgoing damping
              Hne' Hd0 Hd1) as (r & Hr & Hlow).
  rewrite Hr in Heq. injection Heq as <-. exact Hlow.
Qed.

Lemma C10_witness :
  ex_docs ≠ []
  ∧ NoDup (doc_id <$> ex_docs)
  ∧ 0 ≤ ex_damping ∧ ex_damping < 1
  ∧ ∃ ranks,
      pagerank_mapreduce ex_docs ex_links 2 ex_damping = Some ranks
      ∧ pagerank_pregel ex_docs ex_links 2 ex_damping = ranks
      ∧ ∀ d, d ∈ doc_id <$> ex_docs →
          ∃ x, ranks !! d = Some x
               ∧ (1 - ex_damping) / Qc_of_Z (Z.of_nat (length ex_docs)) ≤ x
               ∧ 0 < x.
Proof.
  assert (H1 : ex_docs ≠ []) by done.
  assert (H2 : NoDup (doc_id <$> ex_docs)) by by_compute.
  assert (H3 : 0 ≤ ex_damping) by by_compute.
  assert (H4 : ex_damping < 1) by by_compute.
  split_and!; [done..|].
  exact (C10_rank_lower_bound _ ex_links 2 ex_damping H1 H2 H3 H4).
Defined.

End claims.

Section search_claims.
Import Storage Tokenizer IndexBuilder Search.
Import RankSpec MergeSpec TokenizerSpec IndexSpec.
Import MergeFacts SearchFacts TokenizerFacts IndexBuilderFacts.
Local Open Scope Qc_scope.

Global Instance score_ge_trans : Transitive (λ a b : Z * Qc, b.2 ≤ a.2).
Proof. intros a b c Hab Hbc. by eapply Qcle_trans. Qed.

(** What [sorted] guarantees: the same items, by descending score, items
    of equal score in their input order. *)
Lemma sorted_by_score_desc_spec (items : list (Z * Qc)) :
  sorted_by_score_desc items ≡ₚ items
  ∧ StronglySorted (λ a b : Z * Qc, b.2 ≤ a.2) (sorted_by_score_desc items)
  ∧ ∀ s, filter (λ p : Z * Qc, p.2 = s) (sorted_by_score_desc items)
         = filter (λ p : Z * Qc, p.2 = s) items.
Proof.
  unfold sorted_by_score_desc. split_and!.
  - apply stable_sort_perm.
  - apply Sorted_StronglySorted; [apply _|].
    eapply Sorted_weaken; [|apply stable_sort_sorted].
    + intros x y Hle. by apply bool_decide_eq_true in Hle.
    + intros x y Hle. apply bool_decide_eq_false in Hle.
      apply bool_decide_eq_true.
      destruct (Qclt_le_dec x.2 y.2) as [Hlt|?]; [|done].
      by apply Qclt_le_weak.
  - intros s. apply stable_sort_stable.
    intros x y -> ->. by apply bool_decide_eq_true.
Qed.

Lemma sorted_by_score_desc_keys (items : list (Z * Qc)) d :
  d ∈ (sorted_by_score_desc items).*1 ↔ d ∈ items.*1.
Proof.
  destruct (sorted_by_score_desc_spec items) as [Hperm _]. by rewrite Hperm.
Qed.

(** [search_by_documents] returns on every input. *)
Lemma search_by_documents_returns (lower : str → str) db q pagerank alpha :
  is_Some (search_by_documents lower db q pagerank alpha).
Proof.
  destruct (intersect_results_sound lower db q pagerank alpha)
    as (raw & Hraw & _).
  unfold search_by_documents, search_by_documents_within. rewrite Hraw.
  by eexists.
Qed.

(** On an index that [build_inverted_index] built from documents with
    distinct ids, the posting list of every term holds a document once. *)
Lemma built_index_postings_NoDup (lower : str → str) db docs q :
  NoDup (doc_id <$> docs) →
  Forall (λ t, NoDup (term_postings lower
                        (build_inverted_index db docs).1 t).*1) q.
Proof.
  intros Hnd. apply Forall_forall. intros t _.
  by apply get_term_postings_NoDup, build_inverted_index_wf.
Qed.

(** C3.  For a non-empty query all of whose terms have a non-empty posting
    list, [search_by_documents] without authority returns each document
    once, and returns exactly the documents that are in the posting list of
    every query term.  When each of these lists holds a document once, the
    score of a returned document is the sum, over the query terms, of the
    frequency of the term in the document. *)
Theorem C3_intersection_exact (lower : str → str) db q alpha :
  q ≠ [] →
  Forall (λ t, term_postings lower db t ≠ []) q →
  ∃ r, search_by_documents lower db q None alpha = Some r
       ∧ NoDup r.*1
       ∧ (∀ d, d ∈ r.*1 ↔ ∀ t, t ∈ q → d ∈ (term_postings lower db t).*1)
       ∧ (Forall (λ t, NoDup (term_postings lower db t).*1) q →
          ∀ d s, (d, s) ∈ r →
                 s = sumf (λ t, Qc_of_Z (tf_of (term_postings lower db t) d))
                          q).
Proof.
  intros Hq Hpl. rewrite Forall_forall in Hpl.
  set (pls := term_postings lower db <$> q).
  assert (pls ≠ []) as Hne by (by intros ?%fmap_nil_inv).
  destruct (intersect_results_loop lower
              (λ i r, results_sound pls i r ∧ results_complete pls i r
                      ∧ NoDup r.*1
                      ∧ (Forall (λ pl : list (Z * Z), NoDup pl.*1) pls
                         → results_scored pls i r))
              db q None alpha Hq Hpl)
    as (indices & results & Hres & Hlen
        & (Hsound & Hcomplete & Hkeys & Hscored) & Hret).
  { intros i r i' r' Hlen (Hsound & Hcomplete & Hkeys & Hscored) Hs.
    split_and!.
    - by eapply sound_step.
    - eapply complete_step; [done| |done..].
      apply Forall_fmap, Forall_forall. intros t Ht.
      apply get_term_postings_sorted.
    - by eapply keys_step.
    - intros Hnd. eapply scored_step; [done..|by apply Hscored|done]. }
  { split_and!; [by intros d ?%elem_of_nil|apply complete_init|constructor|].
    by intros _ d s. }
  unfold search_by_documents, search_by_documents_within. rewrite Hres.
  simpl. eexists. split; [done|].
  destruct (sorted_by_score_desc_spec results) as (Hperm & _ & _).
  split_and!.
  - by rewrite Hperm.
  - intros d. rewrite sorted_by_score_desc_keys.
    rewrite (complete_return pls indices results d Hne Hlen Hsound
                             Hcomplete Hret).
    unfold common, pls. split.
    + intros Hc t Ht. apply Hc. by apply list_elem_of_fmap_2.
    + intros Hc pl (t & -> & Ht)%list_elem_of_fmap. by apply Hc.
  - intros Hnd d s Hds. rewrite Hperm in Hds.
    apply od_elem_get in Hds; [|done].
    rewrite (Hscored (proj2 (Forall_fmap _ _ _) Hnd) d s Hds).
    unfold tf_sum, pls. by rewrite sumf_fmap.
Qed.

Lemma C3_witness :
  ex_query ≠ []
  ∧ Forall (λ t, term_postings lower_token ex_index t ≠ []) ex_query
  ∧ Forall (λ t, NoDup (term_postings lower_token ex_index t).*1) ex_query
  ∧ ∃ r, search_by_documents lower_token ex_index ex_query None 0 = Some r
         ∧ NoDup r.*1
         ∧ (∀ d, d ∈ r.*1
               ↔ ∀ t, t ∈ ex_query
                      → d ∈ (term_postings lower_token ex_index t).*1)
         ∧ (Forall (λ t, NoDup (term_postings lower_token ex_index t).*1)
                   ex_query →
            ∀ d s, (d, s) ∈ r →
              s = sumf (λ t, Qc_of_Z
                          (tf_of (term_postings lower_token ex_index t) d))
                       ex_query).
Proof.
  assert (H1 : ex_query ≠ []) by done.
  assert (H2 : Forall (λ t, term_postings lower_token ex_index t ≠ [])
                      ex_query) by by_compute.
  assert (H3 : Forall (λ t, NoDup (term_postings lower_token ex_index t).*1)
                      ex_query) by by_compute.
  split_and!; [done..|].
  exact (C3_intersection_exact lower_token ex_index ex_query 0 H1 H2).
Defined.

(** C4.  When a query term has no postings, [search_by_documents] returns
    the empty list before it enters the loop (whatever bound is put on the
    loop, even none at all), and [search_by_terms] returns what it returns
    for the query without that term. *)
Theorem C4_term_without_postings (lower : str → str) db q1 t q2
    pagerank alpha :
  term_postings lower db t = [] →
  (∀ fuel, search_by_documents_within lower fuel db (q1 ++ t :: q2)
             pagerank alpha = Some [])
  ∧ search_by_documents lower db (q1 ++ t :: q2) pagerank alpha = Some []
  ∧ search_by_terms lower db (q1 ++ t :: q2) pagerank alpha
    = search_by_terms lower db (q1 ++ q2) pagerank alpha.
Proof.
  intros Ht.
  assert (Hfuel : ∀ fuel, search_by_documents_within lower fuel db
                            (q1 ++ t :: q2) pagerank alpha = Some []).
  { intros fuel. unfold search_by_documents_within.
    rewrite intersect_results_guard; [done|]. right. exists t.
    split; [|done]. apply elem_of_app. right. by left. }
  split_and!; [done|apply Hfuel|].
  unfold search_by_terms. by rewrite union_scores_skip.
Qed.

Lemma C4_witness :
  term_postings lower_token ex_index [99] = []
  ∧ (∀ fuel, search_by_documents_within lower_token fuel ex_index
               ([[97]] ++ [99] :: [[98]]) None 0 = Some [])
  ∧ search_by_documents lower_token ex_index ([[97]] ++ [99] :: [[98]])
                        None 0 = Some []
  ∧ search_by_terms lower_token ex_index ([[97]] ++ [99] :: [[98]]) None 0
    = search_by_terms lower_token ex_index ([[97]] ++ [[98]]) None 0.
Proof.
  assert (H1 : term_postings lower_token ex_index [99] = []) by by_compute.
  split; [done|].
  exact (C4_term_without_postings lower_token ex_index [[97]] [99] [[98]]
                                  None 0 H1).
Defined.

(** C5.  On every index and query, [search_by_terms] returns exactly the
    documents of the posting lists of the query terms, and every document
    that [search_by_documents] returns is among them. *)
Theorem C5_union_superset (lower : str → str) db q pagerank alpha :
  (∀ d, d ∈ (search_by_terms lower db q pagerank alpha).*1
        ↔ ∃ t, t ∈ q ∧ d ∈ (term_postings lower db t).*1)
  ∧ ∃ r, search_by_documents lower db q pagerank alpha = Some r
         ∧ ∀ d, d ∈ r.*1
                → d ∈ (search_by_terms lower db q pagerank alpha).*1.
Proof.
  assert (Hunion : ∀ d, d ∈ (search_by_terms lower db q pagerank alpha).*1
            ↔ ∃ t, t ∈ q ∧ d ∈ (term_postings lower db t).*1).
  { intros d. unfold search_by_terms.
    by rewrite sorted_by_score_desc_keys, union_scores_keys. }
  split; [done|].
  destruct (intersect_results_sound lower db q pagerank alpha)
    as (raw & Hraw & Hsound).
  unfold search_by_documents, search_by_documents_within. rewrite Hraw. simpl.
  eexists. split; [done|]. intros d Hd.
  apply (proj1 (sorted_by_score_desc_keys _ _)) in Hd.
  apply Hunion. destruct q as [|t q].
  - rewrite (intersect_results_guard lower _ db [] pagerank alpha
               (or_introl eq_refl)) in Hraw.
    injection Hraw as <-. inversion Hd.
  - exists t. split; [by left|]. apply Hsound; [done|by left].
Qed.

(** C6.  On every index, query and authority vector, either strategy
    called with the vector and [alpha = 0] returns the very list it returns
    without a vector. *)
Theorem C6_alpha_zero (lower : str → str) db q pr alpha :
  (∃ r, search_by_documents lower db q (Some pr) 0 = Some r
        ∧ search_by_documents lower db q None alpha = Some r)
  ∧ search_by_terms lower db q (Some pr) 0
    = search_by_terms lower db q None alpha.
Proof.
  split.
  - destruct (intersect_results_sound lower db q None alpha)
      as (raw & Hraw & _).
    unfold search_by_documents, search_by_documents_within.
    rewrite (intersect_results_zero lower _ db q pr alpha), Hraw. simpl.
    by eexists.
  - unfold search_by_terms, union_scores. by rewrite (blend_zero pr _ alpha).
Qed.

(** C7.  On every index, query and authority input, the list that each
    strategy returns holds the items of its dict, by descending score, and
    items of equal score in the order in which the dict holds them: the
    order in which the merge produced them, and for [search_by_terms] the
    order in which the accumulation first met the documents. *)
Theorem C7_sorted_stable (lower : str → str) db q pagerank alpha :
  (∃ raw r,
     intersect_results lower (enough_fuel lower db q) db q pagerank alpha
     = Some raw
     ∧ search_by_documents lower db q pagerank alpha = Some r
     ∧ r ≡ₚ raw
     ∧ StronglySorted (λ a b : Z * Qc, b.2 ≤ a.2) r
     ∧ ∀ s, filter (λ p : Z * Qc, p.2 = s) r
            = filter (λ p : Z * Qc, p.2 = s) raw)
  ∧ (search_by_terms lower db q pagerank alpha
       ≡ₚ union_scores lower db q pagerank alpha
     ∧ StronglySorted (λ a b : Z * Qc, b.2 ≤ a.2)
                      (search_by_terms lower db q pagerank alpha)
     ∧ (∀ s, filter (λ p : Z * Qc, p.2 = s)
                    (search_by_terms lower db q pagerank alpha)
             = filter (λ p : Z * Qc, p.2 = s)
                      (union_scores lower db q pagerank alpha))
     ∧ (union_scores lower db q pagerank alpha).*1
       = first_seen (q ≫= λ t, (term_postings lower db t).*1)).
Proof.
  split.
  - destruct (intersect_results_sound lower db q pagerank alpha)
      as (raw & Hraw & _).
    exists raw, (sorted_by_score_desc raw).
    unfold search_by_documents, search_by_documents_within. rewrite Hraw.
    split; [done|]. split; [done|]. apply sorted_by_score_desc_spec.
  - destruct (sorted_by_score_desc_spec
                (union_scores lower db q pagerank alpha)) as (? & ? & ?).
    split_and!; [done..|]. apply union_scores_key_order.
Qed.

Example ex_tie_order :
  (λ p : Z * Qc, (p.1, this p.2))
    <$> search_by_terms lower_token ex_index ex_query None 0
  = [(3, 3%Q); (2, 2%Q); (1, 1%Q); (4, 1%Q)]%Z.
Proof. by vm_compute. Qed.

End search_claims.

Section index_claims.
Import Storage Tokenizer IndexBuilder TokenizerSpec.
Import TokenizerFacts IndexBuilderFacts.

(** C8, as stated, fails: U+00E9 lies in the extended Latin range, yet the
    tokenizer reads it as a separator; [tokenize "cafés"] is
    [["caf"; "s"]]. *)
Lemma C8_counterexample :
  spec_extended_latin 233
  ∧ is_word_char 233 = false
  ∧ tokenize [99; 97; 102; 233; 115] = [[99; 97; 102]; [115]].
Proof. split; [unfold spec_extended_latin; lia|]. by vm_compute. Qed.

(** C8, amended.  The word characters are [A-Z], [a-z], U+0410..U+044F and
    [0-9], and nothing else; in particular no character of U+00C0..U+024F.
    Every token is a non-empty string of lower-case word characters; a
    non-empty run of word characters is one token, lower-cased; and any
    other character separates tokens. *)
Theorem C8_tokenizer_class :
  (∀ c, is_word_char c = true
        ↔ 65 ≤ c ≤ 90 ∨ 97 ≤ c ≤ 122 ∨ 1040 ≤ c ≤ 1103 ∨ 48 ≤ c ≤ 57)
  ∧ (∀ c, spec_extended_latin c → is_word_char c = false)
  ∧ (∀ text, Forall (λ tok, tok ≠ [] ∧ Forall is_lower_word_char tok)
                    (tokenize text))
  ∧ (∀ w, w ≠ [] → Forall (λ c, is_word_char c = true) w →
          tokenize w = [lower_token w])
  ∧ (∀ t1 c t2, is_word_char c = false →
                tokenize (t1 ++ c :: t2) = tokenize t1 ++ tokenize t2).
Proof.
  split_and!.
  - apply is_word_char_spec.
  - intros c Hc. apply not_true_is_false. rewrite is_word_char_spec.
    unfold spec_extended_latin in Hc. lia.
  - intros text. unfold tokenize. apply Forall_fmap.
    eapply Forall_impl; [apply (findall_from_tokens [] text); constructor|].
    intros tok [Hne Hall]. simpl. split.
    + by intros ?%fmap_nil_inv.
    + apply Forall_fmap. eapply Forall_impl; [exact Hall|].
      intros c Hc. by apply lower_char_word.
  - intros w Hne Hw. unfold tokenize, findall.
    rewrite <- (app_nil_r w) at 1. rewrite findall_from_run by done.
    simpl. by destruct w.
  - intros t1 c t2 Hc. unfold tokenize, findall.
    by rewrite findall_from_sep, fmap_app.
Qed.

(** C9, as stated, fails: on a corpus whose first record has no content
    the build raises, and the well-formed second record, which holds the
    term ["a"], gets no posting. *)
Lemma C9_counterexample :
  (build_inverted_index empty_index ex_broken_corpus).2 = Raised TypeError
  ∧ doc_content <$> ex_broken_corpus !! 1%nat = Some (Some [97])
  ∧ get_term_postings
      (build_inverted_index empty_index ex_broken_corpus).1 [97] = [].
Proof. by vm_compute. Qed.

(** C9, amended.  A record without content makes the build raise
    [TypeError] at that record: the index is then what the records before
    it made it, and no later record is indexed.  The records before it were
    indexed without error. *)
Theorem C9_build_stops_at_missing_content db good bad rest :
  Forall (λ d, is_Some (doc_content d)) good →
  doc_content bad = None →
  build_inverted_index db (good ++ bad :: rest)
  = ((build_inverted_index db good).1, Raised TypeError)
  ∧ (build_inverted_index db good).2 = Returned.
Proof.
  intros Hgood Hbad. unfold build_inverted_index. split.
  - by apply build_loop_abort.
  - by apply build_loop_returns.
Qed.

Lemma C9_witness :
  Forall (λ d, is_Some (doc_content d)) [Document 1 [] [] (Some [98])]
  ∧ doc_content (Document 2 [] [] None) = None
  ∧ build_inverted_index empty_index
      ([Document 1 [] [] (Some [98])] ++ Document 2 [] [] None
         :: [Document 3 [] [] (Some [97])])
    = ((build_inverted_index empty_index
          [Document 1 [] [] (Some [98])]).1, Raised TypeError)
  ∧ (build_inverted_index empty_index [Document 1 [] [] (Some [98])]).2
    = Returned.
Proof.
  assert (H1 : Forall (λ d, is_Some (doc_content d))
                      [Document 1 [] [] (Some [98])])
    by (repeat constructor; by eexists).
  assert (H2 : doc_content (Document 2 [] [] None) = None) by reflexivity.
  split; [done|]. split; [done|].
  exact (C9_build_stops_at_missing_content empty_index _ _
           [Document 3 [] [] (Some [97])] H1 H2).
Defined.

End index_claims.

(** * Further properties of the ranking code *)

Lemma filter_none {A} (P : A → Prop) `{∀ x, Decision (P x)} (l : list A) :
  Forall (λ x, ¬ P x) l → filter P l = [].
Proof.
  induction 1 as [|x l Hx _ IH]; [done|].
  by rewrite filter_cons, decide_False.
Qed.

Module RankExtras.
Import MapReduce Pregel RankSpec MapReduceFacts PregelFacts RankBounds.
Local Open Scope Qc_scope.

(** [pagerank_mapreduce] on a non-empty corpus is its loop on the built
    graph, so what one round keeps holds of the result. *)
Lemma pagerank_mapreduce_invariant (P : gmap Z Qc → Prop)
    docs links iterations damping :
  docs ≠ [] →
  (∀ r c, (∀ n, n ∈ doc_id <$> docs → is_Some (r !! n)) → P r →
          map_phase r (doc_id <$> docs) (build_graph docs links).2
                    (Z.of_nat (length (doc_id <$> docs))) = Some c →
          P (reduce_phase c (doc_id <$> docs)
                          (Z.of_nat (length (doc_id <$> docs))) damping)) →
  P (initial_ranks (doc_id <$> docs) (Z.of_nat (length (doc_id <$> docs)))) →
  ∃ r, pagerank_mapreduce docs links iterations damping = Some r
       ∧ (∀ n, n ∈ doc_id <$> docs → is_Some (r !! n)) ∧ P r.
Proof.
  intros Hne Hstep Hinit. unfold pagerank_mapreduce.
  destruct (build_graph docs links) as [nodes outgoing] eqn:Hg.
  assert (nodes = doc_id <$> docs) as Hnodes.
  { unfold build_graph in Hg. by injection Hg as <- _. }
  simpl in Hstep. rewrite <- Hnodes in *.
  destruct nodes as [|n0 nodes'] eqn:Hn.
  { symmetry in Hnodes. by apply fmap_nil_inv in Hnodes. }
  rewrite <- Hn in *. apply iterate_invariant; [done| |done].
  intros n Hin. rewrite initial_ranks_lookup, decide_True by done. eauto.
Qed.

(** The rank total of [pagerank_mapreduce] is 1. *)
Lemma mapreduce_rank_sum docs links iterations damping :
  docs ≠ [] →
  NoDup (doc_id <$> docs) →
  Forall (λ l : link, l.2 ∈ doc_id <$> docs) links →
  ∃ ranks, pagerank_mapreduce docs links iterations damping = Some ranks
           ∧ rank_sum (doc_id <$> docs) ranks = 1.
Proof.
  intros Hne Hnd Hfk.
  assert (doc_id <$> docs ≠ []) as Hne' by (by intros ?%fmap_nil_inv).
  destruct (pagerank_mapreduce_invariant
              (λ r, rank_sum (doc_id <$> docs) r = 1)
              docs links iterations damping Hne) as (r & Hr & _ & Hsum).
  - intros r c Hdom Hsum Hc.
    rewrite (step_rank_sum r _ (build_graph docs links).2 damping c); auto.
    + rewrite Hsum. ring.
    + intros node nb. apply build_graph_closed.
      rewrite Forall_forall in Hfk. auto.
  - by apply initial_rank_sum.
  - eauto.
Qed.




(** X1.  [build_graph] returns the document ids in table order and, for
    each of them, the targets of the links that leave it, in table order
    and with repetitions; links that leave no document are dropped, and no
    other key is in the dict. *)
Theorem X1_build_graph_edges docs links :
  (build_graph docs links).1 = doc_id <$> docs
  ∧ ∀ n, (build_graph docs links).2 !! n
         = if decide (n ∈ doc_id <$> docs)
           then Some ((filter (λ l : link, l.1 = n) links).*2)
           else None.
Proof. split; [done|]. intros n. apply build_graph_outgoing. Qed.

(** X2.  On every corpus and link table, [pagerank_mapreduce] returns
    without a [KeyError], and the keys of the dict it returns are exactly
    the document ids. *)
Theorem X2_mapreduce_keys docs links iterations damping :
  ∃ ranks, pagerank_mapreduce docs links iterations damping = Some ranks
           ∧ ∀ n, is_Some (ranks !! n) ↔ n ∈ doc_id <$> docs.
Proof.
  destruct docs as [|d0 docs'] eqn:Hdocs.
  { exists ∅. split; [done|]. intros n. rewrite lookup_empty. csimpl.
    split; [by intros ?%is_Some_None|by intros ?%elem_of_nil]. }
  rewrite <- Hdocs.
  destruct (pagerank_mapreduce_invariant
              (λ r, ∀ n, is_Some (r !! n) → n ∈ doc_id <$> docs)
              docs links iterations damping) as (r & Hr & Hdom & Hkeys).
  - by rewrite Hdocs.
  - intros r c _ _ _ n. rewrite reduce_phase_lookup.
    case_decide; [done|by intros ?%is_Some_None].
  - intros n. rewrite initial_ranks_lookup.
    case_decide; [done|by intros ?%is_Some_None].
  - exists r. split; [done|]. intros n. split; auto.
Qed.

(** X3.  For a non-empty graph with distinct document ids whose links end
    at documents, the vector of [pagerank_pregel] sums to exactly 1 after
    any number of supersteps. *)
Theorem X3_pregel_rank_sum docs links iterations damping :
  docs ≠ [] →
  NoDup (doc_id <$> docs) →
  Forall (λ l : link, l.2 ∈ doc_id <$> docs) links →
  rank_sum (doc_id <$> docs) (pagerank_pregel docs links iterations damping)
  = 1.
Proof.
  intros Hne Hnd Hfk.
  destruct (mapreduce_rank_sum docs links iterations damping Hne Hnd Hfk)
    as (r & Hr & Hsum).
  rewrite (pregel_eq_mapreduce docs links iterations damping Hnd) in Hr.
  by injection Hr as ->.
Qed.

Lemma X3_witness :
  ex_docs ≠ []
  ∧ NoDup (doc_id <$> ex_docs)
  ∧ Forall (λ l : link, l.2 ∈ doc_id <$> ex_docs) ex_links
  ∧ rank_sum (doc_id <$> ex_docs) (pagerank_pregel ex_docs ex_links 3 ex_damping)
    = 1.
Proof.
  assert (H1 : ex_docs ≠ []) by done.
  assert (H2 : NoDup (doc_id <$> ex_docs)) by by_compute.
  assert (H3 : Forall (λ l : link, l.2 ∈ doc_id <$> ex_docs) ex_links)
    by by_compute.
  split_and!; [done..|]. exact (X3_pregel_rank_sum _ _ 3 ex_damping H1 H2 H3).
Defined.




(** X6.  With damping 0 the links play no part: [pagerank_mapreduce]
    gives every document the rank [1 / N], whatever the links and the
    number of iterations. *)
Theorem X6_damping_zero_uniform docs links iterations :
  ∃ ranks,
    pagerank_mapreduce docs links iterations 0 = Some ranks
    ∧ ∀ n, n ∈ doc_id <$> docs →
           ranks !! n = Some (1 / Qc_of_Z (Z.of_nat (length docs))).
Proof.
  destruct docs as [|d0 docs'] eqn:Hdocs.
  { exists ∅. split; [done|]. by intros n ?%elem_of_nil. }
  rewrite <- Hdocs. rewrite <- (length_fmap doc_id docs).
  destruct (pagerank_mapreduce_invariant
              (λ r, ∀ n, n ∈ doc_id <$> docs →
                 r !! n = Some (1 / Qc_of_Z
                                  (Z.of_nat (length (doc_id <$> docs)))))
              docs links iterations 0) as (r & Hr & _ & Huni).
  - by rewrite Hdocs.
  - intros r c _ _ _ n Hn.
    rewrite reduce_phase_lookup, decide_True by done. f_equal.
    unfold Qcdiv. ring.
  - intros n Hn. by rewrite initial_ranks_lookup, decide_True.
  - eauto.
Qed.



End RankExtras.

(** * Further properties of the term index and its build *)

Module IndexExtras.
Import Storage Tokenizer IndexBuilder IndexSpec BuildSpec.
Import SearchFacts IndexBuilderFacts.

Lemma get_term_postings_raw db term :
  get_term_postings db term
  = stable_sort (λ a b : Z * Z, bool_decide (a.1 ≤ b.1)) (raw_postings db term).
Proof.
  unfold get_term_postings, raw_postings. by destruct (find_term_id db term).
Qed.

Lemma find_term_id_app_None db term row ps sq :
  find_term_id db term = None →
  find_term_id {| terms := terms db ++ [row]; postings := ps;
                  term_seq := sq |} term
  = if decide (row.2 = term) then Some row.1 else None.
Proof.
  unfold find_term_id. simpl. intros Hnone%fmap_None.
  rewrite filter_app. destruct (filter _ (terms db)) as [|r l]; [|done].
  simpl. rewrite filter_cons, filter_nil. by case_decide.
Qed.

Lemma find_term_id_app_Some db term row ps sq i :
  find_term_id db term = Some i →
  find_term_id {| terms := terms db ++ [row]; postings := ps;
                  term_seq := sq |} term = Some i.
Proof.
  unfold find_term_id. simpl. intros (r & Hhd & ->)%fmap_Some.
  rewrite filter_app. destruct (filter _ (terms db)) as [|r' l]; [done|].
  simpl in *. by injection Hhd as ->.
Qed.

(** X8.  On every index, [get_term_postings] returns the rows of the term
    in ascending order of document id, and nothing for a term that the
    [terms] table does not hold. *)
Theorem X8_get_term_postings_sorted db term :
  StronglySorted (λ a b : Z * Z, a.1 ≤ b.1) (get_term_postings db term)
  ∧ get_term_postings db term ≡ₚ raw_postings db term
  ∧ (term ∉ (terms db).*2 → get_term_postings db term = []).
Proof.
  split_and!.
  - apply get_term_postings_sorted.
  - rewrite get_term_postings_raw. apply stable_sort_perm.
  - intros Hterm%find_term_id_None. unfold get_term_postings.
    by rewrite Hterm.
Qed.

(** X9.  [get_or_create_term_id] is idempotent: asked again for the same
    term it returns the same id and leaves the tables as they are; and the
    id it returns is the one a lookup of the term finds. *)
Theorem X9_get_or_create_idempotent db term :
  get_or_create_term_id (get_or_create_term_id db term).1 term
  = get_or_create_term_id db term
  ∧ find_term_id (get_or_create_term_id db term).1 term
    = Some (get_or_create_term_id db term).2.
Proof.
  assert (Hfind : find_term_id (get_or_create_term_id db term).1 term
                  = Some (get_or_create_term_id db term).2).
  { unfold get_or_create_term_id.
    destruct (find_term_id db term) as [i|] eqn:Hf; simpl; [done|].
    rewrite (find_term_id_app_None db term (term_seq db + 1, term) _ _ Hf).
    simpl. by rewrite decide_True. }
  split; [|done].
  unfold get_or_create_term_id at 1. rewrite Hfind.
  by destruct (get_or_create_term_id db term).
Qed.

Lemma occurrences_cons t t0 tokens :
  occurrences t (t0 :: tokens)
  = (if decide (t0 = t) then 1 else 0) + occurrences t tokens.
Proof.
  unfold occurrences. rewrite filter_cons.
  destruct (decide (t0 = t)); simpl length; lia.
Qed.

Lemma occurrences_pos t tokens : 0 < occurrences t tokens ↔ t ∈ tokens.
Proof.
  induction tokens as [|t0 tokens IH].
  - unfold occurrences. simpl. split; [lia|by intros ?%elem_of_nil].
  - rewrite occurrences_cons, elem_of_cons.
    assert (0 ≤ occurrences t tokens) by (unfold occurrences; lia).
    destruct (decide (t0 = t)) as [->|Hne]; [split; [auto|lia]|].
    rewrite Z.add_0_l, IH. split; [auto|]. intros [?|?]; [congruence|done].
Qed.

(** [Counter]: the count of a token is the number of its occurrences. *)
Lemma counter_get t tokens :
  OD.get t (counter tokens)
  = if decide (0 < occurrences t tokens) then Some (occurrences t tokens)
    else None.
Proof.
  unfold counter.
  assert (Hgen : ∀ d : OD.odict str Z,
    OD.get t (foldl (λ freqs t', OD.set t' (default 0 (OD.get t' freqs) + 1)
                                        freqs) d tokens)
    = if decide (0 < occurrences t tokens)
      then Some (default 0 (OD.get t d) + occurrences t tokens)
      else OD.get t d).
  { induction tokens as [|t0 tokens IH]; intros d; simpl.
    - done.
    - rewrite IH, od_get_set, occurrences_cons.
      assert (0 ≤ occurrences t tokens) by (unfold occurrences; lia).
      destruct (decide (t0 = t)) as [->|Hne]; simpl.
      + rewrite (decide_True (P := 0 < 1 + _)) by lia.
        case_decide; f_equal; lia.
      + rewrite Z.add_0_l. done. }
  rewrite Hgen. simpl. by rewrite Z.add_0_l.
Qed.

Lemma filter_key_get {V} (term : str) (freqs : list (str * V)) :
  NoDup freqs.*1 →
  filter (λ p : str * V, p.1 = term) freqs
  = match OD.get term freqs with Some v => [(term, v)] | None => [] end.
Proof.
  induction freqs as [|[t v] freqs IH]; intros Hnd; [done|].
  rewrite fmap_cons in Hnd. apply NoDup_cons in Hnd as [Ht Hnd].
  rewrite filter_cons. simpl.
  destruct (decide (t = term)) as [->|Hne].
  - f_equal. apply filter_none, Forall_forall. intros [t' v'] Hin Heq.
    simpl in Heq. subst t'. apply Ht. apply list_elem_of_fmap.
    by exists (term, v').
  - by apply IH.
Qed.

(** Inserting one posting adds one row to the term's rows and none to the
    rows of any other term. *)
Lemma insert_one_raw db doc t tf :
  terms_ok db →
  let db' := (get_or_create_term_id db t).1 in
  let i := (get_or_create_term_id db t).2 in
  let db'' := {| terms := terms db';
                 postings := postings db' ++ [(i, doc, tf)];
                 term_seq := term_seq db' |} in
  terms_ok db''
  ∧ ∀ term, raw_postings db'' term
            = raw_postings db term
              ++ (if decide (t = term) then [(doc, tf)] else []).
Proof.
  intros (Hids & Hseq & Hclosed). unfold get_or_create_term_id.
  destruct (find_term_id db t) as [i|] eqn:Hf; simpl.
  - pose proof (find_term_id_Some db t i Hf) as Hin. split.
    + split_and!; simpl; [done|done|].
      intros p [Hp|Hp%list_elem_of_singleton]%elem_of_app; [auto|].
      subst p. simpl. apply list_elem_of_fmap. by exists (i, t).
    + intros term. unfold raw_postings.
      change (find_term_id {| terms := terms db;
                postings := postings db ++ [(i, doc, tf)];
                term_seq := term_seq db |} term)
        with (find_term_id db term).
      destruct (find_term_id db term) as [j|] eqn:Hf'; simpl.
      * rewrite filter_app, fmap_app. f_equal.
        rewrite filter_cons, filter_nil. simpl.
        pose proof (find_term_id_Some db term j Hf') as Hin'.
        destruct (decide (t = term)) as [->|Hne].
        -- rewrite Hf in Hf'. injection Hf' as ->. by rewrite decide_True.
        -- rewrite decide_False; [done|]. intros ->.
           apply Hne.
           by injection (NoDup_fmap_eq fst (terms db) _ _ Hids Hin Hin' eq_refl).
      * rewrite decide_False; [done|]. intros ->. congruence.
  - set (i := term_seq db + 1).
    assert (Hfresh : i ∉ (terms db).*1).
    { intros (r & Hr1 & Hr)%list_elem_of_fmap. apply Hseq in Hr.
      unfold i in Hr1. lia. }
    split.
    + split_and!; simpl.
      * rewrite fmap_app. apply NoDup_app.
        split_and!; [done| |apply NoDup_singleton].
        intros j Hj Hj'%list_elem_of_singleton. by subst j.
      * intros r [Hr|Hr%list_elem_of_singleton]%elem_of_app.
        -- apply Hseq in Hr. unfold i. lia.
        -- subst r. simpl. lia.
      * intros p [Hp|Hp%list_elem_of_singleton]%elem_of_app;
          rewrite fmap_app, elem_of_app; [left; auto|right].
        subst p. simpl. by left.
    + intros term. unfold raw_postings.
      destruct (find_term_id db term) as [j|] eqn:Hf'.
      * rewrite (find_term_id_app_Some db term (i, t) _ _ j Hf').
        pose proof (find_term_id_Some db term j Hf') as Hin'.
        cbn [postings]. rewrite filter_app, fmap_app. f_equal.
        rewrite filter_cons, filter_nil. simpl.
        rewrite decide_False.
        -- rewrite decide_False; [done|]. intros ->. congruence.
        -- intros ->. apply Hfresh. apply list_elem_of_fmap.
           by exists (j, term).
      * rewrite (find_term_id_app_None db term (i, t) _ _ Hf'). simpl.
        destruct (decide (t = term)) as [->|Hne]; [|done].
        cbn [postings].
        rewrite filter_app, fmap_app, filter_cons, filter_nil. simpl.
        rewrite decide_True by done.
        rewrite filter_none; [done|].
        apply Forall_forall. intros p Hp Heq. apply Hfresh.
        rewrite <- Heq. by apply Hclosed.
Qed.

Lemma insert_postings_raw db doc (freqs : list (str * Z)) :
  terms_ok db →
  terms_ok (insert_postings db doc freqs)
  ∧ ∀ term, raw_postings (insert_postings db doc freqs) term
            = raw_postings db term
              ++ ((λ p : str * Z, (doc, p.2))
                    <$> filter (λ p : str * Z, p.1 = term) freqs).
Proof.
  revert db. induction freqs as [|[t tf] freqs IH]; intros db Hok.
  - split; [done|]. intros term. simpl. by rewrite app_nil_r.
  - destruct (insert_one_raw db doc t tf Hok) as [Hok' Hraw].
    unfold insert_postings. simpl.
    destruct (get_or_create_term_id db t) as [db' i]. simpl in *.
    destruct (IH _ Hok') as [Hok'' Hraw'']. split; [done|].
    intros term. unfold insert_postings in Hraw''.
    rewrite Hraw'', Hraw, <- app_assoc. f_equal.
    rewrite filter_cons. simpl. by destruct (decide (t = term)).
Qed.

(** The rows of a term after the loop of the build: the rows before it,
    then one row per indexed document that holds the term, in corpus
    order. *)
Lemma build_loop_raw db docs term :
  terms_ok db →
  terms_ok (build_loop db docs).1
  ∧ raw_postings (build_loop db docs).1 term
    = raw_postings db term ++ omap (doc_posting term) (indexed_prefix docs).
Proof.
  revert db. induction docs as [|d docs IH]; intros db Hok; simpl.
  - split; [done|]. by rewrite app_nil_r.
  - unfold doc_posting at 1. destruct (doc_content d) as [content|] eqn:Hc.
    + destruct (insert_postings_raw db (doc_id d)
                  (counter (tokenize content)) Hok) as [Hok' Hraw].
      destruct (IH _ Hok') as [Hok'' Hraw'']. split; [done|].
      rewrite Hraw'', Hraw, <- app_assoc. f_equal. csimpl.
      unfold doc_posting at 1. rewrite Hc. simpl.
      rewrite filter_key_get by apply counter_keys_NoDup.
      rewrite counter_get. by case_decide.
    + simpl. split; [done|]. by rewrite app_nil_r.
Qed.

Lemma build_inverted_index_raw db docs term :
  raw_postings (build_inverted_index db docs).1 term
  = omap (doc_posting term) (indexed_prefix docs).
Proof.
  unfold build_inverted_index.
  destruct (build_loop_raw (clear_index db) docs term) as [_ ->].
  - split_and!; simpl; [constructor|by intros ? ?%elem_of_nil..].
  - done.
Qed.

Lemma indexed_prefix_all docs :
  Forall (λ d, is_Some (doc_content d)) docs → indexed_prefix docs = docs.
Proof.
  induction 1 as [|d docs [c Hc] _ IH]; simpl; [done|]. by rewrite Hc, IH.
Qed.

(** X10.  After a build, the posting list of a term holds, for every
    document that the build got to index and whose tokens hold the term,
    the document id with the number of occurrences of the term, in ascending
    order of document id, and nothing else.  When every document has
    content, the build gets to index them all. *)
Theorem X10_build_postings db docs term :
  get_term_postings (build_inverted_index db docs).1 term
  = stable_sort (λ a b : Z * Z, bool_decide (a.1 ≤ b.1))
                (omap (doc_posting term) (indexed_prefix docs))
  ∧ (Forall (λ d, is_Some (doc_content d)) docs → indexed_prefix docs = docs).
Proof.
  split; [|apply indexed_prefix_all].
  by rewrite get_term_postings_raw, build_inverted_index_raw.
Qed.

(** X11.  A build does not depend on what the index held before: from any
    two indexes the same corpus gives the same posting list for every term,
    so a rebuild over an unchanged corpus changes no posting list. *)
Theorem X11_rebuild_same_postings db db' docs term :
  get_term_postings (build_inverted_index db docs).1 term
  = get_term_postings (build_inverted_index db' docs).1 term
  ∧ get_term_postings
      (build_inverted_index (build_inverted_index db docs).1 docs).1 term
    = get_term_postings (build_inverted_index db docs).1 term.
Proof.
  by rewrite !get_term_postings_raw, !build_inverted_index_raw.
Qed.

(** X12.  When the document ids are distinct, the index that a build
    leaves holds one posting per term and document: no posting list names a
    document twice, also when the build stops at a missing content. *)
Theorem X12_built_one_posting_per_document db docs term :
  NoDup (doc_id <$> docs) →
  NoDup (get_term_postings (build_inverted_index db docs).1 term).*1.
Proof.
  intros Hnd. by apply get_term_postings_NoDup, build_inverted_index_wf.
Qed.

Lemma X12_witness :
  NoDup (doc_id <$> ex_corpus)
  ∧ NoDup (get_term_postings
             (build_inverted_index empty_index ex_corpus).1 [98]).*1.
Proof.
  assert (H1 : NoDup (doc_id <$> ex_corpus)) by by_compute.
  split; [done|].
  exact (X12_built_one_posting_per_document empty_index ex_corpus [98] H1).
Defined.

End IndexExtras.

(** * Further properties of the tokenizer *)

Module TokenizerExtras.
Import Tokenizer TokenizerSpec TokenizerFacts.

Lemma lower_char_idem c : lower_char (lower_char c) = lower_char c.
Proof.
  unfold lower_char.
  destruct (bool_decide (65 ≤ c ≤ 90) || bool_decide (1040 ≤ c ≤ 1071))
    eqn:Hup; [|by rewrite Hup].
  apply orb_true_iff in Hup. rewrite !bool_decide_eq_true in Hup.
  assert (bool_decide (65 ≤ c + 32 ≤ 90)
          || bool_decide (1040 ≤ c + 32 ≤ 1071) = false) as ->; [|done].
  apply orb_false_iff. rewrite !bool_decide_eq_false. lia.
Qed.

Lemma lower_char_is_word c :
  is_word_char c = true → is_word_char (lower_char c) = true.
Proof.
  intros Hc%lower_char_word. apply is_word_char_spec.
  unfold is_lower_word_char in Hc. lia.
Qed.

(** A non-empty run of word characters is one token. *)
Lemma tokenize_run w :
  w ≠ [] → Forall (λ c, is_word_char c = true) w →
  tokenize w = [lower_token w].
Proof.
  intros Hne Hw. unfold tokenize, findall.
  rewrite <- (app_nil_r w) at 1. rewrite findall_from_run by done.
  simpl. by destruct w.
Qed.

Lemma findall_from_nil cur text :
  findall_from cur text = []
  ↔ cur = [] ∧ Forall (λ c, is_word_char c = false) text.
Proof.
  revert cur. induction text as [|c text IH]; intros cur; simpl.
  - destruct cur; [done|]. split; [done|]. by intros [? _].
  - destruct (is_word_char c) eqn:Hc.
    + rewrite IH. split.
      * intros [Hcur _]. by destruct cur.
      * intros [_ Hall]. apply Forall_cons in Hall as [? _]. congruence.
    + destruct cur as [|x cur].
      * rewrite IH. split; intros [Hcur Hall]; (split; [done|]).
        -- by constructor.
        -- by apply Forall_cons in Hall as [_ ?].
      * split; [done|by intros [? _]].
Qed.

(** X13.  Every token that [tokenize] returns is already in the form in
    which a query is looked up: lower-casing it again changes nothing, and
    tokenizing it gives back the token alone. *)
Theorem X13_tokens_are_fixed_points text tok :
  tok ∈ tokenize text →
  lower_token tok = tok ∧ tokenize tok = [tok].
Proof.
  unfold tokenize at 1. intros (w & -> & Hw)%list_elem_of_fmap.
  pose proof (findall_from_tokens [] text (Forall_nil_2 _)) as Htok.
  rewrite Forall_forall in Htok. destruct (Htok w Hw) as [Hne Hall].
  assert (Hidem : lower_token (lower_token w) = lower_token w).
  { unfold lower_token. rewrite <- list_fmap_compose.
    apply list_fmap_ext. intros i c _. apply lower_char_idem. }
  split; [done|]. rewrite tokenize_run, Hidem; [done| |].
  - by intros ?%fmap_nil_inv.
  - unfold lower_token. apply Forall_fmap.
    eapply Forall_impl; [exact Hall|]. intros c Hc. by apply lower_char_is_word.
Qed.

Lemma X13_witness :
  [97; 98]%Z ∈ tokenize [65; 66; 32; 67]
  ∧ lower_token [97; 98] = [97; 98]%Z
  ∧ tokenize [97; 98] = [[97; 98]]%Z.
Proof.
  assert (H1 : [97; 98]%Z ∈ tokenize [65; 66; 32; 67]) by by_compute.
  split; [done|].
  exact (X13_tokens_are_fixed_points [65; 66; 32; 67] [97; 98] H1).
Defined.

(** X14.  [tokenize] returns no token exactly when the text holds no word
    character; in particular the empty text has no token. *)
Theorem X14_no_token_iff_no_word_char text :
  tokenize text = [] ↔ Forall (λ c, is_word_char c = false) text.
Proof.
  unfold tokenize, findall. split.
  - intros Hnil%fmap_nil_inv. by apply findall_from_nil in Hnil as [_ ?].
  - intros Hall. by rewrite (proj2 (findall_from_nil [] text) (conj eq_refl Hall)).
Qed.

End TokenizerExtras.

(** * Further properties of the retrieval strategies *)

Lemma sorted_by_score_desc_perm (items : list (Z * Qc)) :
  sorted_by_score_desc items ≡ₚ items.
Proof. apply stable_sort_perm. Qed.

Module SearchExtras.
Import Storage Search MergeSpec ScoreSpec MergeFacts SearchFacts.
Local Open Scope Qc_scope.

Lemma tf_total_notin (pl : list (Z * Z)) d : d ∉ pl.*1 → tf_total pl d = 0.
Proof.
  intros Hd. unfold tf_total. rewrite (sumf_ext _ (λ _, 0)), sumf_zero; [done|].
  intros p Hp. rewrite decide_False; [done|]. intros <-.
  by apply Hd, list_elem_of_fmap_2.
Qed.

(** In a list that holds a document once, the total frequency of the
    document is the frequency of its one posting. *)
Lemma tf_total_tf_of (pl : list (Z * Z)) d :
  NoDup pl.*1 → tf_total pl d = Qc_of_Z (tf_of pl d).
Proof.
  induction pl as [|[k v] pl IH]; intros Hnd.
  - symmetry. exact Z2Qc_inj_0.
  - rewrite fmap_cons in Hnd. apply NoDup_cons in Hnd as [Hk Hnd].
    unfold tf_total, tf_of in *. simpl.
    destruct (decide (k = d)) as [->|Hne]; simpl.
    + change (sumf _ pl) with (tf_total pl d).
      rewrite tf_total_notin by done. ring.
    + rewrite IH by done. ring.
Qed.

Lemma blend_nil pagerank alpha : blend pagerank alpha [] = [].
Proof. unfold blend. destruct pagerank; [by case_decide|done]. Qed.

(** The blend adds to each score the boost of its document and touches
    nothing else. *)
Lemma blend_elem pagerank alpha (results : OD.odict Z Qc) d s :
  (d, s) ∈ blend pagerank alpha results
  ↔ ∃ s0, (d, s0) ∈ results ∧ s = s0 + authority_boost pagerank alpha d.
Proof.
  assert (Hid : (d, s) ∈ results
                ↔ ∃ s0, (d, s0) ∈ results ∧ s = s0 + 0).
  { split.
    - intros Hin. exists s. split; [done|ring].
    - intros (s0 & Hin & ->). by rewrite Qcplus_0_r. }
  unfold blend, authority_boost. destruct pagerank as [pr|]; [|done].
  case_decide as Hpr.
  - subst pr. rewrite lookup_empty. simpl. by rewrite Qcmult_0_r.
  - rewrite list_elem_of_fmap. split.
    + intros ([d0 s0] & [= -> ->] & Hin). by exists s0.
    + intros (s0 & Hin & ->). by exists (d, s0).
Qed.

Section strategies.
Context (lower : str → str).

Lemma intersect_results_blend fuel db q pagerank alpha :
  intersect_results lower fuel db q pagerank alpha
  = blend pagerank alpha <$> intersect_results lower fuel db q None 0.
Proof.
  unfold intersect_results. cbv zeta.
  destruct (bool_decide _ || existsb _ _).
  - simpl. by rewrite blend_nil.
  - by destruct (merge_loop _ _ _ _).
Qed.

Lemma union_scores_blend db q pagerank alpha :
  union_scores lower db q pagerank alpha
  = blend pagerank alpha (union_scores lower db q None 0).
Proof. done. Qed.

Lemma accumulate_get d (pl : list (Z * Z)) (sc : OD.odict Z Qc) :
  NoDup sc.*1 →
  let sc' := foldl (λ sc p, OD.set p.1 (default 0 (OD.get p.1 sc)
                                        + Qc_of_Z p.2) sc) sc pl in
  NoDup sc'.*1
  ∧ default 0 (OD.get d sc') = default 0 (OD.get d sc) + tf_total pl d.
Proof.
  revert sc. induction pl as [|p pl IH]; intros sc Hnd; simpl.
  - split; [done|]. unfold tf_total. simpl. ring.
  - destruct (IH (OD.set p.1 (default 0 (OD.get p.1 sc) + Qc_of_Z p.2) sc))
      as [Hnd' Hget]; [by apply od_set_NoDup|].
    split; [done|]. rewrite Hget, od_get_set. unfold tf_total. simpl.
    destruct (decide (p.1 = d)) as [->|Hne]; simpl; ring.
Qed.

Lemma union_scores_get d db q (sc : OD.odict Z Qc) :
  NoDup sc.*1 →
  let sc' := foldl (λ scores term,
                      foldl (λ sc p, OD.set p.1 (default 0 (OD.get p.1 sc)
                                                 + Qc_of_Z p.2) sc)
                            scores (term_postings lower db term)) sc q in
  NoDup sc'.*1
  ∧ default 0 (OD.get d sc')
    = default 0 (OD.get d sc)
      + sumf (λ t, tf_total (term_postings lower db t) d) q.
Proof.
  revert sc. induction q as [|t q IH]; intros sc Hnd; simpl.
  - split; [done|]. ring.
  - destruct (accumulate_get d (term_postings lower db t) sc Hnd)
      as [Hnd' Hget].
    destruct (IH _ Hnd') as [Hnd'' Hget'']. split; [done|].
    rewrite Hget'', Hget. ring.
Qed.

(** The items of the [scores] dict before the blend. *)
Lemma union_scores_elem db q d s :
  (d, s) ∈ union_scores lower db q None 0
  ↔ (∃ t, t ∈ q ∧ d ∈ (term_postings lower db t).*1)
    ∧ s = sumf (λ t, tf_total (term_postings lower db t) d) q.
Proof.
  rewrite <- (union_scores_keys lower db q None 0 d).
  unfold union_scores, blend.
  destruct (union_scores_get d db q [] (NoDup_nil_2 (A:=Z))) as [Hnd Hget].
  cbv zeta in Hnd, Hget. simpl in Hget. rewrite Qcplus_0_l in Hget.
  split.
  - intros Hin. split; [by apply (list_elem_of_fmap_2 fst) in Hin|].
    apply od_elem_get in Hin; [|done]. rewrite <- Hget, Hin. done.
  - intros [Hk ->]. apply od_get_is_Some in Hk as [s Hs].
    rewrite <- Hget, Hs. simpl. by apply od_get_Some_elem.
Qed.

(** The results of the merge, before the blend, with their scores. *)
Lemma intersect_results_scored db q :
  Forall (λ t, NoDup (term_postings lower db t).*1) q →
  ∃ raw, intersect_results lower (enough_fuel lower db q) db q None 0
         = Some raw
         ∧ ∀ d s, (d, s) ∈ raw →
             (∃ t, t ∈ q ∧ d ∈ (term_postings lower db t).*1)
             ∧ s = sumf (λ t, Qc_of_Z (tf_of (term_postings lower db t) d)) q.
Proof.
  intros Hnd.
  destruct (decide (q = [] ∨ Exists (λ t, term_postings lower db t = []) q))
    as [Hg|Hg].
  - exists []. split; [|by intros ?? ?%elem_of_nil].
    apply intersect_results_guard. rewrite Exists_exists in Hg. tauto.
  - assert (q ≠ [] ∧ ¬ Exists (λ t, term_postings lower db t = []) q)
      as [Hq Hpl] by (split; intros ?; apply Hg; auto).
    rewrite <- Forall_Exists_neg, Forall_forall in Hpl.
    set (pls := term_postings lower db <$> q).
    assert (pls ≠ []) as Hne by (by intros ?%fmap_nil_inv).
    destruct (intersect_results_loop lower
                (λ i r, results_sound pls i r ∧ NoDup r.*1
                        ∧ results_scored pls i r)
                db q None 0 Hq Hpl)
      as (indices & results & Hres & Hlen & (Hsound & Hkeys & Hscored) & _).
    + intros i r i' r' Hlen (Hsound & Hkeys & Hscored) Hs. split_and!.
      * by eapply sound_step.
      * by eapply keys_step.
      * eapply scored_step; [done| |done..]. by apply Forall_fmap.
    + split_and!; [by intros d ?%elem_of_nil|constructor|by intros d s].
    + exists results. split; [done|]. intros d s Hin. split.
      * destruct q as [|t q']; [done|]. exists t. split; [by left|].
        apply (Hsound d); [by apply (list_elem_of_fmap_2 fst) in Hin|].
        apply list_elem_of_fmap_2. by left.
      * apply od_elem_get in Hin; [|done].
        rewrite (Hscored d s Hin). unfold tf_sum, pls. by rewrite sumf_fmap.
Qed.

End strategies.

(** X15.  On every index, query and authority input, [search_by_terms]
    returns [(d, s)] exactly when [d] is in the posting list of some query
    term and [s] is the sum, over the query terms, of the frequencies of
    all postings of [d], plus [alpha * pagerank.get(d, 0)] when an authority
    vector is given. *)
Theorem X15_union_scores (lower : str → str) db q pagerank alpha d s :
  (d, s) ∈ search_by_terms lower db q pagerank alpha
  ↔ (∃ t, t ∈ q ∧ d ∈ (term_postings lower db t).*1)
    ∧ s = sumf (λ t, tf_total (term_postings lower db t) d) q
          + authority_boost pagerank alpha d.
Proof.
  unfold search_by_terms.
  rewrite sorted_by_score_desc_perm, union_scores_blend, blend_elem.
  setoid_rewrite union_scores_elem. split.
  - intros (s0 & [Hk ->] & ->). done.
  - intros [Hk ->]. eauto.
Qed.

(** X16.  When each posting list of the query holds a document once, every
    document that [search_by_documents] returns is returned by
    [search_by_terms] with the same score, with or without authority. *)
Theorem X16_intersection_scores_agree (lower : str → str) db q
    pagerank alpha :
  Forall (λ t, NoDup (term_postings lower db t).*1) q →
  ∃ r, search_by_documents lower db q pagerank alpha = Some r
       ∧ ∀ d s, (d, s) ∈ r
                → (d, s) ∈ search_by_terms lower db q pagerank alpha.
Proof.
  intros Hnd.
  destruct (intersect_results_scored lower db q Hnd) as (raw & Hraw & Hsc).
  unfold search_by_documents, search_by_documents_within.
  rewrite intersect_results_blend, Hraw. simpl. eexists. split; [done|].
  intros d s Hin.
  rewrite sorted_by_score_desc_perm in Hin.
  apply blend_elem in Hin as (s0 & Hin & ->).
  unfold search_by_terms.
  rewrite sorted_by_score_desc_perm, union_scores_blend.
  apply blend_elem. exists s0. split; [|done].
  apply union_scores_elem. destruct (Hsc d s0 Hin) as [Hk ->].
  split; [done|]. apply sumf_ext. intros t Ht.
  symmetry. apply tf_total_tf_of.
  rewrite Forall_forall in Hnd. by apply Hnd.
Qed.

Lemma X16_witness :
  Forall (λ t, NoDup (term_postings Tokenizer.lower_token ex_index t).*1)
         ex_query
  ∧ ∃ r, search_by_documents Tokenizer.lower_token ex_index ex_query None 0
         = Some r
         ∧ ∀ d s, (d, s) ∈ r
             → (d, s) ∈ search_by_terms Tokenizer.lower_token ex_index
                                        ex_query None 0.
Proof.
  assert (H1 : Forall (λ t, NoDup (term_postings Tokenizer.lower_token
                                     ex_index t).*1) ex_query) by by_compute.
  split; [done|].
  exact (X16_intersection_scores_agree Tokenizer.lower_token ex_index
           ex_query None 0 H1).
Defined.

(** X17.  The authority vector never adds or drops a document of
    [search_by_documents]: the list returned with it holds the documents of
    the list returned without it, each with its score raised by
    [alpha * pagerank.get(d, 0)]. *)
Theorem X17_authority_boost (lower : str → str) db q pagerank alpha :
  ∃ r r0,
    search_by_documents lower db q pagerank alpha = Some r
    ∧ search_by_documents lower db q None 0 = Some r0
    ∧ ∀ d s, (d, s) ∈ r
             ↔ ∃ s0, (d, s0) ∈ r0 ∧ s = s0 + authority_boost pagerank alpha d.
Proof.
  destruct (intersect_results_sound lower db q None 0) as (raw & Hraw & _).
  unfold search_by_documents, search_by_documents_within.
  rewrite intersect_results_blend, Hraw. simpl.
  exists (sorted_by_score_desc (blend pagerank alpha raw)),
         (sorted_by_score_desc raw).
  split; [done|]. split; [done|]. intros d s.
  rewrite sorted_by_score_desc_perm, blend_elem.
  by setoid_rewrite sorted_by_score_desc_perm.
Qed.

End SearchExtras.

(** * Facts about the document store *)

Module StoreFacts.
Import DocStore StoreSpec.

Lemma head_filter_elem {A} (P : A → Prop) `{∀ x, Decision (P x)}
    (l : list A) x :
  head (filter P l) = Some x → x ∈ l ∧ P x.
Proof.
  intros Hx. apply head_Some_elem_of in Hx.
  by apply list_elem_of_filter in Hx as [? ?].
Qed.

Lemma head_filter_None {A} (P : A → Prop) `{∀ x, Decision (P x)}
    (l : list A) :
  head (filter P l) = None ↔ Forall (λ x, ¬ P x) l.
Proof.
  induction l as [|y l IH]; [by split|].
  rewrite filter_cons. destruct (decide (P y)) as [Hy|Hy]; simpl.
  - split; [done|]. intros [? _]%Forall_cons. done.
  - rewrite IH, Forall_cons. tauto.
Qed.

Lemma head_filter_app {A} (P : A → Prop) `{∀ x, Decision (P x)}
    (l l' : list A) x :
  head (filter P l) = Some x → head (filter P (l ++ l')) = Some x.
Proof.
  rewrite filter_app. by destruct (filter P l).
Qed.

Lemma head_filter_key {A K} `{EqDecision K} (f : A → K) (l : list A) k x :
  NoDup (f <$> l) →
  head (filter (λ y, f y = k) l) = Some x ↔ x ∈ l ∧ f x = k.
Proof.
  intros Hnd. split; [apply (head_filter_elem (λ y, f y = k))|].
  induction l as [|y l IH]; csimpl in *; intros [Hx Hfx].
  - by apply elem_of_nil in Hx.
  - apply NoDup_cons in Hnd as [Hy Hnd]. rewrite filter_cons.
    destruct (decide (f y = k)) as [Hk|Hk]; simpl.
    + apply elem_of_cons in Hx as [->|Hx]; [done|].
      destruct Hy. rewrite list_elem_of_fmap. exists x. by rewrite Hfx.
    + apply elem_of_cons in Hx as [->|Hx]; [done|]. by apply IH.
Qed.

Lemma find_doc_id_Some s url i :
  find_doc_id s url = Some i →
  ∃ d, d ∈ documents s ∧ doc_url d = url ∧ doc_id d = i.
Proof.
  unfold find_doc_id. intros Hi.
  apply fmap_Some in Hi as (d & Hd & ->).
  apply head_filter_elem in Hd as [? ?]. eauto.
Qed.

Lemma find_doc_id_elem s url i : find_doc_id s url = Some i → i ∈ ids s.
Proof.
  intros (d & Hd & _ & <-)%find_doc_id_Some. by apply list_elem_of_fmap_2.
Qed.

Lemma find_doc_id_None s url : find_doc_id s url = None ↔ url ∉ urls s.
Proof.
  unfold find_doc_id, urls. rewrite fmap_None, head_filter_None.
  rewrite Forall_forall, list_elem_of_fmap. split.
  - intros Hall (d & -> & Hd). by apply (Hall d).
  - intros Hno d Hd Hurl. apply Hno. eauto.
Qed.

Lemma find_doc_id_wf s d :
  NoDup (urls s) → d ∈ documents s →
  find_doc_id s (doc_url d) = Some (doc_id d).
Proof.
  intros Hnd Hd. unfold find_doc_id.
  by rewrite (proj2 (head_filter_key doc_url _ _ d Hnd)).
Qed.

Lemma get_document_wf s d :
  NoDup (ids s) → d ∈ documents s → get_document s (doc_id d) = Some d.
Proof.
  intros Hnd Hd. unfold get_document.
  by rewrite (proj2 (head_filter_key doc_id _ _ d Hnd)).
Qed.

(** A later row does not change what a lookup by url finds. *)
Lemma find_doc_id_app s s' new url i :
  documents s' = documents s ++ new →
  find_doc_id s url = Some i → find_doc_id s' url = Some i.
Proof.
  unfold find_doc_id. intros -> Hi.
  apply fmap_Some in Hi as (d & Hd & ->).
  by rewrite (head_filter_app _ _ _ d).
Qed.

(** ** The schema constraints are kept *)

Lemma wf_empty : store_wf empty_store.
Proof.
  repeat split; simpl; try apply NoDup_nil_2; apply Forall_nil_2.
Qed.

Lemma wf_delete s : store_wf s → store_wf (delete_all s).
Proof.
  intros _. repeat split; simpl; try apply NoDup_nil_2; apply Forall_nil_2.
Qed.

(** Appending a row with the next id and an unknown url. *)
Lemma wf_new_row s url title content :
  store_wf s → url ∉ urls s →
  store_wf {| documents :=
                documents s ++ [Document (doc_seq s + 1) url title content];
              links := links s;
              doc_seq := doc_seq s + 1 |}.
Proof.
  intros (Hid & Hurl & Hseq & Hfk) Hnew.
  assert (doc_seq s + 1 ∉ ids s) as Hfresh.
  { intros (d & Hd & Hin)%list_elem_of_fmap.
    rewrite Forall_forall in Hseq. specialize (Hseq d Hin). lia. }
  unfold store_wf, ids, urls in *. simpl. rewrite !fmap_app. simpl.
  split_and!.
  - apply NoDup_app. split_and!; [done| |apply NoDup_singleton].
    intros i Hi ->%list_elem_of_singleton. done.
  - apply NoDup_app. split_and!; [done| |apply NoDup_singleton].
    intros u Hu ->%list_elem_of_singleton. done.
  - apply Forall_app. split.
    + eapply Forall_impl; [done|]. simpl. intros. lia.
    + apply Forall_singleton. simpl. lia.
  - eapply Forall_impl; [done|]. simpl. intros l [? ?].
    rewrite !elem_of_app. tauto.
Qed.

Lemma update_ids (g : document → document) (docs : list document) :
  (∀ d, doc_id (g d) = doc_id d) →
  doc_id <$> (g <$> docs) = doc_id <$> docs.
Proof.
  intros Hg. rewrite <- list_fmap_compose. apply list_fmap_ext.
  intros _ d _. apply Hg.
Qed.

Lemma update_urls (g : document → document) (docs : list document) :
  (∀ d, doc_url (g d) = doc_url d) →
  doc_url <$> (g <$> docs) = doc_url <$> docs.
Proof.
  intros Hg. rewrite <- list_fmap_compose. apply list_fmap_ext.
  intros _ d _. apply Hg.
Qed.

Lemma upsert_row_ids s url title content i :
  find_doc_id s url = Some i →
  ids (upsert_row s url title content) = ids s
  ∧ urls (upsert_row s url title content) = urls s.
Proof.
  intros Hi. unfold upsert_row, ids, urls. rewrite Hi. simpl. split.
  - apply update_ids. intros d. by destruct (decide _).
  - apply update_urls. intros d. by destruct (decide _).
Qed.

Lemma wf_upsert s url title content :
  store_wf s → store_wf (upsert_row s url title content).
Proof.
  intros Hwf. destruct (find_doc_id s url) as [i|] eqn:Hi.
  - destruct (upsert_row_ids s url title content i Hi) as [Hids Hurls].
    destruct Hwf as (Hid & Hurl & Hseq & Hfk).
    unfold store_wf. rewrite Hids, Hurls. split_and!; [done..| |].
    + unfold upsert_row. rewrite Hi. simpl. apply Forall_fmap.
      eapply Forall_impl; [done|]. simpl. intros d Hd.
      destruct (decide _); simpl; lia.
    + unfold upsert_row. rewrite Hi. simpl. done.
  - unfold upsert_row. rewrite Hi. apply wf_new_row; [done|].
    by apply find_doc_id_None.
Qed.

Lemma target_id_spec s url :
  store_wf s →
  store_wf (target_id s url).1
  ∧ find_doc_id (target_id s url).1 url = Some (target_id s url).2
  ∧ links (target_id s url).1 = links s
  ∧ ∃ new, documents (target_id s url).1 = documents s ++ new
           ∧ Forall (λ d, placeholder d ∧ doc_url d = url ∧ url ∉ urls s) new.
Proof.
  intros Hwf. unfold target_id.
  destruct (find_doc_id s url) as [i|] eqn:Hi; simpl.
  - split_and!; [done..|]. exists []. by rewrite app_nil_r.
  - pose proof (proj1 (find_doc_id_None s url) Hi) as Hnew.
    split_and!.
    + by apply wf_new_row.
    + unfold find_doc_id. simpl. rewrite filter_app.
      unfold find_doc_id in Hi. apply fmap_None in Hi.
      destruct (filter _ (documents s)); [|done].
      by rewrite filter_cons, decide_True.
    + done.
    + eexists. split; [done|]. apply Forall_singleton. by repeat split.
Qed.

Lemma wf_insert_link_row s from_id to_id s' :
  store_wf s → insert_link_row s from_id to_id = Some s' →
  store_wf s' ∧ documents s' = documents s ∧ doc_seq s' = doc_seq s
  ∧ links s' = links s ++ [(from_id, to_id)]
  ∧ from_id ∈ ids s.
Proof.
  intros (Hid & Hurl & Hseq & Hfk). unfold insert_link_row.
  destruct (decide _) as [[Hf Ht]|]; [|done]. intros [= <-].
  split_and!; try done. unfold store_wf, ids, urls. simpl.
  split_and!; [done..|]. apply Forall_app. split; [done|].
  by apply Forall_singleton.
Qed.

Section insert_links.
Context (strip : str → str).

Lemma link_targets_cons url to_urls :
  link_targets strip (url :: to_urls)
  = if decide (strip url = []) then link_targets strip to_urls
    else strip url :: link_targets strip to_urls.
Proof.
  unfold link_targets. csimpl. rewrite filter_cons.
  destruct (decide (strip url = [])) as [->|Hu].
  - by rewrite decide_False by (by intros ?).
  - by rewrite decide_True.
Qed.

Lemma wf_insert_links s from_id to_urls :
  store_wf s → store_wf (view (insert_links strip s from_id to_urls)).
Proof.
  revert s. induction to_urls as [|url to_urls IH]; intros s Hwf; [done|].
  simpl. destruct (decide (strip url = [])); [by apply IH|].
  destruct (target_id_spec s (strip url) Hwf) as (Hwf1 & _).
  destruct (target_id s (strip url)) as [s1 to_id]. simpl in Hwf1.
  destruct (insert_link_row s1 from_id to_id) as [s2|] eqn:H2; [|done].
  apply IH. by eapply wf_insert_link_row.
Qed.

Lemma reachable_wf s : reachable strip s → store_wf s.
Proof.
  induction 1 as [|s _ IH|s url title content _ IH|s from_id to_urls _ IH].
  - apply wf_empty.
  - by apply wf_delete.
  - by apply wf_upsert.
  - by apply wf_insert_links.
Qed.

(** With a source that is a document, [insert_links] cannot fail: it adds
    one link per target url, in order, and only placeholder rows. *)
Lemma insert_links_commits s from_id to_urls :
  store_wf s → from_id ∈ ids s →
  ∃ s' tos new,
    insert_links strip s from_id to_urls = Committed s'
    ∧ links s' = links s ++ (pair from_id <$> tos)
    ∧ Forall2 (λ u t, find_doc_id s' u = Some t)
              (link_targets strip to_urls) tos
    ∧ documents s' = documents s ++ new
    ∧ Forall (λ d, placeholder d ∧ doc_url d ∈ link_targets strip to_urls
                   ∧ doc_url d ∉ urls s) new.
Proof.
  revert s. induction to_urls as [|url to_urls IH]; intros s Hwf Hfrom.
  { exists s, [], []. simpl. rewrite !app_nil_r.
    split_and!; try done; apply Forall2_nil_2. }
  simpl. rewrite link_targets_cons.
  destruct (decide (strip url = [])) as [Hu|Hu]; [by apply IH|].
  destruct (target_id_spec s (strip url) Hwf)
    as (Hwf1 & Hfind1 & Hl1 & new1 & Hd1 & Hnew1).
  destruct (target_id s (strip url)) as [s1 to_id]. simpl in *.
  assert (from_id ∈ ids s1) as Hfrom1.
  { unfold ids. rewrite Hd1, fmap_app, elem_of_app. by left. }
  pose proof (find_doc_id_elem _ _ _ Hfind1) as Hto1.
  unfold insert_link_row. rewrite decide_True by done.
  set (s2 := {| documents := documents s1;
                links := links s1 ++ [(from_id, to_id)];
                doc_seq := doc_seq s1 |}).
  assert (store_wf s2 ∧ documents s2 = documents s1) as [Hwf2 Hd2].
  { destruct (wf_insert_link_row s1 from_id to_id s2 Hwf1) as (? & ? & _).
    - unfold insert_link_row. by rewrite decide_True.
    - done. }
  destruct (IH s2 Hwf2) as (s' & tos & new & Hrun & Hl & Hfind & Hd & Hnew).
  { unfold ids. by rewrite Hd2. }
  exists s', (to_id :: tos), (new1 ++ new). split_and!.
  - done.
  - rewrite Hl. simpl. rewrite Hl1, <- app_assoc. done.
  - constructor; [|done].
    apply (find_doc_id_app s2 s' new); [done|].
    unfold find_doc_id. rewrite Hd2. apply Hfind1.
  - rewrite Hd, Hd2, Hd1. by rewrite app_assoc.
  - apply Forall_app. split.
    + eapply Forall_impl; [done|]. simpl. intros d (Hp & -> & Hno).
      split_and!; [done|by left|done].
    + eapply Forall_impl; [done|]. simpl. intros d (Hp & Hin & Hno).
      split_and!; [done|by right|].
      intros Hs. apply Hno. unfold urls in *.
      rewrite Hd2, Hd1, fmap_app, elem_of_app. by left.
Qed.

End insert_links.
End StoreFacts.

(** * Properties of the document store *)

Module StoreExtras.
Import DocStore StoreSpec StoreFacts.

Lemma get_document_None s j : get_document s j = None ↔ j ∉ ids s.
Proof.
  unfold get_document, ids. rewrite head_filter_None.
  rewrite Forall_forall, list_elem_of_fmap. split.
  - intros Hall (d & -> & Hd). by apply (Hall d).
  - intros Hno d Hd Hid. apply Hno. eauto.
Qed.

(** X18.  In a store that meets the schema constraints, [upsert_document]
    returns the id under which [get_document] then finds exactly the row
    [(id, url, title, content)]; a known url keeps its id, a new url gets
    an id that no document had, and no other document and no link
    changes. *)
Theorem X18_upsert_document_round_trip s url title content :
  store_wf s →
  ∃ id,
    (upsert_document s url title content).2 = Some id
    ∧ get_document (upsert_document s url title content).1 id
      = Some (Document id url title content)
    ∧ (∀ i, find_doc_id s url = Some i → id = i)
    ∧ (find_doc_id s url = None → id ∉ ids s)
    ∧ (∀ j, j ≠ id →
            get_document (upsert_document s url title content).1 j
            = get_document s j)
    ∧ get_links (upsert_document s url title content).1 = get_links s.
Proof.
  intros Hwf. pose proof (wf_upsert s url title content Hwf) as Hwf'.
  unfold upsert_document. simpl.
  destruct (find_doc_id s url) as [i|] eqn:Hi.
  - destruct (find_doc_id_Some _ _ _ Hi) as (d0 & Hd0 & Hu0 & Hi0).
    destruct (upsert_row_ids s url title content i Hi) as [Hids Hurls].
    set (upd := λ d, if decide (doc_url d = url)
                     then {| doc_id := doc_id d; doc_url := doc_url d;
                             doc_title := title; doc_content := content |}
                     else d).
    assert (documents (upsert_row s url title content)
            = upd <$> documents s) as Hdocs.
    { unfold upsert_row. by rewrite Hi. }
    assert (upd d0 = Document i url title content) as Hupd0.
    { unfold upd. rewrite decide_True by done. by rewrite Hu0, Hi0. }
    assert (Document i url title content
            ∈ documents (upsert_row s url title content)) as Hin.
    { rewrite Hdocs, <- Hupd0. by apply list_elem_of_fmap_2. }
    destruct Hwf' as (Hid' & Hurl' & _). destruct Hwf as (Hid & Hurl & _).
    exists i. split_and!.
    + apply (find_doc_id_wf _ _ Hurl' Hin).
    + apply (get_document_wf _ _ Hid' Hin).
    + by intros ? [= ->].
    + done.
    + intros j Hj. destruct (get_document s j) as [d|] eqn:Hd.
      * apply (head_filter_key doc_id _ _ _ Hid) in Hd as [Hd Hdj].
        assert (upd d = d) as Hsame.
        { unfold upd. destruct (decide (doc_url d = url)) as [Hdu|]; [|done].
          destruct Hj. rewrite <- Hdj, <- Hi0. f_equal.
          apply (IndexBuilderFacts.NoDup_fmap_eq doc_url (documents s));
            [done..|congruence]. }
        rewrite <- Hdj. apply get_document_wf; [done|].
        rewrite Hdocs, <- Hsame. by apply list_elem_of_fmap_2.
      * apply get_document_None. rewrite Hids. by apply get_document_None.
    + unfold get_links, upsert_row. by rewrite Hi.
  - assert (documents (upsert_row s url title content)
            = documents s ++ [Document (doc_seq s + 1) url title content])
      as Hdocs.
    { unfold upsert_row. by rewrite Hi. }
    assert (Document (doc_seq s + 1) url title content
            ∈ documents (upsert_row s url title content)) as Hin.
    { rewrite Hdocs, elem_of_app. right. by apply list_elem_of_singleton. }
    destruct Hwf' as (Hid' & Hurl' & _). destruct Hwf as (Hid & Hurl & Hseq & _).
    exists (doc_seq s + 1). split_and!.
    + apply (find_doc_id_wf _ _ Hurl' Hin).
    + apply (get_document_wf _ _ Hid' Hin).
    + done.
    + intros _ (d & Hd & Hdin)%list_elem_of_fmap.
      rewrite Forall_forall in Hseq. specialize (Hseq d Hdin). lia.
    + intros j Hj. unfold get_document. rewrite Hdocs, filter_app.
      rewrite (filter_cons _ (Document _ _ _ _)), decide_False by (simpl; congruence).
      by rewrite filter_nil, app_nil_r.
    + unfold get_links, upsert_row. by rewrite Hi.
Qed.

Lemma X18_witness :
  store_wf ex_store
  ∧ ∃ id,
      (upsert_document ex_store [97] [66] None).2 = Some id
      ∧ get_document (upsert_document ex_store [97] [66] None).1 id
        = Some (Document id [97] [66] None)
      ∧ (∀ i, find_doc_id ex_store [97] = Some i → id = i)
      ∧ (find_doc_id ex_store [97] = None → id ∉ ids ex_store)
      ∧ (∀ j, j ≠ id →
              get_document (upsert_document ex_store [97] [66] None).1 j
              = get_document ex_store j)
      ∧ get_links (upsert_document ex_store [97] [66] None).1
        = get_links ex_store.
Proof.
  assert (store_wf ex_store) as Hwf by (apply wf_upsert, wf_empty).
  split; [done|]. by apply (X18_upsert_document_round_trip ex_store).
Defined.

(** X19.  Every store that the functions of [storage.py] lead to from a
    new database meets the schema constraints: ids and urls are distinct, no
    id is beyond the counter, both ends of every link are documents; and
    every row is found by its id and by its url. *)
Theorem X19_reachable_store_consistent strip s :
  reachable strip s →
  store_wf s
  ∧ ∀ d, d ∈ get_all_documents s →
         get_document s (doc_id d) = Some d
         ∧ find_doc_id s (doc_url d) = Some (doc_id d).
Proof.
  intros Hwf%reachable_wf. split; [done|]. intros d Hd.
  destruct Hwf as (Hid & Hurl & _). split.
  - by apply get_document_wf.
  - by apply find_doc_id_wf.
Qed.

Lemma X19_witness :
  let s := view (insert_links ex_strip ex_store 1 ex_urls) in
  store_wf s
  ∧ ∀ d, d ∈ get_all_documents s →
         get_document s (doc_id d) = Some d
         ∧ find_doc_id s (doc_url d) = Some (doc_id d).
Proof.
  apply (X19_reachable_store_consistent ex_strip).
  apply reach_links, reach_upsert, reach_empty.
Defined.

(** X20.  When the source is a document, [insert_links] ends with a
    commit: it adds one link per url that is not blank, in order, from the
    source to the document that the stripped url then names; the documents
    it adds are placeholders, with an empty title and an empty content, for
    target urls that were unknown, and the documents that were there stay as
    they are. *)
Theorem X20_insert_links_existing_source strip s from_id to_urls :
  store_wf s → from_id ∈ ids s →
  ∃ s' tos new,
    insert_links strip s from_id to_urls = Committed s'
    ∧ get_links s' = get_links s ++ (pair from_id <$> tos)
    ∧ Forall2 (λ u t, find_doc_id s' u = Some t)
              (link_targets strip to_urls) tos
    ∧ get_all_documents s' = get_all_documents s ++ new
    ∧ Forall (λ d, placeholder d ∧ doc_url d ∈ link_targets strip to_urls
                   ∧ doc_url d ∉ urls s) new.
Proof. apply insert_links_commits. Qed.

Lemma X20_witness :
  store_wf ex_store ∧ 1 ∈ ids ex_store
  ∧ ∃ s' tos new,
      insert_links ex_strip ex_store 1 ex_urls = Committed s'
      ∧ get_links s' = get_links ex_store ++ (pair 1 <$> tos)
      ∧ Forall2 (λ u t, find_doc_id s' u = Some t)
                (link_targets ex_strip ex_urls) tos
      ∧ get_all_documents s' = get_all_documents ex_store ++ new
      ∧ Forall (λ d, placeholder d
                     ∧ doc_url d ∈ link_targets ex_strip ex_urls
                     ∧ doc_url d ∉ urls ex_store) new.
Proof.
  assert (store_wf ex_store) as Hwf by (apply wf_upsert, wf_empty).
  assert (1 ∈ ids ex_store) as Hin by (vm_compute; by left).
  split_and!; [done..|].
  by apply (X20_insert_links_existing_source ex_strip ex_store 1 ex_urls).
Defined.

Example ex_insert_links :
  insert_links ex_strip ex_store 1 ex_urls
  = Committed {| documents := [Document 1 [97] [65] (Some [120]);
                               Document 2 [98] [] (Some [])];
                 links := [(1, 2); (1, 1)];
                 doc_seq := 2 |}.
Proof. reflexivity. Qed.

(** X21.  [insert_links] raises [IntegrityError] exactly when some url is
    not blank and the source is no document, unless the first such url is
    unknown and the source is the very id that its placeholder gets.  When
    it raises, no link has been added.  When every url is blank, the store
    stays as it is, whatever the source. *)
Theorem X21_insert_links_integrity_error strip s from_id to_urls :
  store_wf s →
  ((∃ v, insert_links strip s from_id to_urls = IntegrityError v)
   ↔ ∃ u us, link_targets strip to_urls = u :: us
             ∧ (from_id ∉ ids s)
             ∧ ¬ ((u ∉ urls s) ∧ from_id = doc_seq s + 1))
  ∧ (∀ v, insert_links strip s from_id to_urls = IntegrityError v →
          get_links v = get_links s)
  ∧ (link_targets strip to_urls = [] →
     insert_links strip s from_id to_urls = Committed s).
Proof.
  intros Hwf. induction to_urls as [|url to_urls IH].
  { simpl. split_and!; [|done..]. split; [by intros [? ?]|].
    by intros (? & ? & ? & _). }
  simpl. rewrite link_targets_cons.
  destruct (decide (strip url = [])) as [Hu|Hu]; [done|].
  destruct (decide (from_id ∈ ids s)) as [Hfrom|Hfrom].
  { destruct (insert_links_commits strip s from_id (url :: to_urls) Hwf Hfrom)
      as (s' & ? & ? & Hrun & _).
    simpl in Hrun. rewrite decide_False in Hrun by done. rewrite Hrun.
    split_and!; [|done..]. split; [by intros [? ?]|].
    by intros (? & ? & _ & ? & _). }
  destruct (target_id_spec s (strip url) Hwf)
    as (Hwf1 & Hfind1 & Hl1 & new1 & Hd1 & Hnew1).
  unfold target_id in *.
  destruct (find_doc_id s (strip url)) as [to_id|] eqn:Hfind; simpl in *.
  - unfold insert_link_row. rewrite decide_False by (intros [? _]; done).
    split_and!; [|by intros ? [= <-]|done].
    split; [|by eauto]. intros _. exists (strip url), (link_targets strip to_urls).
    split_and!; [done..|]. intros [Hno _].
    by apply find_doc_id_None in Hno; rewrite Hfind in Hno.
  - apply find_doc_id_None in Hfind.
    set (s1 := {| documents :=
                    documents s ++ [Document (doc_seq s + 1) (strip url) []
                                             (Some [])];
                  links := links s;
                  doc_seq := doc_seq s + 1 |}) in *.
    assert (from_id ∈ ids s1 ↔ from_id = doc_seq s + 1) as Hiff.
    { unfold ids. simpl. rewrite fmap_app, elem_of_app. simpl.
      rewrite list_elem_of_singleton. unfold ids in Hfrom. tauto. }
    destruct (insert_link_row s1 from_id (doc_seq s + 1)) as [s2|] eqn:H2.
    + destruct (wf_insert_link_row _ _ _ _ Hwf1 H2)
        as (Hwf2 & Hd2 & _ & _ & Hfrom1).
      destruct (insert_links_commits strip s2 from_id to_urls Hwf2)
        as (s' & ? & ? & Hrun & _).
      { unfold ids. by rewrite Hd2. }
      rewrite Hrun. split_and!; [|done..]. split; [by intros [? ?]|].
      intros (? & ? & [= <- _] & _ & Hno). destruct Hno.
      split; [done|]. by apply Hiff.
    + split_and!; [|by intros ? [= <-]|done].
      split; [|by eauto]. intros _. exists (strip url), (link_targets strip to_urls).
      split_and!; [done..|]. intros [_ Heq].
      apply Hiff in Heq. unfold insert_link_row in H2.
      rewrite decide_True in H2; [done|]. split; [done|].
      unfold ids. simpl. rewrite fmap_app, elem_of_app. right.
      by apply list_elem_of_singleton.
Qed.

Lemma X21_witness :
  store_wf ex_store
  ∧ ((∃ v, insert_links ex_strip ex_store 7 ex_urls = IntegrityError v)
     ↔ ∃ u us, link_targets ex_strip ex_urls = u :: us
               ∧ (7 ∉ ids ex_store)
               ∧ ¬ ((u ∉ urls ex_store) ∧ 7 = doc_seq ex_store + 1))
  ∧ (∀ v, insert_links ex_strip ex_store 7 ex_urls = IntegrityError v →
          get_links v = get_links ex_store)
  ∧ (link_targets ex_strip ex_urls = [] →
     insert_links ex_strip ex_store 7 ex_urls = Committed ex_store).
Proof.
  assert (store_wf ex_store) as Hwf by (apply wf_upsert, wf_empty).
  split; [done|].
  by apply (X21_insert_links_integrity_error ex_strip ex_store 7 ex_urls).
Defined.

(** A source that is no document: the placeholder of the first url is in
    the tables that the connection sees, no link is.  With the source 2,
    the id that this placeholder gets, the call goes through. *)
Example ex_insert_links_error :
  insert_links ex_strip ex_store 7 ex_urls
  = IntegrityError {| documents := [Document 1 [97] [65] (Some [120]);
                                    Document 2 [98] [] (Some [])];
                      links := [];
                      doc_seq := 2 |}
  ∧ insert_links ex_strip ex_store 2 ex_urls
    = Committed {| documents := [Document 1 [97] [65] (Some [120]);
                                 Document 2 [98] [] (Some [])];
                   links := [(2, 2); (2, 1)];
                   doc_seq := 2 |}.
Proof. split; reflexivity. Qed.

(** X22.  On the documents and links of every store that the functions of
    [storage.py] lead to, as long as there is a document, both PageRank
    strategies return the same vector, and its ranks sum to exactly 1. *)
Theorem X22_stored_graph_rank_sum strip s iterations damping :
  reachable strip s → get_all_documents s ≠ [] →
  ∃ ranks,
    MapReduce.pagerank_mapreduce (get_all_documents s) (get_links s)
                                 iterations damping = Some ranks
    ∧ Pregel.pagerank_pregel (get_all_documents s) (get_links s)
                             iterations damping = ranks
    ∧ MapReduce.rank_sum (ids s) ranks = 1%Qc.
Proof.
  intros (Hid & _ & _ & Hfk)%reachable_wf Hne.
  destruct (RankExtras.mapreduce_rank_sum (get_all_documents s) (get_links s)
              iterations damping Hne Hid) as (ranks & Hr & Hsum).
  { eapply Forall_impl; [done|]. by intros l [_ ?]. }
  exists ranks. split_and!; [done| |done].
  pose proof (PregelFacts.pregel_eq_mapreduce (get_all_documents s)
                (get_links s) iterations damping Hid) as Heq.
  congruence.
Qed.

Lemma X22_witness :
  let s := view (insert_links ex_strip ex_store 1 ex_urls) in
  ∃ ranks,
    MapReduce.pagerank_mapreduce (get_all_documents s) (get_links s)
                                 20 ex_damping = Some ranks
    ∧ Pregel.pagerank_pregel (get_all_documents s) (get_links s)
                             20 ex_damping = ranks
    ∧ MapReduce.rank_sum (ids s) ranks = 1%Qc.
Proof.
  apply (X22_stored_graph_rank_sum ex_strip).
  - apply reach_links, reach_upsert, reach_empty.
  - vm_compute. discriminate.
Defined.

Lemma filled_content strip s :
  filled strip s → Forall (λ d, is_Some (doc_content d)) (documents s).
Proof.
  induction 1 as [|s _ IH|s url title content _ IH|s from_id to_urls _ IH].
  - apply Forall_nil_2.
  - apply Forall_nil_2.
  - simpl. unfold upsert_row. destruct (find_doc_id s url); simpl.
    + apply Forall_fmap. eapply Forall_impl; [done|]. simpl. intros d Hd.
      by destruct (decide _).
    + apply Forall_app. split; [done|]. by apply Forall_singleton.
  - revert s IH. clear. induction to_urls as [|url to_urls IHu];
      intros s Hs; [done|].
    simpl. destruct (decide (strip url = [])); [by apply IHu|].
    assert (Forall (λ d, is_Some (doc_content d))
                   (documents (target_id s (strip url)).1)) as H1.
    { unfold target_id. destruct (find_doc_id s (strip url)); simpl; [done|].
      apply Forall_app. split; [done|]. by apply Forall_singleton. }
    destruct (target_id s (strip url)) as [s1 to_id]. simpl in H1.
    unfold insert_link_row. destruct (decide _); [|done]. by apply IHu.
Qed.

Lemma filled_reachable strip s : filled strip s → reachable strip s.
Proof. induction 1; by constructor. Qed.

(** X23.  When every call of [upsert_document] is given a content, the
    store has no row without content, placeholders included, so that
    [build_inverted_index] gets through all documents and returns without
    an exception, from every index. *)
Theorem X23_filled_store_indexable strip s db :
  filled strip s →
  reachable strip s
  ∧ (IndexBuilder.build_inverted_index db (get_all_documents s)).2
    = IndexBuilder.Returned
  ∧ BuildSpec.indexed_prefix (get_all_documents s) = get_all_documents s.
Proof.
  intros Hs. pose proof (filled_content strip s Hs) as Hc.
  split_and!.
  - by apply filled_reachable.
  - by apply IndexBuilderFacts.build_loop_returns.
  - by apply IndexExtras.indexed_prefix_all.
Qed.

Lemma X23_witness :
  let s := view (insert_links ex_strip ex_store 1 ex_urls) in
  reachable ex_strip s
  ∧ (IndexBuilder.build_inverted_index Storage.empty_index
       (get_all_documents s)).2 = IndexBuilder.Returned
  ∧ BuildSpec.indexed_prefix (get_all_documents s) = get_all_documents s.
Proof.
  apply (X23_filled_store_indexable ex_strip).
  apply filled_links, filled_upsert, filled_empty.
Defined.

End StoreExtras.

(** * Facts about the MapReduce matrix product *)

Module MatrixFacts.
Import Lab2 MatrixSpec.

Lemma mapM_ext_Some {A B} (f : A → option B) (g : A → B) (l : list A) :
  (∀ x, x ∈ l → f x = Some (g x)) → mapM f l = Some (g <$> l).
Proof.
  intros Hf. apply mapM_Some. apply Forall2_fmap_r, Forall_Forall2_diag.
  apply Forall_forall. intros x Hx. by apply Hf.
Qed.

Lemma sum_foldr (l : list Z) : sum l = foldr Z.add 0 l.
Proof.
  unfold sum. assert (∀ a, foldl Z.add a l = a + foldr Z.add 0 l) as H.
  { induction l as [|x l IH]; intros a; simpl; [lia|]. rewrite IH. lia. }
  rewrite H. lia.
Qed.

Lemma od_set_new {K V} `{EqDecision K} (k : K) (v : V) (d : OD.odict K V) :
  k ∉ d.*1 → OD.set k v d = d ++ [(k, v)].
Proof.
  induction d as [|[k' v'] d IH]; csimpl; intros Hk; [done|].
  apply not_elem_of_cons in Hk as [Hne Hk].
  rewrite decide_False by done. by rewrite IH.
Qed.

(** A loop that sets distinct new keys appends them in order. *)
Lemma od_fold_new {K V W} `{EqDecision K}
    (h : OD.odict K W → K → V → W) (h' : K → V → W)
    (items : list (K * V)) (acc : OD.odict K W) :
  (∀ d k v, k ∉ d.*1 → h d k v = h' k v) →
  NoDup (acc.*1 ++ items.*1) →
  foldl (λ d '(k, v), OD.set k (h d k v) d) acc items
  = acc ++ ((λ '(k, v), (k, h' k v)) <$> items).
Proof.
  intros Hh. revert acc.
  induction items as [|[k v] items IH]; intros acc Hnd; csimpl.
  - by rewrite app_nil_r.
  - assert (k ∉ acc.*1) as Hk.
    { apply NoDup_app in Hnd as (_ & Hdisj & _).
      intros Hin. apply (Hdisj k Hin). by left. }
    rewrite Hh, od_set_new by done. rewrite IH.
    + by rewrite <- app_assoc.
    + rewrite fmap_app. csimpl. by rewrite <- app_assoc.
Qed.

Lemma elem_of_grid {V} (f : nat → nat → V) (rows cols : list nat) x :
  x ∈ concat ((λ i, (λ j, ((i, j), f i j)) <$> cols) <$> rows)
  ↔ ∃ i j, i ∈ rows ∧ j ∈ cols ∧ x = ((i, j), f i j).
Proof.
  induction rows as [|r rows IH]; csimpl.
  - split; [by intros ?%elem_of_nil|].
    by intros (i & j & ?%elem_of_nil & _).
  - rewrite elem_of_app, IH, list_elem_of_fmap. split.
    + intros [(j & -> & Hj)|(i & j & Hi & Hj & ->)].
      * exists r, j. split_and!; [by left|done..].
      * exists i, j. split_and!; [by right|done..].
    + intros (i & j & [->|Hi]%elem_of_cons & Hj & ->).
      * left. by exists j.
      * right. by exists i, j.
Qed.

Lemma NoDup_grid {V} (f : nat → nat → V) (rows cols : list nat) :
  NoDup rows → NoDup cols →
  NoDup (concat ((λ i, (λ j, ((i, j), f i j)) <$> cols) <$> rows)).*1.
Proof.
  intros Hr Hc. induction Hr as [|r rows Hr Hrows IH]; csimpl;
    [apply NoDup_nil_2|].
  rewrite fmap_app. apply NoDup_app. split_and!.
  - rewrite <- list_fmap_compose. apply NoDup_fmap_2; [|done].
    intros j j' [=]. done.
  - intros k (x & -> & (j & -> & Hj)%list_elem_of_fmap)%list_elem_of_fmap.
    intros (y & Hk & (i' & j' & Hi' & _ & ->)%elem_of_grid)%list_elem_of_fmap.
    simpl in Hk. injection Hk as -> _. done.
  - done.
Qed.

Lemma width_lookup B :
  B ≠ [] → ∃ b0, B !! 0%nat = Some b0 ∧ width B = length b0.
Proof. destruct B as [|b0 B]; [done|]. intros _. by exists b0. Qed.

(** What [multiplicable] gives for each cell that the code computes. *)
Lemma multiplicable_cells A B :
  multiplicable A B →
  B ≠ []
  ∧ ∀ i j row, A !! i = Some row → (j < width B)%nat →
               (length B ≤ length row)%nat
               ∧ Forall (λ r, (j < length r)%nat) B.
Proof.
  intros [HB [->|[Hw|[HA HBr]]]]; (split; [done|]); intros i j row Hi Hj.
  - done.
  - lia.
  - split.
    + rewrite Forall_lookup in HA. eauto.
    + eapply Forall_impl; [done|]. simpl. lia.
Qed.

Lemma partials_Some A B i j row :
  A !! i = Some row → (length B ≤ length row)%nat →
  Forall (λ r, (j < length r)%nat) B →
  partials A B i j = Some (zip_with Z.mul row (column B j)).
Proof.
  intros Hi Hlen Hj. unfold partials. apply mapM_Some.
  apply Forall2_same_length_lookup_2.
  - rewrite length_seq, length_zip_with. unfold column.
    rewrite length_fmap. lia.
  - intros k x y [-> Hk]%lookup_seq Hy. simpl in *.
    rewrite lookup_zip_with in Hy. unfold column in Hy.
    rewrite list_lookup_fmap in Hy.
    unfold entry in *. rewrite Hi. simpl.
    destruct (row !! k) as [a|] eqn:Ha; simpl in *; [|done].
    destruct (B !! k) as [r|] eqn:Hr; simpl in *; [|done].
    rewrite Forall_lookup in Hj. specialize (Hj k r Hr).
    apply lookup_lt_is_Some in Hj as [b Hb]. rewrite Hb in *.
    simpl in *. congruence.
Qed.

Lemma mapper_matrix_cells A B :
  B ≠ [] →
  (∀ i j row, A !! i = Some row → (j < width B)%nat →
              (length B ≤ length row)%nat
              ∧ Forall (λ r, (j < length r)%nat) B) →
  mapper_matrix A B = Some (cells A B).
Proof.
  intros HB Hok. unfold mapper_matrix, cells.
  destruct (width_lookup B HB) as (b0 & Hb0 & Hw).
  rewrite (mapM_ext_Some _
             (λ i, (λ j, ((i, j),
                          zip_with Z.mul (default [] (A !! i)) (column B j)))
                     <$> seq 0 (width B))); [done|].
  intros i [_ Hi]%elem_of_seq. simpl in Hi.
  apply lookup_lt_is_Some in Hi as [row Hrow].
  cbv beta. rewrite Hb0. simpl. rewrite <- Hw. apply mapM_ext_Some.
  intros j [_ Hj]%elem_of_seq. simpl in Hj. cbv beta.
  destruct (Hok i j row Hrow Hj) as [Hlen Hcol].
  rewrite (partials_Some _ _ _ _ row) by done. simpl. by rewrite Hrow.
Qed.

Lemma shuffle_matrix_distinct mapped :
  NoDup mapped.*1 → shuffle_matrix mapped = mapped.
Proof.
  intros Hnd. unfold shuffle_matrix. etrans.
  { apply (od_fold_new (λ d k v, default [] (OD.get k d) ++ v) (λ _ v, v)).
    - intros d k v Hk. by rewrite (proj2 (od_get_None k d)).
    - done. }
  simpl. clear. induction mapped as [|[??] ? IH]; csimpl; congruence.
Qed.

Lemma reducer_matrix_distinct grouped :
  NoDup grouped.*1 →
  reducer_matrix grouped
  = (λ x : nat * nat * list Z, (x.1, sum x.2)) <$> grouped.
Proof.
  intros Hnd. unfold reducer_matrix. etrans.
  { by apply (od_fold_new (λ _ _ v, sum v) (λ _ v, sum v)). }
  simpl. apply list_fmap_ext. by intros _ [??] _.
Qed.

Lemma store_entry_spec n p C i j val :
  has_shape n p C → (i < n)%nat → (j < p)%nat →
  ∃ C', store_entry C i j val = Some C' ∧ has_shape n p C'
        ∧ ∀ i' j', entry C' i' j'
                   = if decide ((i, j) = (i', j')) then Some val
                     else entry C i' j'.
Proof.
  intros [Hn Hp] Hi Hj. unfold store_entry.
  destruct (C !! i) as [row|] eqn:Hrow.
  2:{ apply lookup_ge_None in Hrow. lia. }
  assert (length row = p) as Hlen.
  { rewrite Forall_lookup in Hp. eauto. }
  simpl. rewrite decide_True by lia. eexists. split; [done|]. split.
  - split; [by rewrite length_insert|].
    apply Forall_insert; [done|]. by rewrite length_insert.
  - intros i' j'. unfold entry.
    destruct (decide (i = i')) as [<-|Hne].
    + rewrite list_lookup_insert_eq by lia. simpl. rewrite Hrow. simpl.
      destruct (decide (j = j')) as [<-|Hnej].
      * rewrite decide_True by done. apply list_lookup_insert_eq. lia.
      * rewrite decide_False by congruence. by apply list_lookup_insert_ne.
    + rewrite list_lookup_insert_ne by done.
      by rewrite decide_False by congruence.
Qed.

Lemma fill_spec n p items C :
  has_shape n p C →
  Forall (λ x : nat * nat * Z, (x.1.1 < n)%nat ∧ (x.1.2 < p)%nat) items →
  NoDup items.*1 →
  ∃ C', fill C items = Some C' ∧ has_shape n p C'
        ∧ ∀ i j, entry C' i j
                 = match OD.get (i, j) items with
                   | Some v => Some v
                   | None => entry C i j
                   end.
Proof.
  revert C. induction items as [|[[i j] v] items IH]; intros C Hs Hr Hnd;
    csimpl.
  - by exists C.
  - apply Forall_cons in Hr as [[Hi Hj] Hr].
    apply NoDup_cons in Hnd as [Hk Hnd]. simpl in *.
    destruct (store_entry_spec n p C i j v Hs Hi Hj) as (C1 & -> & Hs1 & He1).
    simpl. destruct (IH C1 Hs1 Hr Hnd) as (C' & -> & Hs' & He').
    exists C'. split_and!; [done..|].
    intros i' j'. rewrite He', He1.
    destruct (decide ((i, j) = (i', j'))) as [[= <- <-]|Hne]; [|done].
    by rewrite (proj2 (od_get_None (i, j) items)).
Qed.

Lemma shape_ext n p (C M : matrix) :
  has_shape n p C → has_shape n p M →
  (∀ i j, (i < n)%nat → (j < p)%nat → entry C i j = entry M i j) →
  C = M.
Proof.
  intros [HnC HpC] [HnM HpM] Hentry. apply list_eq. intros i.
  destruct (decide (i < n)%nat) as [Hi|Hi].
  2:{ rewrite (proj2 (lookup_ge_None C i)), (proj2 (lookup_ge_None M i));
        [done|lia..]. }
  destruct (proj2 (lookup_lt_is_Some C i)) as [r Hr]; [lia|].
  destruct (proj2 (lookup_lt_is_Some M i)) as [r' Hr']; [lia|].
  rewrite Hr, Hr'. f_equal.
  rewrite Forall_lookup in HpC, HpM.
  specialize (HpC i r Hr). specialize (HpM i r' Hr').
  apply list_eq. intros j. destruct (decide (j < p)%nat) as [Hj|Hj].
  - specialize (Hentry i j Hi Hj). unfold entry in Hentry.
    by rewrite Hr, Hr' in Hentry.
  - rewrite (proj2 (lookup_ge_None r j)), (proj2 (lookup_ge_None r' j));
      [done|lia..].
Qed.

(** On the inputs that it multiplies, the code returns the product. *)
Lemma matrix_multiply_mr_product A B :
  multiplicable A B → matrix_multiply_mr A B = Some (product A B).
Proof.
  intros [HB Hok]%multiplicable_cells.
  unfold matrix_multiply_mr. rewrite mapper_matrix_cells by done. simpl.
  destruct (width_lookup B HB) as (b0 & Hb0 & Hw). rewrite Hb0. simpl.
  rewrite <- Hw.
  assert (NoDup (cells A B).*1) as Hnd by (apply NoDup_grid; apply NoDup_seq).
  rewrite shuffle_matrix_distinct by done.
  rewrite reducer_matrix_distinct by done.
  set (reduced := (λ x : nat * nat * list Z, (x.1, sum x.2)) <$> cells A B).
  assert (reduced.*1 = (cells A B).*1) as Hkeys.
  { unfold reduced. rewrite <- list_fmap_compose. done. }
  destruct (fill_spec (length A) (width B) reduced
              (replicate (length A) (replicate (width B) 0)))
    as (C' & HC' & Hs' & He').
  - split; [apply length_replicate|]. apply Forall_lookup.
    intros i x [-> _]%lookup_replicate. apply length_replicate.
  - apply Forall_fmap, Forall_forall.
    intros x (i & j & Hi & Hj & ->)%elem_of_grid. simpl.
    apply elem_of_seq in Hi, Hj. lia.
  - by rewrite Hkeys.
  - rewrite HC'. f_equal. apply (shape_ext (length A) (width B)); [done| |].
    + split; [apply length_fmap|]. apply Forall_fmap, Forall_forall.
      intros row _. simpl. by rewrite length_fmap, length_seq.
    + intros i j Hi Hj. rewrite He'.
      rewrite (od_elem_get (i, j)
                 (dot (default [] (A !! i)) (column B j)) reduced).
      * unfold product, entry. rewrite list_lookup_fmap.
        apply lookup_lt_is_Some in Hi as [row Hrow]. rewrite Hrow. simpl.
        by rewrite list_lookup_fmap, lookup_seq_lt.
      * by rewrite Hkeys.
      * unfold reduced. apply list_elem_of_fmap.
        exists ((i, j), zip_with Z.mul (default [] (A !! i)) (column B j)).
        split; [simpl; by rewrite sum_foldr|].
        apply elem_of_grid. exists i, j.
        split_and!; [apply elem_of_seq; lia..|done].
Qed.

Lemma matrix_multiply_mr_no_rows A : matrix_multiply_mr A [] = None.
Proof. unfold matrix_multiply_mr. by destruct (mapper_matrix A []). Qed.

Lemma partials_short_row A B i j row :
  A !! i = Some row → (length row < length B)%nat →
  partials A B i j = None.
Proof.
  intros Hi Hlen. apply mapM_None, Exists_exists. exists (length row).
  split; [apply elem_of_seq; lia|].
  unfold entry. rewrite Hi. simpl.
  assert (row !! length row = None) as -> by (apply lookup_ge_None; lia).
  done.
Qed.

Lemma partials_short_column A B i k r :
  B !! k = Some r → partials A B i (length r) = None.
Proof.
  intros Hk. apply mapM_None, Exists_exists. exists k. split.
  - apply elem_of_seq. apply lookup_lt_Some in Hk. lia.
  - destruct (entry A i k); simpl; [|done].
    unfold entry. rewrite Hk. simpl.
    assert (r !! length r = None) as -> by (apply lookup_ge_None; lia).
    done.
Qed.

Lemma mapper_matrix_None A B i j :
  (i < length A)%nat → (j < width B)%nat → partials A B i j = None →
  mapper_matrix A B = None.
Proof.
  intros Hi Hj Hp. unfold mapper_matrix. apply bind_None. left.
  apply mapM_None, Exists_exists. exists i.
  split; [apply elem_of_seq; lia|].
  destruct B as [|b0 B']; [done|]. simpl.
  apply mapM_None, Exists_exists. exists j.
  split; [apply elem_of_seq; unfold width in Hj; simpl in Hj; lia|].
  by rewrite Hp.
Qed.

Lemma dot_unit (row : list Z) (j s : nat) :
  dot row ((λ i, if decide (i = j) then 1 else 0) <$> seq s (length row))
  = if decide (s ≤ j < s + length row)%nat
    then default 0 (row !! (j - s)%nat) else 0.
Proof.
  revert s. induction row as [|a row IH]; intros s.
  - simpl. by rewrite decide_False by lia.
  - unfold dot in *. cbn [length seq fmap list_fmap zip_with foldr].
    rewrite IH. destruct (decide (s = j)) as [->|Hne].
    + rewrite decide_False by lia. rewrite decide_True by lia.
      rewrite Nat.sub_diag. simpl. lia.
    + destruct (decide (S s ≤ j < S s + length row)%nat) as [Hin|Hout].
      * rewrite decide_True by (simpl; lia).
        replace (j - s)%nat with (S (j - S s)) by lia. simpl. lia.
      * rewrite decide_False by (simpl; lia). lia.
Qed.

Lemma identity_shape m :
  length (identity m) = m ∧ width (identity m) = m
  ∧ Forall (λ row, length row = m) (identity m).
Proof.
  unfold identity. split_and!.
  - by rewrite length_fmap, length_seq.
  - unfold width. destruct m as [|m]; [done|]. simpl.
    by rewrite length_fmap, length_seq.
  - apply Forall_fmap, Forall_forall. intros i _. simpl.
    by rewrite length_fmap, length_seq.
Qed.

Lemma column_identity m j :
  (j < m)%nat →
  column (identity m) j = (λ i, if decide (i = j) then 1 else 0) <$> seq 0 m.
Proof.
  intros Hj. unfold column, identity. rewrite <- list_fmap_compose.
  apply list_fmap_ext. intros _ i _. simpl.
  by rewrite list_lookup_fmap, lookup_seq_lt.
Qed.

Lemma product_identity A m :
  Forall (λ row, length row = m) A → product A (identity m) = A.
Proof.
  intros HA. unfold product.
  destruct (identity_shape m) as (_ & -> & _).
  induction HA as [|row A Hrow _ IH]; csimpl; [done|]. f_equal; [|done].
  apply list_eq. intros j. rewrite list_lookup_fmap.
  destruct (decide (j < m)%nat) as [Hj|Hj].
  - rewrite lookup_seq_lt by done. simpl.
    rewrite column_identity by done. rewrite <- Hrow at 1.
    rewrite dot_unit, decide_True by lia. rewrite Nat.sub_0_r.
    destruct (proj2 (lookup_lt_is_Some row j)) as [a Ha]; [lia|].
    by rewrite Ha.
  - rewrite lookup_seq_ge by lia.
    by rewrite (proj2 (lookup_ge_None row j)) by lia.
Qed.

End MatrixFacts.

(** * Properties of the MapReduce matrix product *)

Module MatrixExtras.
Import Lab2 MatrixSpec MatrixFacts.

(** X24.  On every input that it multiplies, [matrix_multiply_mr] returns
    the matrix product: [len(A)] rows of [len(B[0])] entries, the entry in
    row [i] and column [j] being the scalar product of row [i] of [A] and
    column [j] of [B].  Entries of a row of [A] beyond [len(B)] and entries
    of a row of [B] beyond [len(B[0])] are ignored. *)
Theorem X24_matrix_multiply_product A B :
  multiplicable A B →
  matrix_multiply_mr A B = Some (product A B)
  ∧ has_shape (length A) (width B) (product A B).
Proof.
  intros Hm. split; [by apply matrix_multiply_mr_product|].
  unfold product. split; [apply length_fmap|].
  apply Forall_fmap, Forall_forall. intros row _. simpl.
  by rewrite length_fmap, length_seq.
Qed.

Lemma X24_witness :
  multiplicable ex_A ex_B
  ∧ matrix_multiply_mr ex_A ex_B = Some (product ex_A ex_B)
  ∧ has_shape (length ex_A) (width ex_B) (product ex_A ex_B).
Proof.
  assert (multiplicable ex_A ex_B) as Hm.
  { split; [done|]. right. right. split; by_compute. }
  split; [done|]. by apply X24_matrix_multiply_product.
Defined.

(** The run of the script, and a run on rows of unequal lengths. *)
Example ex_matrix_multiply :
  matrix_multiply_mr ex_A ex_B = Some [[19; 22]; [43; 50]]
  ∧ matrix_multiply_mr [[1; 2; 9]] [[1; 0; 7]; [1; 1]] = None
  ∧ matrix_multiply_mr [[1; 2; 9]] [[1; 0]; [1; 1; 7]] = Some [[3; 2]].
Proof. split_and!; reflexivity. Qed.

(** X25.  [matrix_multiply_mr] raises [IndexError] exactly when [B] has no
    row, or when there is a cell to compute ([A] has a row and [B[0]] an
    entry) and some row of [A] is shorter than [len(B)] or some row of [B]
    is shorter than [B[0]]. *)
Theorem X25_matrix_multiply_index_error A B :
  matrix_multiply_mr A B = None
  ↔ B = []
    ∨ (A ≠ [] ∧ width B ≠ 0%nat
       ∧ (Exists (λ row, (length row < length B)%nat) A
          ∨ Exists (λ row, (length row < width B)%nat) B)).
Proof.
  split.
  - intros Hnone. destruct (decide (B = [])) as [|HB]; [by left|]. right.
    destruct (decide (A = [])) as [HA|HA].
    { rewrite matrix_multiply_mr_product in Hnone; [done|]. split; auto. }
    destruct (decide (width B = 0%nat)) as [Hw|Hw].
    { rewrite matrix_multiply_mr_product in Hnone; [done|]. split; auto. }
    split_and!; [done..|].
    destruct (decide (Forall (λ row, (length B ≤ length row)%nat) A))
      as [HFA|HFA].
    2:{ left. apply not_Forall_Exists in HFA; [|apply _].
        eapply Exists_impl; [done|]. simpl. lia. }
    destruct (decide (Forall (λ row, (width B ≤ length row)%nat) B))
      as [HFB|HFB].
    2:{ right. apply not_Forall_Exists in HFB; [|apply _].
        eapply Exists_impl; [done|]. simpl. lia. }
    rewrite matrix_multiply_mr_product in Hnone; [done|]. split; auto.
  - intros [->|(HA & Hw & Hshort)]; [apply matrix_multiply_mr_no_rows|].
    assert (mapper_matrix A B = None) as Hm.
    { destruct Hshort as [(row & Hin & Hlen)%Exists_exists
                         |(r & Hin & Hlen)%Exists_exists].
      - apply list_elem_of_lookup in Hin as [i Hi].
        apply (mapper_matrix_None A B i 0).
        + by apply lookup_lt_Some in Hi.
        + lia.
        + by apply (partials_short_row A B i 0 row).
      - apply list_elem_of_lookup in Hin as [k Hk].
        apply (mapper_matrix_None A B 0 (length r)).
        + destruct A; [done|]. simpl. lia.
        + done.
        + by apply (partials_short_column A B 0 k r). }
    unfold matrix_multiply_mr. by rewrite Hm.
Qed.

(** X26.  Multiplying by the identity matrix gives the matrix back: for
    [m > 0] and a matrix [A] whose rows have [m] entries,
    [matrix_multiply_mr(A, I_m)] returns [A]. *)
Theorem X26_matrix_multiply_identity A m :
  m ≠ 0%nat → Forall (λ row, length row = m) A →
  matrix_multiply_mr A (identity m) = Some A.
Proof.
  intros Hm HA. destruct (identity_shape m) as (Hlen & Hw & Hrows).
  rewrite matrix_multiply_mr_product; [by rewrite product_identity|].
  split.
  - intros Hnil. rewrite Hnil in Hlen. simpl in Hlen. lia.
  - right. right. rewrite Hlen, Hw. split.
    + eapply Forall_impl; [done|]. simpl. lia.
    + eapply Forall_impl; [done|]. simpl. lia.
Qed.

Lemma X26_witness :
  2%nat ≠ 0%nat ∧ Forall (λ row, length row = 2%nat) ex_A
  ∧ matrix_multiply_mr ex_A (identity 2) = Some ex_A.
Proof.
  assert (Forall (λ row, length row = 2%nat) ex_A) as HA by by_compute.
  split_and!; [lia|done|]. by apply X26_matrix_multiply_identity.
Defined.

End MatrixExtras.

(** * Facts about the rating aggregation *)

Module Lab1Facts.
Import Lab1 Lab1Spec.
Local Open Scope Qc_scope.

Lemma first_nonempty_cons t l :
  first_nonempty (t :: l) = if decide (t = []) then first_nonempty l else t.
Proof.
  unfold first_nonempty. rewrite filter_cons.
  destruct (decide (t = [])) as [->|Ht].
  - by rewrite decide_False by (by intros ?).
  - by rewrite decide_True.
Qed.

(** The first string that is not empty stays. *)
Lemma keep_first (x y : str) rest :
  (if decide ((if decide (x = []) then y else x) = [])
   then first_nonempty rest else (if decide (x = []) then y else x))
  = if decide (x = []) then first_nonempty (y :: rest) else x.
Proof. rewrite first_nonempty_cons. repeat case_decide; congruence. Qed.

Lemma foldl_add_review t rows :
  foldl add_review t rows
  = {| t_sum := foldl Qcplus (t_sum t) (r_rating <$> rows);
       t_count := (t_count t + Z.of_nat (length rows))%Z;
       t_title := if decide (t_title t = [])
                  then first_nonempty (r_title <$> rows) else t_title t;
       t_category := if decide (t_category t = [])
                     then first_nonempty (r_category <$> rows)
                     else t_category t;
       t_parent := if decide (t_parent t = [])
                   then first_nonempty (r_parent <$> rows)
                   else t_parent t |}.
Proof.
  revert t. induction rows as [|r rows IH]; intros t.
  - destruct t as [s c ti ca pa]. simpl. f_equal.
    + lia.
    + by destruct (decide (ti = [])).
    + by destruct (decide (ca = [])).
    + by destruct (decide (pa = [])).
  - simpl foldl. rewrite IH. unfold add_review. cbn [t_sum t_count t_title
      t_category t_parent]. rewrite !keep_first. f_equal.
    rewrite length_cons. lia.
Qed.

Lemma reviews_of_cons pid r pairs :
  reviews_of pid (r :: pairs)
  = if decide (r_pid r = pid) then r :: reviews_of pid pairs
    else reviews_of pid pairs.
Proof. unfold reviews_of. by rewrite filter_cons. Qed.

Lemma aggregate_get pid pairs acc :
  OD.get pid (foldl aggregate acc pairs)
  = if decide (reviews_of pid pairs = []) then OD.get pid acc
    else Some (foldl add_review (default no_totals (OD.get pid acc))
                     (reviews_of pid pairs)).
Proof.
  revert acc. induction pairs as [|r pairs IH]; intros acc; [done|].
  simpl foldl. rewrite IH, reviews_of_cons.
  unfold aggregate. rewrite !od_get_set.
  destruct (decide (r_pid r = pid)) as [Hp|Hp]; [|done].
  rewrite (decide_False (P := _ :: _ = [])) by done.
  destruct (decide (reviews_of pid pairs = [])) as [->|Hrest];
    simpl; by rewrite Hp.
Qed.

Lemma shuffle_get pid mapped :
  OD.get pid (shuffle mapped)
  = if decide (reviews_of pid mapped = []) then None
    else Some (shuffled_row <$> reviews_of pid mapped).
Proof.
  unfold shuffle.
  assert (∀ acc : OD.odict str (list (Qc * str * str * str)),
    OD.get pid
      (foldl (λ shuffled r,
                OD.set (r_pid r)
                       (default [] (OD.get (r_pid r) shuffled)
                        ++ [(r_rating r, r_title r, r_category r, r_parent r)])
                       shuffled) acc mapped)
    = if decide (reviews_of pid mapped = []) then OD.get pid acc
      else Some (default [] (OD.get pid acc)
                 ++ (shuffled_row <$> reviews_of pid mapped))) as Hgen.
  { induction mapped as [|r mapped IH]; intros acc; [done|].
    simpl foldl. rewrite IH, reviews_of_cons, !od_get_set.
    destruct (decide (r_pid r = pid)) as [Hp|Hp]; [|done].
    rewrite (decide_False (P := _ :: _ = [])) by done. rewrite Hp.
    destruct (decide (reviews_of pid mapped = [])) as [->|Hrest]; simpl.
    - done.
    - by rewrite <- app_assoc. }
  rewrite Hgen. by case_decide.
Qed.

Lemma shuffle_NoDup mapped : NoDup (shuffle mapped).*1.
Proof.
  unfold shuffle.
  assert (∀ acc : OD.odict str (list (Qc * str * str * str)),
    NoDup acc.*1 →
    NoDup (foldl (λ shuffled r,
                    OD.set (r_pid r)
                           (default [] (OD.get (r_pid r) shuffled)
                            ++ [(r_rating r, r_title r, r_category r,
                                 r_parent r)])
                           shuffled) acc mapped).*1) as Hgen.
  { induction mapped as [|r mapped IH]; intros acc Hnd; [done|].
    simpl. apply IH. by apply od_set_NoDup. }
  apply Hgen, NoDup_nil_2.
Qed.

Lemma aggregate_NoDup pairs acc :
  NoDup acc.*1 → NoDup (foldl aggregate acc pairs).*1.
Proof.
  revert acc. induction pairs as [|r pairs IH]; intros acc Hnd; [done|].
  simpl. apply IH. by apply od_set_NoDup.
Qed.

Lemma aggregate_elem pairs pid t :
  (pid, t) ∈ foldl aggregate [] pairs
  ↔ reviews_of pid pairs ≠ []
    ∧ t = foldl add_review no_totals (reviews_of pid pairs).
Proof.
  pose proof (aggregate_NoDup pairs [] (NoDup_nil_2 (A:=str))) as Hnd.
  pose proof (aggregate_get pid pairs []) as Hget. split.
  - intros Hin. apply (od_elem_get _ _ _ Hnd) in Hin.
    rewrite Hin in Hget. case_decide; [done|]. split; [done|].
    by injection Hget.
  - intros [Hne ->]. apply od_get_Some_elem.
    by rewrite Hget, decide_False.
Qed.

Lemma summarize_totals pid rows :
  summarize (pid, foldl add_review no_totals rows)
  = if decide (MIN_REVIEWS ≤ Z.of_nat (length rows))%Z
    then Some (summary_of pid rows) else None.
Proof.
  rewrite foldl_add_review. unfold summarize, summary_of. simpl.
  by rewrite Z.add_0_l.
Qed.

Lemma summarize_pid item row : summarize item = Some row → s_pid row = item.1.
Proof.
  destruct item as [pid t]. unfold summarize.
  case_decide; [|done]. by intros [= <-].
Qed.

Lemma summaries_keys (agg : list (str * totals)) :
  s_pid <$> omap summarize agg `sublist_of` agg.*1.
Proof.
  induction agg as [|item agg IH]; csimpl; [done|].
  destruct (summarize item) as [row|] eqn:Hrow; csimpl.
  - rewrite (summarize_pid item row Hrow). by constructor.
  - by constructor.
Qed.

Lemma sumf_le {A} (f g : A → Qc) (l : list A) :
  (∀ x, x ∈ l → f x ≤ g x) → sumf f l ≤ sumf g l.
Proof.
  induction l as [|x l IH]; intros Hfg; simpl; [done|].
  apply Qcplus_le_compat.
  - apply Hfg. by left.
  - apply IH. intros y Hy. apply Hfg. by right.
Qed.

(** The mean of ratings between [lo] and [hi] is between [lo] and [hi]. *)
Lemma mean_bounds (rows : list review) lo hi :
  rows ≠ [] →
  (∀ r, r ∈ rows → lo ≤ r_rating r ∧ r_rating r ≤ hi) →
  lo ≤ py_sum (r_rating <$> rows) / Qc_of_Z (Z.of_nat (length rows))
  ∧ py_sum (r_rating <$> rows) / Qc_of_Z (Z.of_nat (length rows)) ≤ hi.
Proof.
  intros Hne Hb. rewrite py_sum_fmap.
  pose proof (RankBounds.Qc_of_length_pos rows Hne) as Hpos.
  set (n := Qc_of_Z (Z.of_nat (length rows))) in *.
  assert (n ≠ 0) as Hn0.
  { intros H0. rewrite H0 in Hpos. by apply Qclt_not_eq in Hpos. }
  split.
  - apply (Qcmult_le_mono_pos_r _ _ n Hpos). rewrite test_field by done.
    rewrite Qcmult_comm. unfold n. rewrite <- sumf_const.
    apply sumf_le. intros r Hr. by apply Hb.
  - apply (Qcmult_le_mono_pos_r _ _ n Hpos). rewrite test_field by done.
    rewrite (Qcmult_comm hi). unfold n. rewrite <- sumf_const.
    apply sumf_le. intros r Hr. by apply Hb.
Qed.

End Lab1Facts.

(** * Properties of the rating aggregation *)

Module Lab1Extras.
Import Lab1 Lab1Spec Lab1Facts.
Local Open Scope Qc_scope.

(** X27.  [shuffle] and [reduce_pairs] group by product.  [shuffle] keeps,
    under each product that occurs, the tuples of its reviews in input
    order, and has no other key.  [reduce_pairs] returns one tuple per
    product that has at least [MIN_REVIEWS] reviews and none for the others;
    the tuple of a product holds the number of its reviews, the mean of
    their ratings and, for title, category and parent, the first value among
    its reviews that is not empty; the tuples come by mean in descending
    order; and when every rating lies between two bounds, so does every
    mean. *)
Theorem X27_reviews_by_product pairs :
  (∀ pid, OD.get pid (shuffle pairs)
          = if decide (reviews_of pid pairs = []) then None
            else Some (shuffled_row <$> reviews_of pid pairs))
  ∧ NoDup (OD.keys (shuffle pairs))
  ∧ NoDup (s_pid <$> reduce_pairs pairs)
  ∧ StronglySorted (λ a b, s_avg b ≤ s_avg a) (reduce_pairs pairs)
  ∧ (∀ row, row ∈ reduce_pairs pairs
            ↔ (MIN_REVIEWS
               ≤ Z.of_nat (length (reviews_of (s_pid row) pairs)))%Z
              ∧ row = summary_of (s_pid row) (reviews_of (s_pid row) pairs))
  ∧ (∀ lo hi, (∀ r, r ∈ pairs → lo ≤ r_rating r ∧ r_rating r ≤ hi) →
              ∀ row, row ∈ reduce_pairs pairs →
                     lo ≤ s_avg row ∧ s_avg row ≤ hi).
Proof.
  assert (Hperm : reduce_pairs pairs
                  ≡ₚ omap summarize (foldl aggregate [] pairs))
    by apply stable_sort_perm.
  assert (Hrows : ∀ row,
    row ∈ reduce_pairs pairs
    ↔ (MIN_REVIEWS ≤ Z.of_nat (length (reviews_of (s_pid row) pairs)))%Z
      ∧ row = summary_of (s_pid row) (reviews_of (s_pid row) pairs)).
  { intros row. rewrite Hperm, list_elem_of_omap. split.
    - intros ([pid t] & [Hne ->]%aggregate_elem & Hrow).
      pose proof (summarize_pid _ _ Hrow) as Hpid. simpl in Hpid.
      rewrite summarize_totals in Hrow. case_decide; [|done].
      injection Hrow as <-. simpl. done.
    - intros [Hmin Hrow].
      exists (s_pid row, foldl add_review no_totals
                               (reviews_of (s_pid row) pairs)).
      split.
      + apply aggregate_elem. split; [|done].
        intros Hnil. rewrite Hnil in Hmin. unfold MIN_REVIEWS in Hmin.
        simpl in Hmin. lia.
      + rewrite summarize_totals, decide_True by done. by rewrite <- Hrow. }
  split_and!.
  - intros pid. apply shuffle_get.
  - apply shuffle_NoDup.
  - rewrite Hperm. eapply sublist_NoDup; [|apply summaries_keys].
    apply aggregate_NoDup, NoDup_nil_2.
  - unfold reduce_pairs. apply Sorted_StronglySorted.
    { intros x y z Hxy Hyz. by trans (s_avg y). }
    eapply SearchFacts.Sorted_weaken; [|apply stable_sort_sorted].
    + intros x y Hle. by apply bool_decide_eq_true in Hle.
    + intros x y Hle. apply bool_decide_eq_false in Hle.
      apply bool_decide_eq_true.
      destruct (Qclt_le_dec (s_avg x) (s_avg y)) as [Hlt|?]; [|done].
      by apply Qclt_le_weak.
  - done.
  - intros lo hi Hb row [Hmin ->]%Hrows. simpl. apply mean_bounds.
    + intros Hnil. rewrite Hnil in Hmin. unfold MIN_REVIEWS in Hmin.
      simpl in Hmin. lia.
    + intros r [_ Hr]%list_elem_of_filter. by apply Hb.
Qed.

(** One product has fifty reviews and is returned, with the mean 4 and the
    first title that is not empty; the other has one and is left out. *)
Example ex_reduce_pairs :
  (λ row, (s_pid row, s_avg row, s_count row, s_title row))
    <$> reduce_pairs ex_reviews
  = [([112], Q2Qc (4 # 1), 50%Z, [116])].
Proof. by_compute. Qed.

End Lab1Extras.

(** * Properties of the split of the input *)

Module Lab1MainExtras.
Import Lab1Main.
Local Open Scope nat_scope.

Lemma slice_app {A} (l : list A) a b c :
  a ≤ b → b ≤ c → slice l a b ++ slice l b c = slice l a c.
Proof.
  intros Hab Hbc. unfold slice.
  replace (drop b l) with (drop (b - a) (drop a l))
    by (rewrite drop_drop; f_equal; lia).
  rewrite take_take_drop. f_equal. lia.
Qed.

Lemma slice_tail {A} (l : list A) : slice l 1 (length l) = drop 1 l.
Proof. unfold slice. apply take_ge. rewrite length_drop. lia. Qed.

Lemma slice_whole {A} (l : list A) : slice l 0 (length l) = l.
Proof. unfold slice. rewrite Nat.sub_0_r, drop_0. by apply take_ge. Qed.

(** X28.  On an input with a header line the script makes one chunk per
    worker; every chunk starts with the header line and is read as a whole
    by [process_chunk]; and the lines after the header are dealt out in
    order, each to exactly one chunk: the chunks without their header line,
    one after the other, are the input without its header line.  On an
    empty input [all_lines[0]] raises [IndexError]. *)
Theorem X28_chunks_partition all_lines :
  (all_lines = [] → chunks all_lines = None)
  ∧ (all_lines ≠ [] →
     ∃ cs, chunks all_lines = Some cs
           ∧ length cs = num_processes
           ∧ Forall (λ c : nat * nat * list str,
                       head c.2 = head all_lines
                       ∧ ∀ (row : Type) (map_chunk : list str → list row),
                           process_chunk map_chunk c.1.1 c.1.2 c.2
                           = map_chunk c.2) cs
           ∧ concat ((λ c : nat * nat * list str, drop 1 c.2) <$> cs)
             = drop 1 all_lines).
Proof.
  split; [by intros ->|]. intros Hne.
  destruct (all_lines !! 0) as [h|] eqn:Hh.
  2:{ apply lookup_ge_None in Hh. destruct all_lines; [done|].
      simpl in Hh. lia. }
  unfold chunks. rewrite Hh. cbn [mbind option_bind].
  pose proof (Nat.Div0.mul_div_le (length all_lines - 1) num_processes) as Hcs.
  assert (1 ≤ length all_lines) as Hlen.
  { apply lookup_lt_Some in Hh. lia. }
  set (cs := (length all_lines - 1) `div` num_processes) in *.
  set (n := length all_lines) in *.
  unfold num_processes in *. eexists. split; [done|].
  cbn [seq fmap list_fmap]. split_and!.
  - done.
  - assert (head all_lines = Some h) as Hhead.
    { destruct all_lines; [done|]. simpl in Hh. by injection Hh as ->. }
    repeat constructor; simpl; try done; intros row map_chunk;
      unfold process_chunk; f_equal;
      apply (slice_whole (h :: _)).
  - simpl. rewrite app_nil_r, !drop_0.
    rewrite !slice_app by (simpl; lia). apply slice_tail.
Qed.

(** A file of a header line and six rows: the first three workers get one
    row each, the last one gets the other three. *)
Example ex_chunks :
  chunks [[104]; [49]; [50]; [51]; [52]; [53]; [54]]%Z
  = Some [(0, 2, [[104]; [49]]%Z); (0, 2, [[104]; [50]]%Z);
          (0, 2, [[104]; [51]]%Z); (0, 4, [[104]; [52]; [53]; [54]]%Z)].
Proof. reflexivity. Qed.

End Lab1MainExtras.

(** * Properties of the link filter *)

Module ParsingExtras.
Import Parsing.

Lemma startswith_spec s p : startswith s p = true ↔ ∃ rest, s = p ++ rest.
Proof.
  revert s. induction p as [|c p IH]; intros s; simpl.
  - split; [|done]. intros _. by exists s.
  - destruct s as [|d s].
    + split; [done|]. by intros [rest ?].
    + rewrite andb_true_iff, bool_decide_eq_true, IH. split.
      * intros [-> [rest ->]]. by exists rest.
      * intros [rest [= -> ->]]. split; [done|]. by exists rest.
Qed.

Lemma contains_spec s sub :
  contains s sub = true ↔ ∃ l1 l2, s = l1 ++ sub ++ l2.
Proof.
  induction s as [|d s IH]; simpl.
  - rewrite orb_false_r, startswith_spec. split.
    + intros [rest ->]. by exists [], rest.
    + intros (l1 & l2 & Heq). destruct l1; [|done]. by exists l2.
  - rewrite orb_true_iff, startswith_spec, IH. split.
    + intros [[rest ->]|(l1 & l2 & ->)].
      * by exists [], rest.
      * by exists (d :: l1), l2.
    + intros (l1 & l2 & Heq). destruct l1 as [|d' l1].
      * left. by exists l2.
      * right. injection Heq as -> ->. by exists l1, l2.
Qed.

Lemma contains_char s c : contains s [c] = true ↔ c ∈ s.
Proof.
  rewrite contains_spec. split.
  - intros (l1 & l2 & ->). rewrite elem_of_app. right. by left.
  - intros (l1 & l2 & ->)%list_elem_of_split. by exists l1, l2.
Qed.

(** A string that holds [p] holds the last character of [p]. *)
Lemma contains_last s p c : last p = Some c → contains s p = true → c ∈ s.
Proof.
  intros [p' ->]%last_Some (l1 & l2 & ->)%contains_spec.
  rewrite !elem_of_app. right. left. right. by left.
Qed.

(** X29.  [is_valid_wiki_link] accepts an href exactly when it starts with
    ["/wiki/"], holds neither a colon nor a hash sign and does not hold
    ["Main_Page"]: the eight longer entries of the list, which all end in a
    colon, never decide. *)
Theorem X29_valid_wiki_link href :
  is_valid_wiki_link href = true
  ↔ (∃ rest, href = wiki ++ rest)
    ∧ (58 ∉ href) ∧ (35 ∉ href)
    ∧ ¬ ∃ l1 l2, href = l1 ++ main_page ++ l2.
Proof.
  unfold is_valid_wiki_link.
  rewrite <- startswith_spec, <- !contains_char, <- contains_spec.
  destruct (decide (href = [])) as [->|Hne].
  { split; [intros [=]|intros [[=] _]]. }
  destruct (startswith href wiki) eqn:Hw; cbn [negb].
  2:{ split; [intros [=]|intros [[=] _]]. }
  destruct (existsb (contains href) excluded) eqn:Hex.
  - split; [intros [=]|]. intros (_ & Hcolon & Hhash & Hmain).
    apply existsb_exists in Hex as (p & Hp & Hin).
    apply list_elem_of_In in Hp. unfold excluded in Hp.
    repeat (apply elem_of_cons in Hp as [->|Hp]);
      try (by apply elem_of_nil in Hp); try done;
      destruct Hcolon; apply contains_char;
      by eapply contains_last; [|exact Hin].
  - split; [|done]. intros _. split; [done|].
    simpl in Hex. repeat (apply orb_false_elim in Hex as [? Hex]).
    split_and!; congruence.
Qed.

(** The href of an article is accepted, the href of a help page is not. *)
Example ex_valid_wiki_link :
  is_valid_wiki_link ex_href_article = true
  ∧ is_valid_wiki_link ex_href_help = false.
Proof. split; reflexivity. Qed.

End ParsingExtras.

(** * Facts about the loader *)

Module LoadFacts.
Import DocStore StoreSpec StoreFacts LoadDataset LoadSpec.

Lemma find_doc_id_is_Some s url : is_Some (find_doc_id s url) ↔ url ∈ urls s.
Proof.
  rewrite <- not_eq_None_Some, find_doc_id_None.
  split; [apply dec_stable|auto].
Qed.

Lemma find_doc_id_same s s' url :
  documents s' = documents s → find_doc_id s' url = find_doc_id s url.
Proof. unfold find_doc_id. by intros ->. Qed.

(** What an upsert keeps: the constraints, the links and the ids of the
    urls that were known. *)
Lemma upsert_row_spec s url title content :
  store_wf s →
  store_wf (upsert_row s url title content)
  ∧ is_Some (find_doc_id (upsert_row s url title content) url)
  ∧ links (upsert_row s url title content) = links s
  ∧ (∀ u i, find_doc_id s u = Some i →
            find_doc_id (upsert_row s url title content) u = Some i)
  ∧ (∀ u, u ∈ urls (upsert_row s url title content) →
          u ∈ urls s ∨ u = url).
Proof.
  intros Hwf. pose proof (wf_upsert s url title content Hwf) as Hwf'.
  destruct (find_doc_id s url) as [i|] eqn:Hi.
  - destruct (upsert_row_ids s url title content i Hi) as [Hids Hurls].
    split_and!; [done| | | |].
    + apply find_doc_id_is_Some. rewrite Hurls.
      apply find_doc_id_is_Some. by rewrite Hi.
    + unfold upsert_row. by rewrite Hi.
    + intros u j (d & Hd & <- & <-)%find_doc_id_Some.
      assert (∃ d', d' ∈ documents (upsert_row s url title content)
                    ∧ doc_url d' = doc_url d ∧ doc_id d' = doc_id d)
        as (d' & Hd' & Hu & Hid).
      { unfold upsert_row. rewrite Hi. simpl. eexists.
        split; [by apply list_elem_of_fmap_2|]. by destruct (decide _). }
      rewrite <- Hu, <- Hid. destruct Hwf' as (_ & Hurl' & _).
      by apply find_doc_id_wf.
    + intros u Hu. left. by rewrite <- Hurls.
  - assert (documents (upsert_row s url title content)
            = documents s ++ [Document (doc_seq s + 1) url title content])
      as Hdocs.
    { unfold upsert_row. by rewrite Hi. }
    split_and!; [done| | | |].
    + apply find_doc_id_is_Some. unfold urls.
      rewrite Hdocs, fmap_app, elem_of_app. right. by left.
    + unfold upsert_row. by rewrite Hi.
    + intros u j Hf. by eapply find_doc_id_app.
    + intros u. unfold urls. rewrite Hdocs, fmap_app, elem_of_app. simpl.
      rewrite list_elem_of_singleton. tauto.
Qed.

Lemma ids_known_stable s s' m seen :
  ids_known s m seen →
  (∀ u i, find_doc_id s u = Some i → find_doc_id s' u = Some i) →
  ids_known s' m seen.
Proof.
  intros [Hk1 Hk2] Hst. split; [done|]. intros t a Hin.
  destruct (Hk2 t a Hin) as [[j Hj] Heq]. split; [eauto|].
  rewrite Hj in *. symmetry. by apply Hst.
Qed.

Lemma links_of_targets (f : str → option Z) (g : str → option str)
    (from_id : Z) (links : list str) (tos : list Z) :
  Forall2 (λ u t, f u = Some t) (omap g links) tos →
  pair from_id <$> tos
  = omap (λ lt, u ← g lt; t ← f u; Some (from_id, t)) links.
Proof.
  revert tos. induction links as [|lt links IH]; intros tos; csimpl.
  - by intros ->%Forall2_nil_inv_l.
  - destruct (g lt) as [u|]; csimpl; [|apply IH].
    intros (t & tos' & Hf & Hrest & ->)%Forall2_cons_inv_l.
    rewrite Hf. csimpl. f_equal. by apply IH.
Qed.

Section load.
Context (strip : str → str).

Lemma link_targets_clean (us : list str) :
  Forall (λ u, strip u = u ∧ u ≠ []) us → link_targets strip us = us.
Proof.
  induction 1 as [|u us [Hs Hne] _ IH]; [done|].
  rewrite link_targets_cons, Hs, decide_False by done. by rewrite IH.
Qed.

Lemma create_documents_spec s m seen items :
  store_wf s → NoDup (seen ++ items).*1 → ids_known s m seen →
  ∃ s1 m1,
    create_documents s m items = Some (s1, m1)
    ∧ store_wf s1
    ∧ ids_known s1 m1 (seen ++ items)
    ∧ links s1 = links s
    ∧ (∀ u i, find_doc_id s u = Some i → find_doc_id s1 u = Some i)
    ∧ (∀ u, u ∈ urls s1 →
            u ∈ urls s ∨ u ∈ (λ item : str * article, a_url item.2) <$> items).
Proof.
  revert s m seen.
  induction items as [|[t a] items IH]; intros s m seen Hwf Hnd Hk.
  { exists s, m. rewrite app_nil_r. split_and!; try done.
    intros u Hu. by left. }
  simpl.
  destruct (upsert_row_spec s (a_url a) (a_title a) (a_content a) Hwf)
    as (Hwf' & [id Hid] & Hl & Hst & Hu).
  rewrite Hid. simpl.
  destruct (IH (upsert_row s (a_url a) (a_title a) (a_content a))
               (OD.set t id m) (seen ++ [(t, a)]))
    as (s1 & m1 & Hrun & Hwf1 & Hk1 & Hl1 & Hst1 & Hu1).
  - done.
  - by rewrite <- app_assoc.
  - destruct Hk as [Hka Hkb]. split.
    + intros t'. rewrite od_get_set, fmap_app, elem_of_app.
      case_decide as Ht.
      * intros _. right. rewrite Ht. by left.
      * intros Hs. left. by apply Hka.
    + intros t' a' [Hin|Hin%list_elem_of_singleton]%elem_of_app.
      * assert (t ≠ t') as Hne.
        { intros <-. rewrite fmap_app in Hnd.
          apply NoDup_app in Hnd as (_ & Hdisj & _).
          apply (Hdisj t); [|by left].
          by apply (list_elem_of_fmap_2 fst _ (t, a')). }
        rewrite od_get_set, decide_False by done.
        destruct (Hkb t' a' Hin) as [[j Hj] Heq]. split; [eauto|].
        rewrite Hj in *. symmetry. by apply Hst.
      * injection Hin as -> ->. rewrite od_get_set, decide_True by done.
        split; [eauto|]. by rewrite Hid.
  - exists s1, m1. rewrite <- app_assoc in Hk1. split_and!; try done.
    + congruence.
    + intros u i Hf. by apply Hst1, Hst.
    + intros u Hin. destruct (Hu1 u Hin) as [Hin'|Hin'].
      * destruct (Hu u Hin') as [? | ->]; [by left|]. right. csimpl. by left.
      * right. csimpl. by right.
Qed.

Lemma add_links_spec sref s documents m items :
  store_wf s → ids_known s m documents →
  (∀ item, item ∈ items → item ∈ documents) →
  ∃ s',
    add_links strip s documents m items = Some s'
    ∧ store_wf s'
    ∧ (∀ u i, find_doc_id s u = Some i → find_doc_id s' u = Some i)
    ∧ (clean_urls strip documents → DocStore.documents sref = DocStore.documents s →
       DocStore.documents s' = DocStore.documents s
       ∧ links s'
         = links s
           ++ concat ((λ item : str * article,
                         omap (stored_link sref documents item.2)
                              (default [] (a_links item.2)))
                        <$> items)).
Proof.
  revert s. induction items as [|[t a] items IH]; intros s Hwf Hk Hsub.
  { exists s. split_and!; try done. intros _ _. by rewrite app_nil_r. }
  simpl. destruct Hk as [Hka Hkb].
  destruct (Hkb t a) as [[from_id Hfrom] Heq]; [apply Hsub; by left|].
  rewrite Hfrom. simpl. rewrite Hfrom in Heq. symmetry in Heq.
  remember (link_urls documents m (default [] (a_links a))) as us eqn:Hdef.
  destruct (insert_links_commits strip s from_id us Hwf)
    as (s2 & tos & new & Hrun & Hl & Hfind & Hd & Hnew).
  { by eapply find_doc_id_elem. }
  assert (store_wf s2) as Hwf2.
  { pose proof (wf_insert_links strip s from_id us Hwf) as H2.
    by rewrite Hrun in H2. }
  assert (∀ u i, find_doc_id s u = Some i → find_doc_id s2 u = Some i)
    as Hst2.
  { intros u i Hf. by eapply find_doc_id_app. }
  destruct (IH s2 Hwf2) as (s' & Hrun' & Hwf' & Hst' & Hclean').
  { by eapply ids_known_stable. }
  { intros item Hin. apply Hsub. by right. }
  exists s'. split_and!.
  - destruct us as [|u us'].
    + simpl in Hrun. injection Hrun as <-. done.
    + simpl in Hrun |- *. by rewrite Hrun.
  - done.
  - intros u i Hf. by apply Hst', Hst2.
  - intros Hclean Href.
    assert (∀ u, u ∈ us → (strip u = u ∧ u ≠ []) ∧ u ∈ urls s) as Hus.
    { rewrite Hdef. intros u (lt & _ & Hlt)%list_elem_of_omap.
      case_decide; [|done].
      apply fmap_Some in Hlt as (a' & Ha'%od_get_Some_elem & ->).
      split.
      - unfold clean_urls in Hclean. rewrite Forall_forall in Hclean.
        apply (Hclean (lt, a') Ha').
      - apply find_doc_id_is_Some.
        destruct (Hkb lt a' Ha') as [Hs <-]. done. }
    assert (new = []) as ->.
    { destruct new as [|d new']; [done|].
      apply Forall_cons in Hnew as [(_ & Hin & Hno) _].
      rewrite link_targets_clean in Hin.
      - destruct Hno. by apply Hus.
      - apply Forall_forall. intros u Hu. by apply Hus. }
    rewrite app_nil_r in Hd.
    destruct Hclean' as [Hd' Hl']; [done|congruence|].
    split; [congruence|]. rewrite Hl', Hl. csimpl.
    rewrite <- app_assoc. do 2 f_equal.
    rewrite link_targets_clean in Hfind
      by (apply Forall_forall; intros u Hu; by apply Hus).
    rewrite Hdef in Hfind. unfold link_urls in Hfind.
    rewrite (links_of_targets (find_doc_id s2) _ from_id _ _ Hfind).
    apply list_omap_ext. apply Forall2_same_length_lookup_2; [done|].
    intros i lt lt' Hi Hi'. rewrite Hi in Hi'. injection Hi' as <-.
    unfold stored_link.
    rewrite (find_doc_id_same s sref) by done. rewrite Heq. simpl.
    destruct (OD.get lt documents) as [a'|] eqn:Ha'; simpl.
    + destruct (Hkb lt a') as [Hs _]; [by apply od_get_Some_elem|].
      rewrite decide_True by done. simpl.
      rewrite (find_doc_id_same s2 sref) by congruence. done.
    + by case_decide.
Qed.

End load.
End LoadFacts.

(** * Properties of the loader *)

Module LoadExtras.
Import DocStore StoreSpec StoreFacts LoadDataset LoadSpec LoadFacts.

(** X30.  On a store that meets the schema constraints, and articles under
    distinct titles, [load_dataset_to_db] returns without an exception; the
    store it leaves meets the constraints, every url that was known keeps
    its id, and every article is a document.  When no url of the dataset
    is blank or has blanks around it, no placeholder is made, and the links
    that are added are, article by article and in the order of the file,
    the links to the titles that are articles of the dataset, from the
    document of the article to the document of the title. *)
Theorem X30_load_dataset strip s documents :
  store_wf s → NoDup (OD.keys documents) →
  ∃ s',
    load_dataset_to_db strip s documents = Some s'
    ∧ store_wf s'
    ∧ (∀ u i, find_doc_id s u = Some i → find_doc_id s' u = Some i)
    ∧ (∀ t a, (t, a) ∈ documents → is_Some (find_doc_id s' (a_url a)))
    ∧ (clean_urls strip documents →
       (∀ d, d ∈ get_all_documents s' →
             doc_url d ∈ urls s
             ∨ doc_url d ∈ (λ item : str * article, a_url item.2)
                             <$> documents)
       ∧ get_links s' = get_links s ++ dataset_links s' documents).
Proof.
  intros Hwf Hnd.
  destruct (create_documents_spec s [] [] documents Hwf Hnd)
    as (s1 & m1 & Hrun1 & Hwf1 & Hk1 & Hl1 & Hst1 & Hu1).
  { split.
    - intros t [? Hs]. done.
    - intros t a Hin. by apply elem_of_nil in Hin. }
  simpl in Hk1.
  destruct (add_links_spec strip s1 s1 documents m1 documents Hwf1 Hk1)
    as (s' & Hrun & Hwf' & Hst' & Hclean); [done|].
  destruct (add_links_spec strip s' s1 documents m1 documents Hwf1 Hk1)
    as (s'' & Hrun' & _ & _ & Hlinks); [done|].
  rewrite Hrun in Hrun'. injection Hrun' as <-.
  exists s'. split_and!.
  - unfold load_dataset_to_db. rewrite Hrun1. simpl. done.
  - done.
  - intros u i Hf. by apply Hst', Hst1.
  - intros t a Hin. destruct Hk1 as [_ Hkb].
    destruct (Hkb t a Hin) as [[j Hj] Heq]. rewrite Hj in Heq.
    exists j. by apply Hst'.
  - intros Hc. destruct (Hclean Hc eq_refl) as [Hd _].
    destruct (Hlinks Hc Hd) as [_ Hl]. split.
    + intros d Hin. unfold get_all_documents in Hin. rewrite Hd in Hin.
      destruct (Hu1 (doc_url d)) as [?|?]; [|by left|by right].
      by apply list_elem_of_fmap_2.
    + unfold get_links, dataset_links. by rewrite Hl, Hl1.
Qed.

Lemma X30_witness :
  store_wf empty_store ∧ NoDup (OD.keys ex_dataset)
  ∧ ∃ s',
      load_dataset_to_db ex_strip empty_store ex_dataset = Some s'
      ∧ store_wf s'
      ∧ (∀ u i, find_doc_id empty_store u = Some i →
                find_doc_id s' u = Some i)
      ∧ (∀ t a, (t, a) ∈ ex_dataset → is_Some (find_doc_id s' (a_url a)))
      ∧ (clean_urls ex_strip ex_dataset →
         (∀ d, d ∈ get_all_documents s' →
               doc_url d ∈ urls empty_store
               ∨ doc_url d ∈ (λ item : str * article, a_url item.2)
                               <$> ex_dataset)
         ∧ get_links s' = get_links empty_store ++ dataset_links s' ex_dataset).
Proof.
  assert (NoDup (OD.keys ex_dataset)) as Hnd by by_compute.
  split_and!; [apply wf_empty|done|].
  by apply (X30_load_dataset ex_strip empty_store ex_dataset wf_empty).
Defined.

(** The two articles get the ids 1 and 2 and a link each way; the title
    that the dataset does not have gives no link and no document. *)
Example ex_load_dataset :
  load_dataset_to_db ex_strip empty_store ex_dataset
  = Some {| documents := [Document 1 [97] [65] (Some [120]);
                          Document 2 [98] [66] (Some [121])];
            links := [(1, 2); (2, 1)];
            doc_seq := 2 |}.
Proof. reflexivity. Qed.

End LoadExtras.
